(** * wsh: a shallow embedding of the Wisconsin shell and its checked properties

    The development follows [src/wsh.c] and [src/dynamic_array.c].
    C strings are lists of characters (the bytes before the terminating
    NUL), [int] values are [Z], the process-wide globals ([rc], [alias_hm],
    [history_da], the [PATH] variable) are the fields of a [shell] record that
    is threaded through a small state monad.  The monad has two abnormal
    outcomes: [Exit] (the process called [exit]/[_exit]) and [Crash] (the C
    code performed an operation with undefined behaviour).  The operating
    system is an oracle [os] whose answers may depend on the system calls made
    so far.  Allocation ([malloc], [strdup], [realloc], [setenv]) is assumed
    to succeed. *)

From Stdlib Require Import Ascii String.
From Stdlib Require Import List ZArith Lia Bool Arith Permutation.
Import ListNotations.
Local Open Scope list_scope.

(** ** C strings *)

Definition cstring := list ascii.

(** A string literal as a C string. *)
Definition cs (s : string) : cstring := list_ascii_of_string s.

Definition SPACE : ascii := " "%char.
Definition TAB : ascii := ascii_of_nat 9.
Definition NEWLINE : ascii := ascii_of_nat 10.
Definition QUOTE : ascii := "'"%char.
Definition PIPE : ascii := "|"%char.
Definition COLON : ascii := ":"%char.
Definition SLASH : ascii := "/"%char.
Definition DOT : ascii := "."%char.

Definition EXIT_SUCCESS : Z := 0.
Definition EXIT_FAILURE : Z := 1.
Definition STDIN_FILENO : Z := 0.
Definition STDOUT_FILENO : Z := 1.

Module Cstr.

(** [strcmp(a, b) == 0] *)
Fixpoint streq (a b : cstring) : bool :=
  match a, b with
  | [], [] => true
  | x :: a', y :: b' => Ascii.eqb x y && streq a' b'
  | _, _ => false
  end.

(** [strchr(s, c)]: [None] when [c] does not occur in [s]; otherwise the
    text before the first occurrence and the text after it.  Every caller
    overwrites the found character with NUL and goes on at the next one, so
    the two halves are what the caller sees. *)
Fixpoint strchr (s : cstring) (c : ascii) : option (cstring * cstring) :=
  match s with
  | [] => None
  | x :: s' =>
      if Ascii.eqb x c then Some ([], s')
      else match strchr s' c with
           | Some (before, after) => Some (x :: before, after)
           | None => None
           end
  end.

(** [strchr(s, c) != NULL] *)
Definition contains (s : cstring) (c : ascii) : bool :=
  match strchr s c with Some _ => true | None => false end.

(** The loop [while ( *s && *s == c) s++;]: the rest of [s] after it. *)
Fixpoint skip (c : ascii) (s : cstring) : cstring :=
  match s with
  | x :: s' => if Ascii.eqb x c then skip c s' else s
  | [] => []
  end.

(** [strspn(s, accept)] *)
Fixpoint strspn (s accept : cstring) : nat :=
  match s with
  | x :: s' => if existsb (Ascii.eqb x) accept then S (strspn s' accept) else 0
  | [] => 0
  end.

(** The successive results of [strtok(s, delim)], [strtok(NULL, delim)], ...
    for a one-character delimiter: the maximal non-empty runs of characters
    other than the delimiter.  [cur] is the run being read. *)
Fixpoint strtok_from (delim : ascii) (cur s : cstring) : list cstring :=
  match s with
  | [] => match cur with [] => [] | _ => [cur] end
  | x :: s' =>
      if Ascii.eqb x delim
      then match cur with
           | [] => strtok_from delim [] s'
           | _ => cur :: strtok_from delim [] s'
           end
      else strtok_from delim (cur ++ [x]) s'
  end.

Definition strtok_all (s : cstring) (delim : ascii) : list cstring :=
  strtok_from delim [] s.

(** [isspace] in the C locale. *)
Definition isspace (c : ascii) : bool :=
  let n := nat_of_ascii c in
  (n =? 32)%nat || ((9 <=? n)%nat && (n <=? 13)%nat).

Definition digit (c : ascii) : option Z :=
  let n := nat_of_ascii c in
  if ((48 <=? n)%nat && (n <=? 57)%nat)%bool then Some (Z.of_nat n - 48)%Z else None.

Fixpoint digits (s : cstring) (acc : Z) (n : nat) : Z * nat :=
  match s with
  | c :: s' =>
      match digit c with
      | Some d => digits s' (acc * 10 + d)%Z (S n)
      | None => (acc, n)
      end
  | [] => (acc, n)
  end.

Definition LONG_MAX : Z := 9223372036854775807.
Definition LONG_MIN : Z := -9223372036854775808.

Fixpoint count_space (s : cstring) : nat :=
  match s with
  | c :: s' => if isspace c then S (count_space s') else 0
  | [] => 0
  end.

(** [strtol(s, &endptr, 10)] with a 64-bit [long]: the value and the offset
    of [endptr] in [s].  No digits: value 0 and [endptr == s]. *)
Definition strtol (s : cstring) : Z * nat :=
  let ws := count_space s in
  let s1 := skipn ws s in
  let '(sign, sl, s2) :=
    match s1 with
    | c :: r =>
        if Ascii.eqb c "-"%char then ((-1)%Z, 1, r)
        else if Ascii.eqb c "+"%char then (1%Z, 1, r)
        else (1%Z, 0, s1)
    | [] => (1%Z, 0, s1)
    end in
  let '(v, nd) := digits s2 0%Z 0 in
  match nd with
  | 0 => (0%Z, 0)
  | _ => (Z.max LONG_MIN (Z.min LONG_MAX (sign * v)), ws + sl + nd)
  end.

End Cstr.

(** ** Diagnostics, the operating system and the shell state *)

(** The message macros of the headers, kept symbolic. *)
Inductive message : Type :=
| INVALID_EXIT_USE | INVALID_HISTORY_USE | HISTORY_INVALID_ARG
| INVALID_ALIAS_USE | INVALID_UNALIAS_USE | INVALID_WHICH_USE
| INVALID_PATH_USE | INVALID_CD_USE | CD_NO_HOME | EMPTY_PATH
| CMD_NOT_FOUND | EMPTY_PIPE_SEGMENT | MISSING_CLOSING_QUOTE
| INVALID_WSH_USE
| WHICH_ALIAS | WHICH_BUILTIN | WHICH_EXTERNAL | WHICH_NOT_FOUND
| PROMPT
| PERROR.

(** What was written to a stream. *)
Inductive output : Type :=
| Text (s : cstring)
| Msg (m : message) (args : list cstring)
| AliasListing (entries : list (cstring * cstring)).

(** Operations whose behaviour C leaves undefined. *)
Inductive fault : Type :=
| NullDeref          (* a NULL pointer used as a string *)
| ArgvOverflow       (* a store past the end of the argument array *)
| HistoryOverread    (* a load past the stored history entries *)
| AssertFailed
| BadRead.           (* a load of an element that was never stored *)

(** How a forked child leaves the code of this program: by [_exit], by a
    call of [execv] that replaces the program, or by undefined behaviour.
    What the child writes to the streams it inherits is written by the
    child; it is not part of the state of the shell that created it. *)
Inductive child_outcome : Type :=
| CExit (code : Z)
| CExec (path : cstring) (argv : list cstring)   (* execv(path, argv) succeeded *)
| CCrash (f : fault).

(** What [waitpid(pid, &status, 0)] tells the caller. *)
Inductive wait_result : Type :=
| WaitError                 (* waitpid returned -1 *)
| WaitExited (code : Z)     (* WIFEXITED, WEXITSTATUS = code *)
| WaitSignaled.             (* the child did not exit normally *)

(** Process-management calls, in the order the process made them. *)
Inductive event : Type :=
| EvPipe (fds : option (Z * Z))
| EvFork (pid : Z) (child : child_outcome)
| EvForkFailed
| EvKill (pid : Z)
| EvWait (pid : Z) (r : wait_result)
| EvClose (fd : Z)
| EvChdir (dir : cstring) (ok : bool).

(** The operating system as seen by the shell process.  Each answer may
    depend on the calls made so far. *)
Record os : Type := mkOs {
  os_access : list event -> cstring -> bool;     (* access(path, X_OK) == 0 *)
  os_execv : list event -> cstring -> list cstring -> bool;
                                                 (* execv(path, argv) does not return *)
  os_pipe : list event -> option (Z * Z);        (* read end, write end *)
  os_fork : list event -> option Z;              (* the child's pid, in the parent *)
  os_waitpid : list event -> Z -> wait_result;
  os_dup2 : list event -> Z -> Z -> bool;
  os_chdir : list event -> cstring -> bool;
  os_home : option cstring;                      (* getenv("HOME") *)
  os_stdin : list cstring;                       (* what successive fgets calls return *)
  os_fopen : cstring -> option (list cstring)    (* the lines of a script file *)
}.

(** Modelled from the spec: the string-keyed association table of
    [hash_map.c], which is not among the sources: insert-or-replace by key,
    fetch by key, delete by key, enumeration sorted by key. *)
Module HashMap.

Definition t := list (cstring * cstring).

Definition hm_create : t := [].

Fixpoint hm_get (m : t) (key : cstring) : option cstring :=
  match m with
  | [] => None
  | (k, v) :: m' => if Cstr.streq k key then Some v else hm_get m' key
  end.

Fixpoint hm_put (m : t) (key value : cstring) : t :=
  match m with
  | [] => [(key, value)]
  | (k, v) :: m' =>
      if Cstr.streq k key then (k, value) :: m' else (k, v) :: hm_put m' key value
  end.

Fixpoint hm_delete (m : t) (key : cstring) : t :=
  match m with
  | [] => []
  | (k, v) :: m' =>
      if Cstr.streq k key then m' else (k, v) :: hm_delete m' key
  end.

(** [strcmp(a, b) <= 0] *)
Fixpoint str_le (a b : cstring) : bool :=
  match a, b with
  | [], _ => true
  | _ :: _, [] => false
  | x :: a', y :: b' =>
      if (nat_of_ascii x <? nat_of_ascii y)%nat then true
      else if (nat_of_ascii y <? nat_of_ascii x)%nat then false
      else str_le a' b'
  end.

Fixpoint insert_sorted (e : cstring * cstring) (l : t) : t :=
  match l with
  | [] => [e]
  | e' :: l' => if str_le (fst e) (fst e') then e :: l else e' :: insert_sorted e l'
  end.

Definition hm_sorted (m : t) : t := fold_right insert_sorted [] m.

End HashMap.

(** [dynamic_array.c]: the stored strings are [data[0 .. size-1]]. *)
Module DynamicArray.

Definition t := list cstring.

Definition da_create : t := [].

Definition da_put (da : t) (val : cstring) : t := da ++ [val].

Definition da_get (da : t) (ind : nat) : option cstring := nth_error da ind.

(** [da->size - 1] in [size_t] arithmetic. *)
Definition print_bound (da : t) : Z := ((Z.of_nat (length da) - 1) mod 2 ^ 64)%Z.

(** [da_print]: the loop prints [data[i]] for [0 <= i < size - 1].  When
    the bound is beyond the stored entries the loop loads [data[size]],
    which was never stored: [None]. *)
Definition da_print (da : t) : option (list cstring) :=
  if (print_bound da <=? Z.of_nat (length da))%Z
  then Some (firstn (Z.to_nat (print_bound da)) da)
  else None.

End DynamicArray.

Record shell : Type := mkShell {
  rc : Z;                         (* int rc *)
  alias_hm : HashMap.t;
  history_da : DynamicArray.t;
  path_env : option cstring;      (* getenv("PATH") *)
  out : list output;              (* what this process wrote to stdout *)
  err : list output;              (* what this process wrote to stderr *)
  trace : list event
}.

Definition set_rc (v : Z) (s : shell) : shell :=
  mkShell v (alias_hm s) (history_da s) (path_env s) (out s) (err s) (trace s).
Definition set_alias_hm (m : HashMap.t) (s : shell) : shell :=
  mkShell (rc s) m (history_da s) (path_env s) (out s) (err s) (trace s).
Definition set_history_da (h : DynamicArray.t) (s : shell) : shell :=
  mkShell (rc s) (alias_hm s) h (path_env s) (out s) (err s) (trace s).
Definition set_path_env (p : option cstring) (s : shell) : shell :=
  mkShell (rc s) (alias_hm s) (history_da s) p (out s) (err s) (trace s).
Definition add_out (o : output) (s : shell) : shell :=
  mkShell (rc s) (alias_hm s) (history_da s) (path_env s) (out s ++ [o]) (err s) (trace s).
Definition add_err (o : output) (s : shell) : shell :=
  mkShell (rc s) (alias_hm s) (history_da s) (path_env s) (out s) (err s ++ [o]) (trace s).
Definition add_event (e : event) (s : shell) : shell :=
  mkShell (rc s) (alias_hm s) (history_da s) (path_env s) (out s) (err s) (trace s ++ [e]).

(** ** The monad of shell code *)

Inductive result (A : Type) : Type :=
| Ret (a : A) (s : shell)        (* the code returned [a] *)
| Exit (code : Z) (s : shell)    (* the process terminated with [code] *)
| Crash (f : fault) (s : shell). (* undefined behaviour *)
Arguments Ret {A} a s.
Arguments Exit {A} code s.
Arguments Crash {A} f s.

Definition M (A : Type) : Type := shell -> result A.

Definition ret {A} (a : A) : M A := fun s => Ret a s.

Definition bind {A B} (m : M A) (k : A -> M B) : M B :=
  fun s => match m s with
           | Ret a s' => k a s'
           | Exit c s' => Exit c s'
           | Crash f s' => Crash f s'
           end.

Notation "x <- c1 ;; c2" := (bind c1 (fun x => c2))
  (at level 61, c1 at next level, right associativity).
Notation "c1 ;;; c2" := (bind c1 (fun _ => c2))
  (at level 61, right associativity).

Definition get : M shell := fun s => Ret s s.
Definition modify (f : shell -> shell) : M unit := fun s => Ret tt (f s).
Definition crash {A} (f : fault) : M A := fun s => Crash f s.
Definition exit_process {A} (code : Z) : M A := fun s => Exit code s.

(** ** The shell *)

Module Wsh.

Import Cstr HashMap DynamicArray.

Inductive builtin : Type :=
| B_exit | B_alias | B_unalias | B_which | B_path | B_cd | B_history.

(** The table [builtins[]], in its order (the NULL entry ends it). *)
Definition builtins : list (cstring * builtin) :=
  [ (cs "exit", B_exit); (cs "alias", B_alias); (cs "unalias", B_unalias);
    (cs "which", B_which); (cs "path", B_path); (cs "cd", B_cd);
    (cs "history", B_history) ].

(** The loop [for (i = 0; builtins[i].name != NULL; i++)] that compares
    [name] with each entry and stops at the first match. *)
Fixpoint lookup_builtin (table : list (cstring * builtin)) (name : cstring)
  : option builtin :=
  match table with
  | [] => None
  | (n, b) :: table' => if streq name n then Some b else lookup_builtin table' name
  end.

(** [name[0] == '/' || (name[0] == '.' && name[1] == '/')] *)
Definition is_path_name (name : cstring) : bool :=
  match name with
  | c0 :: rest =>
      Ascii.eqb c0 SLASH ||
      (Ascii.eqb c0 DOT && match rest with c1 :: _ => Ascii.eqb c1 SLASH | [] => false end)
  | [] => false
  end.

(** [name[0] == '.' || name[0] == '/'], the test of [wsh_which]. *)
Definition which_is_path_name (name : cstring) : bool :=
  match name with
  | c0 :: _ => Ascii.eqb c0 DOT || Ascii.eqb c0 SLASH
  | [] => false
  end.

(** The result of a tokenizer run on the caller's array
    [char *argv[MAX_ARGS + 1]]. *)
Inductive parsed : Type :=
| Tokens (argv : list cstring)   (* argc = length argv, argv[argc] = NULL *)
| MissingQuote                   (* diagnostic, argc = 0, argv[0] = NULL *)
| Overflow.                      (* a store at an index above MAX_ARGS *)

(** The buffer [buf] of [parseline_no_subst]: a trailing newline becomes a
    space, otherwise a space is appended. *)
Definition line_buffer (cmdline : cstring) : cstring :=
  match rev cmdline with
  | c :: r => if Ascii.eqb c NEWLINE then rev r ++ [SPACE] else cmdline ++ [SPACE]
  | [] => [SPACE]
  end.

(** [temp[len - 1] = 0] when the last character is a newline. *)
Definition chomp (cmdline : cstring) : cstring :=
  match rev cmdline with
  | c :: r => if Ascii.eqb c NEWLINE then rev r else cmdline
  | [] => []
  end.

(** The command line built from an alias: [strcpy] of the expansion, then
    for [k = 1 .. argc-1] a space and [argv[k]]. *)
Definition alias_subst (alias_cmd : cstring) (argv : list cstring) : cstring :=
  alias_cmd ++ flat_map (fun a => SPACE :: a) (tl argv).

(** What the trace of the parent keeps of the run of a child: how the child
    left the code of this program. *)
Definition child_of (r : result (cstring * list cstring)) : child_outcome :=
  match r with
  | Ret (path, argv) _ => CExec path argv
  | Exit code _ => CExit code
  | Crash f _ => CCrash f
  end.

Section Shell.

(** [MAX_ARGS] of [wsh.h], which is not among the sources. *)
Variable MAX_ARGS : nat.
Variable sys : os.

(** *** Helpers *)

(** [wsh_warn] *)
Definition wsh_warn (m : message) (args : list cstring) : M unit :=
  modify (fun s => set_rc EXIT_FAILURE (add_err (Msg m args) s)).

Definition perror (what : string) : M unit :=
  modify (add_err (Msg PERROR [cs what])).

(** [clean_exit]: the globals are released and the process ends. *)
Definition clean_exit {A} (return_code : Z) : M A := exit_process return_code.

(** The string [argv[i]] where the code uses it as one: [argv[argc]] is
    NULL, and nothing was stored above it. *)
Definition arg (argv : list cstring) (i : nat) : M cstring :=
  match nth_error argv i with
  | Some a => ret a
  | None => if (i =? length argv)%nat then crash NullDeref else crash BadRead
  end.

Definition sys_pipe : M (option (Z * Z)) :=
  fun s => let r := os_pipe sys (trace s) in Ret r (add_event (EvPipe r) s).

(** [fork] in the parent; [child] is what the child goes on to do. *)
Definition sys_fork (child : child_outcome) : M (option Z) :=
  fun s => match os_fork sys (trace s) with
           | Some pid => Ret (Some pid) (add_event (EvFork pid child) s)
           | None => Ret None (add_event EvForkFailed s)
           end.

Definition sys_waitpid (pid : Z) : M wait_result :=
  fun s => let r := os_waitpid sys (trace s) pid in
           Ret r (add_event (EvWait pid r) s).

Definition sys_kill (pid : Z) : M unit := modify (add_event (EvKill pid)).

Definition sys_close (fd : Z) : M unit := modify (add_event (EvClose fd)).

Definition sys_chdir (dir : cstring) : M bool :=
  fun s => let ok := os_chdir sys (trace s) dir in
           Ret ok (add_event (EvChdir dir ok) s).

(** [for (j = 0; j < i; j++) kill(pids[j], SIGTERM);] *)
Fixpoint kill_all (pids : list Z) : M unit :=
  match pids with
  | [] => ret tt
  | pid :: rest => sys_kill pid ;;; kill_all rest
  end.

Definition print_lines (l : list cstring) : M unit :=
  modify (fun s => fold_left (fun s x => add_out (Text x) s) l s).

(** *** The tokenizer, [parseline_no_subst] *)

(** [argv[count] = NULL; *argc = count;] *)
Definition finish (argv : list cstring) : parsed :=
  if (length argv <=? MAX_ARGS)%nat then Tokens argv else Overflow.

(** The loop [while ( *p)].  [argv] holds the tokens stored so far, so
    [count = length argv]; the store [argv[count] = strdup(token_start)]
    is inside the array only when [count <= MAX_ARGS].  Each turn
    consumes a character of [p]; [fuel] bounds the number of turns. *)
Fixpoint parse_loop (fuel : nat) (argv : list cstring) (p : cstring)
  : option parsed :=
  match fuel with
  | O => None
  | S fuel' =>
      match p with
      | [] => Some (finish argv)
      | c :: p' =>
          let found :=
            if Ascii.eqb c QUOTE
            then match strchr p' QUOTE with
                 | None => inl MissingQuote
                 | Some (tok, rest) => inr (tok, rest)
                 end
            else match strchr p SPACE with
                 | None => inl (finish argv)          (* break *)
                 | Some (tok, rest) => inr (tok, rest)
                 end in
          match found with
          | inl r => Some r
          | inr (tok, rest) =>
              if (length argv <=? MAX_ARGS)%nat
              then parse_loop fuel' (argv ++ [tok]) (skip SPACE rest)
              else Some Overflow
          end
      end
  end.

Definition tokenize (cmdline : cstring) : parsed :=
  let buf := line_buffer cmdline in
  match parse_loop (S (length buf)) [] (skip SPACE buf) with
  | Some r => r
  | None => Overflow
  end.

Definition parseline_no_subst (cmdline : cstring) : M (list cstring) :=
  match tokenize cmdline with
  | Tokens argv => ret argv
  | MissingQuote => wsh_warn MISSING_CLOSING_QUOTE [] ;;; ret []
  | Overflow => crash ArgvOverflow
  end.

(** *** The path resolver *)

(** The [while (dir != NULL)] loop over the [strtok] results. *)
Fixpoint search_dirs (tr : list event) (dirs : list cstring) (name : cstring)
  : option cstring :=
  match dirs with
  | [] => None
  | dir :: rest =>
      let temp_path := dir ++ [SLASH] ++ name in
      if os_access sys tr temp_path then Some temp_path
      else search_dirs tr rest name
  end.

(** [find_executable_path]: [None] is the NULL result. *)
Definition find_executable_path (s : shell) (command_name : cstring)
  : option cstring :=
  if is_path_name command_name
  then if os_access sys (trace s) command_name then Some command_name else None
  else match path_env s with
       | None => None
       | Some path_env =>
           if (length path_env =? 0)%nat then None
           else search_dirs (trace s) (strtok_all path_env COLON) command_name
       end.

(** The value of [full_path] in [wsh_which] after its resolution block. *)
Definition which_path (s : shell) (name : cstring) : option cstring :=
  if which_is_path_name name
  then if os_access sys (trace s) name then Some name else None
  else match path_env s with
       | None => None
       | Some path_env =>
           if (0 <? length path_env)%nat
           then search_dirs (trace s) (strtok_all path_env COLON) name
           else None
       end.

(** *** Builtins *)

Definition wsh_exit (argv : list cstring) : M Z :=
  a0 <- arg argv 0 ;;
  if negb (streq a0 (cs "exit")) then crash AssertFailed
  else if (1 <? length argv)%nat
  then wsh_warn INVALID_EXIT_USE [] ;;; ret EXIT_FAILURE
  else s <- get ;; clean_exit (rc s).

Definition wsh_history (argv : list cstring) : M Z :=
  if (2 <? length argv)%nat
  then wsh_warn INVALID_HISTORY_USE [] ;;; ret EXIT_FAILURE
  else if (length argv =? 1)%nat
  then
    s <- get ;;
    match da_print (history_da s) with
    | Some lines => print_lines lines ;;; ret EXIT_SUCCESS
    | None => crash HistoryOverread
    end
  else
    a <- arg argv 1 ;;
    let '(n, endptr) := strtol a in
    if (endptr =? 0)%nat || negb (endptr =? length a)%nat || (n <=? 0)%Z
    then wsh_warn HISTORY_INVALID_ARG [] ;;; ret EXIT_FAILURE
    else
      s <- get ;;
      if (Z.of_nat (length (history_da s)) <? n)%Z
      then wsh_warn HISTORY_INVALID_ARG [] ;;; ret EXIT_FAILURE
      else match da_get (history_da s) (Z.to_nat (n - 1)) with
           | Some e => modify (add_out (Text e)) ;;; ret EXIT_SUCCESS
           | None => crash BadRead
           end.

Definition wsh_alias (argv : list cstring) : M Z :=
  if (length argv =? 1)%nat
  then
    s <- get ;;
    modify (add_out (AliasListing (hm_sorted (alias_hm s)))) ;;;
    ret EXIT_SUCCESS
  else
    (* argc > 4 || strcmp(argv[2], "=") != 0 *)
    bad <- (if (4 <? length argv)%nat then ret true
            else a2 <- arg argv 2 ;; ret (negb (streq a2 (cs "=")))) ;;
    if bad : bool
    then wsh_warn INVALID_ALIAS_USE [] ;;; ret EXIT_FAILURE
    else
      name <- arg argv 1 ;;
      command <- (if (length argv =? 4)%nat then arg argv 3 else ret (cs " ")) ;;
      if (length name =? 0)%nat
      then wsh_warn INVALID_ALIAS_USE [] ;;; ret EXIT_FAILURE
      else
        modify (fun s => set_alias_hm (hm_put (alias_hm s) name command) s) ;;;
        ret EXIT_SUCCESS.

Definition wsh_unalias (argv : list cstring) : M Z :=
  if negb (length argv =? 2)%nat
  then wsh_warn INVALID_UNALIAS_USE [] ;;; ret EXIT_FAILURE
  else
    a1 <- arg argv 1 ;;
    modify (fun s => set_alias_hm (hm_delete (alias_hm s) a1) s) ;;;
    ret EXIT_SUCCESS.

Definition wsh_which (argv : list cstring) : M Z :=
  if negb (length argv =? 2)%nat
  then wsh_warn INVALID_WHICH_USE [] ;;; ret EXIT_FAILURE
  else
    name <- arg argv 1 ;;
    s <- get ;;
    match hm_get (alias_hm s) name with
    | Some alias_cmd =>
        modify (add_out (Msg WHICH_ALIAS [name; alias_cmd])) ;;; ret EXIT_SUCCESS
    | None =>
        match lookup_builtin builtins name with
        | Some _ => modify (add_out (Msg WHICH_BUILTIN [name])) ;;; ret EXIT_SUCCESS
        | None =>
            match which_path s name with
            | Some full_path =>
                modify (add_out (Msg WHICH_EXTERNAL [name; full_path])) ;;;
                ret EXIT_SUCCESS
            | None =>
                modify (add_out (Msg WHICH_NOT_FOUND [name])) ;;;
                ret EXIT_FAILURE
            end
        end
    end.

Definition wsh_path (argv : list cstring) : M Z :=
  if (2 <? length argv)%nat
  then wsh_warn INVALID_PATH_USE [] ;;; ret EXIT_FAILURE
  else if (length argv =? 1)%nat
  then
    s <- get ;;
    match path_env s with
    | Some p => modify (add_out (Text (p ++ [NEWLINE]))) ;;; ret EXIT_SUCCESS
    | None => ret EXIT_SUCCESS
    end
  else
    a1 <- arg argv 1 ;;
    modify (set_path_env (Some a1)) ;;; ret EXIT_SUCCESS.

Definition wsh_cd (argv : list cstring) : M Z :=
  if (2 <? length argv)%nat
  then wsh_warn INVALID_CD_USE [] ;;; ret EXIT_FAILURE
  else
    dir <- (if (length argv =? 1)%nat
            then ret (os_home sys)
            else a1 <- arg argv 1 ;; ret (Some a1)) ;;
    match dir with
    | None => wsh_warn CD_NO_HOME [] ;;; ret EXIT_FAILURE
    | Some dir_to_go =>
        ok <- sys_chdir dir_to_go ;;
        if ok : bool then ret EXIT_SUCCESS
        else perror "cd" ;;; ret EXIT_FAILURE
    end.

(** [builtins[i].func(argc, argv)] *)
Definition run_builtin (b : builtin) (argv : list cstring) : M Z :=
  match b with
  | B_exit => wsh_exit argv
  | B_alias => wsh_alias argv
  | B_unalias => wsh_unalias argv
  | B_which => wsh_which argv
  | B_path => wsh_path argv
  | B_cd => wsh_cd argv
  | B_history => wsh_history argv
  end.

(** *** External commands *)

Definition path_is_empty (s : shell) : bool :=
  match path_env s with
  | None => true
  | Some p => (length p =? 0)%nat
  end.

(** [execv(path, argv)]: the call returns only when it failed. *)
Definition sys_execv (path : cstring) (argv : list cstring)
  : M (option (cstring * list cstring)) :=
  s <- get ;;
  ret (if os_execv sys (trace s) path argv then Some (path, argv) else None).

(** The child of [execute_external_command], on its copy of the state: it
    reaches [execv(full_path, argv)], and when that call returns it reports
    the command as not found and ends. *)
Definition external_child (command_name full_path : cstring)
           (argv : list cstring) : M (cstring * list cstring) :=
  r <- sys_execv full_path argv ;;
  match r with
  | Some image => ret image
  | None => wsh_warn CMD_NOT_FOUND [command_name] ;;; exit_process EXIT_FAILURE
  end.

(** The code of [execute_external_command] from [fork] on. *)
Definition fork_and_wait (command_name full_path : cstring)
           (argv : list cstring) : M Z :=
  s <- get ;;
  pid <- sys_fork (child_of (external_child command_name full_path argv s)) ;;
  match pid with
  | None => perror "fork" ;;; ret EXIT_FAILURE
  | Some pid =>
      w <- sys_waitpid pid ;;
      match w with
      | WaitError => perror "waitpid" ;;; ret EXIT_FAILURE
      | WaitExited code => modify (set_rc code) ;;; ret EXIT_SUCCESS
      | WaitSignaled => modify (set_rc EXIT_FAILURE) ;;; ret EXIT_SUCCESS
      end
  end.

Definition execute_external_command (argv : list cstring) : M Z :=
  match argv with
  | [] => crash AssertFailed                       (* assert(argc > 0) *)
  | command_name :: _ =>
      s <- get ;;
      if is_path_name command_name
      then
        if os_access sys (trace s) command_name
        then fork_and_wait command_name command_name argv
        else wsh_warn CMD_NOT_FOUND [command_name] ;;; ret EXIT_FAILURE
      else
        match find_executable_path s command_name with
        | Some full_path => fork_and_wait command_name full_path argv
        | None =>
            if path_is_empty s
            then wsh_warn EMPTY_PATH [] ;;; ret EXIT_FAILURE
            else wsh_warn CMD_NOT_FOUND [command_name] ;;; ret EXIT_FAILURE
        end
  end.

(** *** Pipelines *)

(** [dup2(fd, std)] and [close(fd)] when [fd] is not already [std]; a
    failure ends the child. *)
Definition redirect (what : string) (fd std : Z) : M unit :=
  if (fd =? std)%Z then ret tt
  else
    s <- get ;;
    if os_dup2 sys (trace s) fd std then sys_close fd
    else perror what ;;; exit_process EXIT_FAILURE.

(** [execute_segment], run by a forked child on its copy of the state.
    It never returns to its caller: it ends in [_exit], or
    [execv(path_to_exec, argv)] replaces the program, which is the value
    returned here. *)
Definition execute_segment (segment_cmdline : cstring) (in_fd out_fd : Z)
  : M (cstring * list cstring) :=
  argv <- parseline_no_subst segment_cmdline ;;
  match argv with
  | [] => exit_process EXIT_FAILURE
  | command_name :: _ =>
      redirect "dup2 (in_fd)" in_fd STDIN_FILENO ;;;
      redirect "dup2 (out_fd)" out_fd STDOUT_FILENO ;;;
      match lookup_builtin builtins command_name with
      | Some b => exit_code <- run_builtin b argv ;; exit_process exit_code
      | None =>
          s <- get ;;
          match find_executable_path s command_name with
          | None => wsh_warn CMD_NOT_FOUND [command_name] ;;;
                    exit_process EXIT_FAILURE
          | Some path_to_exec =>
              r <- sys_execv path_to_exec argv ;;
              match r with
              | Some image => ret image
              | None => perror "execv" ;;; exit_process EXIT_FAILURE
              end
          end
      end
  end.

Definition close_unless_stdin (fd : Z) : M unit :=
  if (fd =? STDIN_FILENO)%Z then ret tt else sys_close fd.

(** The first loop of [execute_pipeline], over the segments before the
    last one.  [pids] are the children created so far.  [None]: a
    [pipe] or [fork] failed and the function returns [EXIT_FAILURE]. *)
Fixpoint spawn_loop (segs : list cstring) (prev_pipe_read_fd : Z)
         (pids : list Z) : M (option (Z * list Z)) :=
  match segs with
  | [] => ret (Some (prev_pipe_read_fd, pids))
  | seg :: rest =>
      pipefd <- sys_pipe ;;
      match pipefd with
      | None => perror "pipe" ;;; kill_all pids ;;; ret None
      | Some (rfd, wfd) =>
          s <- get ;;
          pid <- sys_fork
                   (child_of ((sys_close rfd ;;;
                               execute_segment seg prev_pipe_read_fd wfd) s)) ;;
          match pid with
          | None =>
              perror "fork" ;;; sys_close rfd ;;; sys_close wfd ;;;
              kill_all pids ;;; ret None
          | Some pid =>
              sys_close wfd ;;;
              close_unless_stdin prev_pipe_read_fd ;;;
              spawn_loop rest rfd (pids ++ [pid])
          end
      end
  end.

(** The second loop: [waitpid] on [pids[0 .. num_segments-2]]. *)
Fixpoint wait_rest (pids : list Z) (all_success : Z) : M Z :=
  match pids with
  | [] => ret all_success
  | pid :: rest =>
      w <- sys_waitpid pid ;;
      match w with
      | WaitError => perror "waitpid" ;;; wait_rest rest EXIT_FAILURE
      | _ => wait_rest rest all_success
      end
  end.

(** The code of [execute_pipeline] after the last [fork]. *)
Definition collect (pid_last : Z) (pids : list Z) : M Z :=
  w <- sys_waitpid pid_last ;;
  all_success <-
    match w with
    | WaitError =>
        perror "waitpid" ;;; modify (set_rc EXIT_FAILURE) ;;; ret EXIT_FAILURE
    | WaitExited code =>
        modify (set_rc code) ;;;
        ret (if (code =? EXIT_SUCCESS)%Z then EXIT_SUCCESS else EXIT_FAILURE)
    | WaitSignaled => modify (set_rc EXIT_FAILURE) ;;; ret EXIT_FAILURE
    end ;;
  wait_rest pids all_success.

Definition execute_pipeline (segments : list cstring) : M Z :=
  r <- spawn_loop (removelast segments) STDIN_FILENO [] ;;
  match r with
  | None => ret EXIT_FAILURE
  | Some (prev_pipe_read_fd, pids) =>
      s <- get ;;
      pid_last <- sys_fork
                    (match nth_error segments (length segments - 1) with
                     | Some seg =>
                         child_of (execute_segment seg prev_pipe_read_fd
                                                   STDOUT_FILENO s)
                     | None => CCrash BadRead
                     end) ;;
      match pid_last with
      | None => perror "fork" ;;; kill_all pids ;;; ret EXIT_FAILURE
      | Some pid_last =>
          close_unless_stdin prev_pipe_read_fd ;;;
          collect pid_last pids
      end
  end.

(** *** The dispatcher, [execute_command] *)

(** The history step at the head of [execute_command]. *)
Definition record_history (cmdline : cstring) : M unit :=
  if (0 <? length cmdline)%nat
  then
    let temp := chomp cmdline in
    if negb (strspn temp [SPACE; TAB] =? length temp)%nat
    then modify (fun s => set_history_da (da_put (history_da s) cmdline) s)
    else ret tt
  else ret tt.

Inductive split_result : Type :=
| SplitEmpty                          (* an empty segment was found *)
| SplitOk (segments : list cstring).

(** A segment is empty when only spaces precede its end; for the text
    after the last pipe also when a newline follows the spaces. *)
Definition blank (seg : cstring) : bool :=
  match skip SPACE seg with [] => true | _ => false end.

Definition blank_last (seg : cstring) : bool :=
  match skip SPACE seg with
  | [] => true
  | c :: _ => Ascii.eqb c NEWLINE
  end.

(** The splitting loop and the [if (num_segments < MAX_ARGS)] block after
    it; [num_segments = length segments].  Each turn consumes a pipe
    character of [segment_start]; [fuel] bounds the number of turns. *)
Fixpoint split_loop (fuel : nat) (segment_start : cstring)
         (segments : list cstring) : option split_result :=
  match fuel with
  | O => None
  | S fuel' =>
      match strchr segment_start PIPE with
      | Some (seg, rest) =>
          if (length segments <? MAX_ARGS)%nat
          then if blank seg then Some SplitEmpty
               else split_loop fuel' rest (segments ++ [seg])
          else Some (SplitOk segments)
      | None =>
          if (length segments <? MAX_ARGS)%nat
          then if blank_last segment_start then Some SplitEmpty
               else Some (SplitOk (segments ++ [segment_start]))
          else Some (SplitOk segments)
      end
  end.

Definition split_segments (cmdline : cstring) : split_result :=
  match split_loop (S (length cmdline)) cmdline [] with
  | Some r => r
  | None => SplitEmpty
  end.

(** The body of the pre-validation loop for [segments[i]].  [None]: the
    pipeline is abandoned and [execute_command] returns [EXIT_FAILURE];
    otherwise the new value of [segments[i]], which is the alias text when
    the head of the segment is an alias. *)
Definition validate_segment (segment_cmdline : cstring) : M (option cstring) :=
  temp_argv <- parseline_no_subst segment_cmdline ;;
  match temp_argv with
  | [] => wsh_warn EMPTY_PIPE_SEGMENT [] ;;; ret None
  | command_name :: _ =>
      s <- get ;;
      r <- match hm_get (alias_hm s) command_name with
           | Some alias_cmd =>
               let temp_alias_subst := alias_subst alias_cmd temp_argv in
               argv2 <- parseline_no_subst temp_alias_subst ;;
               match argv2 with
               | [] => crash NullDeref       (* strcmp(temp_argv[0], ...) *)
               | c :: _ => ret (c, temp_alias_subst)
               end
           | None => ret (command_name, segment_cmdline)
           end ;;
      let '(command_name, segment) := r in
      match lookup_builtin builtins command_name with
      | Some _ => ret (Some segment)
      | None =>
          s <- get ;;
          match find_executable_path s command_name with
          | None => wsh_warn CMD_NOT_FOUND [command_name] ;;; ret None
          | Some _ => ret (Some segment)
          end
      end
  end.

(** The pre-validation loop; [done] are the segments already checked. *)
Fixpoint prevalidate (todo done : list cstring) : M (option (list cstring)) :=
  match todo with
  | [] => ret (Some done)
  | segment_cmdline :: rest =>
      r <- validate_segment segment_cmdline ;;
      match r with
      | None => ret None
      | Some segment => prevalidate rest (done ++ [segment])
      end
  end.

(** The single-command path once the final argument vector is known. *)
Definition dispatch (argv : list cstring) : M Z :=
  match argv with
  | [] => crash NullDeref
  | command :: _ =>
      if streq command (cs "exit")
      then
        if (1 <? length argv)%nat
        then wsh_warn INVALID_EXIT_USE [] ;;; ret EXIT_FAILURE
        else s <- get ;; clean_exit (rc s)
      else
        match lookup_builtin builtins command with
        | Some b =>
            r <- run_builtin b argv ;;
            modify (set_rc r) ;;;
            ret (if (r =? EXIT_SUCCESS)%Z then EXIT_SUCCESS else EXIT_FAILURE)
        | None => execute_external_command argv
        end
  end.

(** The tokenizing and alias step of the single-command path followed by
    [dispatch]. *)
Definition execute_single (cmdline : cstring) : M Z :=
  argv <- parseline_no_subst cmdline ;;
  match argv with
  | [] => ret EXIT_SUCCESS
  | command :: _ =>
      s <- get ;;
      match hm_get (alias_hm s) command with
      | Some alias_cmd =>
          argv' <- parseline_no_subst (alias_subst alias_cmd argv) ;;
          match argv' with
          | [] => ret EXIT_SUCCESS
          | _ => dispatch argv'
          end
      | None => dispatch argv
      end
  end.

Definition execute_pipe_line (cmdline : cstring) : M Z :=
  match split_segments cmdline with
  | SplitEmpty => wsh_warn EMPTY_PIPE_SEGMENT [] ;;; ret EXIT_FAILURE
  | SplitOk segments =>
      r <- prevalidate segments [] ;;
      match r with
      | None => ret EXIT_FAILURE
      | Some segments' => execute_pipeline segments'
      end
  end.

Definition execute_command (cmdline : cstring) : M Z :=
  record_history cmdline ;;;
  if contains cmdline PIPE
  then execute_pipe_line cmdline
  else execute_single cmdline.

(** *** Modes of execution *)

(** [interactive_main]; [lines] are the results of the [fgets] calls
    before end of input. *)
Fixpoint interactive_main (lines : list cstring) : M unit :=
  modify (add_out (Msg PROMPT [])) ;;;
  match lines with
  | [] => s <- get ;; clean_exit (rc s)
  | cmdline :: rest => execute_command cmdline ;;; interactive_main rest
  end.

Fixpoint batch_loop (lines : list cstring) (result : Z) : M Z :=
  match lines with
  | [] => ret result
  | cmdline :: rest => r <- execute_command cmdline ;; batch_loop rest r
  end.

Definition batch_main (script_file : cstring) : M Z :=
  match os_fopen sys script_file with
  | None => perror "fopen" ;;; modify (set_rc EXIT_FAILURE) ;;; ret EXIT_FAILURE
  | Some lines => batch_loop lines EXIT_SUCCESS
  end.

(** The globals before [main] runs. *)
Definition boot : shell := mkShell 0 hm_create da_create None [] [] [].

Definition main (argv : list cstring) : M Z :=
  modify (set_path_env (Some (cs "/bin:/usr/bin"))) ;;;
  if (2 <? length argv)%nat
  then wsh_warn INVALID_WSH_USE [] ;;; ret EXIT_FAILURE
  else
    match length argv with
    | 1 => interactive_main (os_stdin sys)
    | 2 => a1 <- arg argv 1 ;; r <- batch_main a1 ;; modify (set_rc r)
    | _ => ret tt
    end ;;;
    s <- get ;; ret (rc s).

(** The exit code of the process, when it ends by [exit] or by returning
    from [main]. *)
Definition exit_code (r : result Z) : option Z :=
  match r with
  | Ret v _ => Some v
  | Exit code _ => Some code
  | Crash _ _ => None
  end.

End Shell.

End Wsh.

(** ** Words of the claims *)

Module Spec.

Import Cstr Wsh.

(** Text that ends at a token boundary: nothing, or text whose last
    character is a space. *)
Definition ends_at_boundary (pre : cstring) : bool :=
  match rev pre with
  | [] => true
  | c :: _ => Ascii.eqb c SPACE
  end.

(** A word that the tokenizer reads back as itself: not empty, not starting
    with a quote, without a space or a pipe character. *)
Definition plain_word (w : cstring) : bool :=
  match w with
  | [] => false
  | c :: _ =>
      negb (Ascii.eqb c QUOTE) && negb (contains w SPACE) && negb (contains w PIPE)
  end.

(** Each of [args] preceded by a single space. *)
Definition spaced (args : list cstring) : cstring :=
  flat_map (fun a => SPACE :: a) args.

(** The segments of a line: the texts between its pipe characters.  [cur] is
    the segment being read. *)
Fixpoint pipe_fields_from (cur s : cstring) : list cstring :=
  match s with
  | [] => [cur]
  | c :: s' =>
      if Ascii.eqb c PIPE then cur :: pipe_fields_from [] s'
      else pipe_fields_from (cur ++ [c]) s'
  end.

Definition pipe_fields (line : cstring) : list cstring := pipe_fields_from [] line.

(** Segment [i] is the text after the last pipe character. *)
Definition is_last_field (line : cstring) (i : nat) : bool :=
  (S i =? length (pipe_fields line))%nat.

Definition only_spaces (seg : cstring) : bool := forallb (Ascii.eqb SPACE) seg.

(** An empty segment holds spaces only; in the last segment the newline that
    ends the line may follow them. *)
Definition empty_segment (is_last : bool) (seg : cstring) : bool :=
  only_spaces (if is_last then chomp seg else seg).

(** The command that a segment names once its alias, if any, is resolved. *)
Definition segment_command (MAX_ARGS : nat) (st : shell) (seg : cstring)
  : option cstring :=
  match tokenize MAX_ARGS seg with
  | Tokens (c :: args) =>
      match HashMap.hm_get (alias_hm st) c with
      | None => Some c
      | Some alias_cmd =>
          match tokenize MAX_ARGS (alias_subst alias_cmd (c :: args)) with
          | Tokens (c' :: _) => Some c'
          | _ => None
          end
      end
  | _ => None
  end.

(** The head of the segment is neither a builtin nor a resolvable
    executable. *)
Definition unresolvable (MAX_ARGS : nat) (sys : os) (st : shell) (seg : cstring)
  : bool :=
  match segment_command MAX_ARGS st seg with
  | Some c =>
      match lookup_builtin builtins c, find_executable_path sys st c with
      | None, None => true
      | _, _ => false
      end
  | None => false
  end.

(** The state in which a run ends. *)
Definition final_state {A : Type} (r : result A) : shell :=
  match r with
  | Ret _ s => s
  | Exit _ s => s
  | Crash _ s => s
  end.

(** The processes created, waited for and signalled by a sequence of calls,
    in the order of the calls. *)
Definition spawned (tr : list event) : list Z :=
  flat_map (fun e => match e with EvFork pid _ => [pid] | _ => [] end) tr.

Definition waited (tr : list event) : list Z :=
  flat_map (fun e => match e with EvWait pid _ => [pid] | _ => [] end) tr.

Definition killed (tr : list event) : list Z :=
  flat_map (fun e => match e with EvKill pid => [pid] | _ => [] end) tr.

(** A [pipe] or [fork] call failed. *)
Definition creation_failed (tr : list event) : bool :=
  existsb (fun e => match e with
                    | EvPipe None | EvForkFailed => true
                    | _ => false
                    end) tr.

(** A [waitpid] call failed. *)
Definition wait_failed (tr : list event) : bool :=
  existsb (fun e => match e with EvWait _ WaitError => true | _ => false end) tr.

(** The return code recorded for a wait result: the exit status of a process
    that exited, failure otherwise. *)
Definition recorded_code (w : wait_result) : Z :=
  match w with
  | WaitExited code => code
  | _ => EXIT_FAILURE
  end.

(** Success exactly for exit status 0. *)
Definition status_of (w : wait_result) : Z :=
  match w with
  | WaitExited code => if (code =? 0)%Z then EXIT_SUCCESS else EXIT_FAILURE
  | _ => EXIT_FAILURE
  end.

(** The state [s] after the calls [evs], which change nothing but the
    trace. *)
Definition after_calls (evs : list event) (s : shell) : shell :=
  mkShell (rc s) (alias_hm s) (history_da s) (path_env s) (out s) (err s)
          (trace s ++ evs).

(** The descriptor [prev_pipe_read_fd] of [execute_pipeline] after the calls
    [evs]: the read end of the pipe created last, [prev] when none was. *)
Definition read_end (prev : Z) (evs : list event) : Z :=
  fold_left (fun fd e => match e with EvPipe (Some (r, _)) => r | _ => fd end)
            evs prev.

(** The state in which [main] reads its first line. *)
Definition started : shell := set_path_env (Some (cs "/bin:/usr/bin")) boot.

(** The states in which the dispatcher is entered, in batch and in
    interactive mode: the first one, each state in which a call of the
    dispatcher returned, and each of these after the prompt was written. *)
Inductive reachable (MAX_ARGS : nat) (sys : os) : shell -> Prop :=
| reach_start : reachable MAX_ARGS sys started
| reach_prompt (st : shell) :
    reachable MAX_ARGS sys st ->
    reachable MAX_ARGS sys (add_out (Msg PROMPT []) st)
| reach_line (st : shell) (line : cstring) (r : Z) (st' : shell) :
    reachable MAX_ARGS sys st ->
    execute_command MAX_ARGS sys line st = Ret r st' ->
    reachable MAX_ARGS sys st'.

(** No child of the trace ran the history listing on an empty history. *)
Definition no_child_overread (tr : list event) : Prop :=
  forall pid, ~ In (EvFork pid (CCrash HistoryOverread)) tr.

(** A run in which the history listing is never started on an empty history,
    neither by the process itself nor by a child it created. *)
Definition no_overread {A : Type} (r : result A) : Prop :=
  (forall s, r <> Crash HistoryOverread s) /\
  no_child_overread (trace (final_state r)).

(** The history holds an entry, and so far no listing went past it. *)
Definition history_ready (st : shell) : Prop :=
  history_da st <> [] /\ no_child_overread (trace st).

(** Code that, started with a history entry, keeps one and never lists past
    the history. *)
Definition keeps_ready {A : Type} (m : M A) : Prop :=
  forall st, history_ready st ->
             match m st with
             | Ret _ s => history_ready s
             | Exit _ s => history_ready s
             | Crash f s => f <> HistoryOverread /\ history_ready s
             end.

(** Code that ends the process, if it does, with the return code of that
    moment as exit code. *)
Definition exits_with_rc {A : Type} (m : M A) : Prop :=
  forall st, match m st with
             | Exit code s => code = rc s
             | _ => True
             end.

End Spec.

(** ** Inputs of the concrete runs *)

Module Runs.

Import Cstr Wsh.

(** The bound used in the concrete runs.  The theorems below hold for
    every bound. *)
Definition bound : nat := 128.

(** A line of [n] one-letter words, each followed by a space. *)
Definition words (n : nat) : cstring := concat (repeat (cs "a ") n).

(** One more word than the argument array has room for. *)
Definition too_many_words (MAX_ARGS : nat) : cstring :=
  words (S MAX_ARGS) ++ [NEWLINE].

(** A system in which the executables are those of [files], every [pipe],
    [fork] and [execv] succeeds (the pid grows with the number of calls made
    so far) and every child exits with [status]. *)
Definition os_with (files : list cstring) (status : Z) (input : list cstring)
  : os :=
  mkOs (fun _ path => existsb (streq path) files)
       (fun _ _ _ => true)
       (fun tr => Some (3 + 2 * Z.of_nat (length tr), 4 + 2 * Z.of_nat (length tr))%Z)
       (fun tr => Some (100 + Z.of_nat (length tr))%Z)
       (fun _ _ => WaitExited status)
       (fun _ _ _ => true)
       (fun _ _ => true)
       None
       input
       (fun file => if streq file (cs "script.wsh") then Some input else None).

(** [/bin/false] exists and exits with 1; the input is the one line
    [false]. *)
Definition os_false : os :=
  os_with [cs "/bin/false"] 1 [cs "false" ++ [NEWLINE]].

(** An executable [.x] in the working directory and none of that name in the
    search path. *)
Definition os_dot : os := os_with [cs ".x"; cs "/bin/ls"] 0 [].

(** [/bin/echo] and [/bin/ls] exist; every child exits with 0. *)
Definition os_echo : os := os_with [cs "/bin/echo"; cs "/bin/ls"] 0 [].

(** [n] segments [ls], each followed by a pipe character. *)
Definition pipes (n : nat) : cstring := concat (repeat (cs "ls|") n).

(** [bound] segments [ls] and, after the last pipe, only the newline. *)
Definition long_pipeline : cstring := pipes bound ++ [NEWLINE].

(** A system whose first [fork] succeeds and whose later ones fail. *)
Definition os_fork_once : os :=
  mkOs (fun _ path => existsb (streq path) [cs "/bin/ls"; cs "/bin/cat"])
       (fun _ _ _ => true)
       (fun tr => Some (3, 4)%Z)
       (fun tr => match Spec.spawned tr with [] => Some 100%Z | _ => None end)
       (fun _ _ => WaitExited 0)
       (fun _ _ _ => true)
       (fun _ _ => true)
       None
       []
       (fun _ => None).

(** A system in which the child with pid [last] exits with status 3 and
    every other child with status 0. *)
Definition os_last_three (last : Z) : os :=
  mkOs (fun _ path => existsb (streq path) [cs "/bin/ls"; cs "/bin/cat"])
       (fun _ _ _ => true)
       (fun tr => Some (3, 4)%Z)
       (fun tr => Some (100 + Z.of_nat (length (Spec.spawned tr)))%Z)
       (fun _ pid => if (pid =? last)%Z then WaitExited 3 else WaitExited 0)
       (fun _ _ _ => true)
       (fun _ _ => true)
       None
       []
       (fun _ => None).

End Runs.


(** ** Words of the further properties *)

Module Props.

Import Cstr Wsh.

(** The words of a line: the maximal runs of characters other than the
    space, as [strtok(line, " ")] yields them, the newline that ends the
    line left off. *)
Definition words_of (line : cstring) : list cstring :=
  strtok_all (chomp line) SPACE.

(** Each text enclosed in single quotes and followed by a number of
    spaces. *)
Definition quoted (items : list (cstring * nat)) : cstring :=
  flat_map (fun it => QUOTE :: fst it ++ QUOTE :: repeat SPACE (snd it)) items.

Definition quote_free (a : cstring) : bool := negb (contains a QUOTE).

(** A space or a tab. *)
Definition blank_char (c : ascii) : bool := Ascii.eqb c SPACE || Ascii.eqb c TAB.

(** A line that holds a character other than spaces and tabs before the
    newline that ends it. *)
Definition has_text (line : cstring) : bool :=
  negb (forallb blank_char (chomp line)).

(** Code that relates the state it starts in to the state it ends in by
    [R], whatever the outcome, that performs an undefined operation only when
    it is one of [okf], and that ends the process only when [exit_ok]. *)
Definition respects (okf : fault -> Prop) (exit_ok : Prop)
           (R : shell -> shell -> Prop) {A : Type} (m : M A) : Prop :=
  forall st, match m st with
             | Ret _ s => R st s
             | Exit _ s => exit_ok /\ R st s
             | Crash f s => okf f /\ R st s
             end.

(** The texts between the occurrences of [sep] in [s], empty ones
    included.  [cur] is the text being read. *)
Fixpoint fields_from (sep : ascii) (cur s : cstring) : list cstring :=
  match s with
  | [] => [cur]
  | c :: s' =>
      if Ascii.eqb c sep then cur :: fields_from sep [] s'
      else fields_from sep (cur ++ [c]) s'
  end.

Definition fields (sep : ascii) (s : cstring) : list cstring :=
  fields_from sep [] s.

Definition nonempty (s : cstring) : bool :=
  match s with [] => false | _ :: _ => true end.

(** The directories of a search path: its components between colons, the
    empty ones left out. *)
Definition path_dirs (p : cstring) : list cstring :=
  filter nonempty (fields COLON p).

(** A word made of characters other than the space, the single quote and
    the newline. *)
Definition ordinary (c : ascii) : bool :=
  negb (Ascii.eqb c SPACE || Ascii.eqb c QUOTE || Ascii.eqb c NEWLINE).

Definition simple_word (w : cstring) : bool := nonempty w && forallb ordinary w.

(** The texts of [l] with [sep] between them. *)
Fixpoint joined (sep : ascii) (l : list cstring) : cstring :=
  match l with
  | [] => []
  | [a] => a
  | a :: rest => a ++ sep :: joined sep rest
  end.

(** What pre-validation makes of a segment: the segment itself, or, when its
    first token is an alias, the text of the alias followed by the other
    tokens. *)
Definition expansion_of (MAX_ARGS : nat) (st : shell) (seg : cstring) : cstring :=
  match tokenize MAX_ARGS seg with
  | Tokens (c :: args) =>
      match HashMap.hm_get (alias_hm st) c with
      | Some alias_cmd => alias_subst alias_cmd (c :: args)
      | None => seg
      end
  | _ => seg
  end.

(** The first token of the segment names a builtin or a file that the
    resolver finds. *)
Definition runnable (MAX_ARGS : nat) (sys : os) (st : shell) (seg : cstring)
  : bool :=
  match tokenize MAX_ARGS seg with
  | Tokens (c :: _) =>
      match lookup_builtin builtins c, find_executable_path sys st c with
      | None, None => false
      | _, _ => true
      end
  | _ => false
  end.

(** The state after the history step of the dispatcher on [line]. *)
Definition recorded (line : cstring) (st : shell) : shell :=
  if has_text line
  then set_history_da (DynamicArray.da_put (history_da st) line) st
  else st.

(** The directories the process asked to change to, in the order of the
    calls. *)
Definition chdirs (tr : list event) : list cstring :=
  flat_map (fun e => match e with EvChdir d _ => [d] | _ => [] end) tr.

(** The descriptors of the pipes created, each read end before its write
    end, and the descriptors closed, in the order of the calls. *)
Definition opened (tr : list event) : list Z :=
  flat_map (fun e => match e with EvPipe (Some (r, w)) => [r; w] | _ => [] end) tr.

Definition closed (tr : list event) : list Z :=
  flat_map (fun e => match e with EvClose fd => [fd] | _ => [] end) tr.

(** The descriptor that [prev_pipe_read_fd] stands for, when it is one of a
    pipe. *)
Definition held (fd : Z) : list Z :=
  if (fd =? STDIN_FILENO)%Z then [] else [fd].

(** The undefined operations that ended children of the trace. *)
Definition child_faults (tr : list event) : list fault :=
  flat_map (fun e => match e with EvFork _ (CCrash f) => [f] | _ => [] end) tr.

(** The undefined operations other than a failed assertion and a load of an
    array element that was never stored. *)
Definition expected (f : fault) : bool :=
  match f with
  | AssertFailed | BadRead => false
  | _ => true
  end.

End Props.

(** ** The array of [dynamic_array.c] in memory

    The struct with its three fields; [size] and [capacity] are [size_t]
    values (64 bits, wrapping), [data] is the block that [malloc] and
    [realloc] returned, one slot for each pointer it has room for.  The
    strings themselves are values; [da_free], which only releases memory, has
    no counterpart.  Requests of a positive number of bytes are assumed to
    succeed. *)

Module ArrayMem.

(** [size_t] arithmetic *)
Definition size_t (x : Z) : Z := (x mod 2 ^ 64)%Z.

(** [sizeof(char * )] *)
Definition PTR_BYTES : Z := 8.

Definition INIT_CAPACITY : Z := 16.

(** A slot of the block: the string it points to, or nothing when no
    pointer was stored in it yet. *)
Definition slot : Type := option cstring.

Record DynamicArray : Type := mkDa {
  data : list slot;
  size : Z;
  capacity : Z
}.

Inductive outcome (A : Type) : Type :=
| Done (a : A)
| ErrorExit      (* da_error_exit: a diagnostic and clean_exit(EXIT_FAILURE) *)
| Undefined.     (* an access outside the block, or the use of a slot
                    without a string *)
Arguments Done {A} a.
Arguments ErrorExit {A}.
Arguments Undefined {A}.

(** [malloc(bytes)]: a fresh block with room for [bytes / 8] pointers;
    [None] is the NULL result.  A request of zero bytes is answered as the
    GNU C library answers it, by a block without room for a pointer. *)
Definition malloc (bytes : Z) : option (list slot) :=
  Some (repeat None (Z.to_nat (bytes / PTR_BYTES))).

(** [realloc(old, bytes)]: the slots of [old] that fit, then fresh ones.  A
    request of zero bytes is answered as the GNU C library answers it: [old]
    is released and the result is NULL. *)
Definition realloc (old : list slot) (bytes : Z) : option (list slot) :=
  if (bytes =? 0)%Z then None
  else let n := Z.to_nat (bytes / PTR_BYTES) in
       Some (firstn n old ++ repeat None (n - length old)).

(** [block[i]] as an rvalue and [block[i] = v]. *)
Definition load (block : list slot) (i : Z) : option slot :=
  if (i <? 0)%Z then None else nth_error block (Z.to_nat i).

Definition store (block : list slot) (i : Z) (v : slot) : option (list slot) :=
  if ((0 <=? i) && (i <? Z.of_nat (length block)))%Z
  then Some (firstn (Z.to_nat i) block ++ v :: skipn (S (Z.to_nat i)) block)
  else None.

Definition da_resize (da : DynamicArray) : outcome DynamicArray :=
  let new_capacity := size_t (capacity da * 2) in
  if (new_capacity <? capacity da)%Z then ErrorExit
  else match realloc (data da) (size_t (new_capacity * PTR_BYTES)) with
       | Some new_data => Done (mkDa new_data (size da) new_capacity)
       | None => ErrorExit
       end.

Definition da_create (init_capacity : Z) : outcome DynamicArray :=
  let init_capacity :=
    if (init_capacity =? 0)%Z then INIT_CAPACITY else init_capacity in
  match malloc (size_t (init_capacity * PTR_BYTES)) with
  | Some block => Done (mkDa block 0 init_capacity)
  | None => ErrorExit
  end.

Definition da_put (da : DynamicArray) (val : cstring) : outcome DynamicArray :=
  match (if (capacity da <=? size da)%Z then da_resize da else Done da) with
  | Done da =>
      match store (data da) (size da) (Some val) with
      | Some block => Done (mkDa block (size_t (size da + 1)) (capacity da))
      | None => Undefined
      end
  | ErrorExit => ErrorExit
  | Undefined => Undefined
  end.

(** [da_get]: [Done None] is the NULL result. *)
Definition da_get (da : DynamicArray) (ind : Z) : outcome (option cstring) :=
  if (size da <=? ind)%Z then Done None
  else match load (data da) ind with
       | Some (Some s) => Done (Some s)
       | _ => Undefined
       end.

(** The loop [for (i = ind; i < da->size - 1; i++) data[i] = data[i + 1];]
    with [n] turns left. *)
Fixpoint shift (n : nat) (i : Z) (block : list slot) : option (list slot) :=
  match n with
  | O => Some block
  | S n' =>
      match load block (i + 1) with
      | Some v =>
          match store block i v with
          | Some block' => shift n' (i + 1) block'
          | None => None
          end
      | None => None
      end
  end.

Definition da_delete (da : DynamicArray) (ind : Z) : outcome DynamicArray :=
  if (size da <=? ind)%Z then Done da
  else match load (data da) ind with           (* free(da->data[ind]) *)
       | Some (Some _) =>
           let bound := size_t (size da - 1) in
           match shift (Z.to_nat (bound - ind)) ind (data da) with
           | Some block => Done (mkDa block bound (capacity da))
           | None => Undefined
           end
       | _ => Undefined
       end.

(** The loop [for (i = 0; i < da->size-1; i++) fprintf(stdout, "%s",
    data[i]);] with [n] turns left: the strings printed. *)
Fixpoint print_loop (n : nat) (i : Z) (block : list slot)
  : option (list cstring) :=
  match n with
  | O => Some []
  | S n' =>
      match load block i with
      | Some (Some s) =>
          match print_loop n' (i + 1) block with
          | Some rest => Some (s :: rest)
          | None => None
          end
      | _ => None
      end
  end.

Definition da_print (da : DynamicArray) : outcome (list cstring) :=
  match print_loop (Z.to_nat (size_t (size da - 1))) 0 (data da) with
  | Some lines => Done lines
  | None => Undefined
  end.

(** The array holds the strings of [l], in their order, in a block of
    [capacity] slots whose byte count fits [size_t]. *)
Definition holds (da : DynamicArray) (l : list cstring) : Prop :=
  size da = Z.of_nat (length l) /\
  firstn (length l) (data da) = map Some l /\
  Z.of_nat (length (data da)) = capacity da /\
  (0 < capacity da)%Z /\
  (capacity da * PTR_BYTES < 2 ^ 64)%Z.

(** [da_put] for each string of [vals] in turn. *)
Fixpoint put_all (da : DynamicArray) (vals : list cstring)
  : outcome DynamicArray :=
  match vals with
  | [] => Done da
  | v :: rest =>
      match da_put da v with
      | Done da' => put_all da' rest
      | ErrorExit => ErrorExit
      | Undefined => Undefined
      end
  end.

End ArrayMem.

(** ** Inputs of the further concrete runs *)

Module Inputs.

Import Cstr Wsh Runs.

(** A script of two lines, an unknown command and an empty line, on a
    system without executables. *)
Definition os_script : os :=
  os_with [] 0 [cs "nosuch" ++ [NEWLINE]; [NEWLINE]].

End Inputs.
(** ** Strings: basic facts *)

Module CstrFacts.

Import Cstr.

Lemma streq_refl (a : cstring) : streq a a = true.
Proof.
  induction a as [|x a IH]; simpl; [reflexivity|].
  now rewrite Ascii.eqb_refl, IH.
Qed.

Lemma streq_eq (a b : cstring) : streq a b = true <-> a = b.
Proof.
  split.
  - revert b; induction a as [|x a IH]; intros [|y b] H; simpl in H;
      try discriminate; [reflexivity|].
    apply andb_true_iff in H as [Hx Hr].
    apply Ascii.eqb_eq in Hx. apply IH in Hr. now subst.
  - intros ->. apply streq_refl.
Qed.

Lemma streq_neq (a b : cstring) : streq a b = false <-> a <> b.
Proof.
  split.
  - intros H E. apply streq_eq in E. congruence.
  - intros H. destruct (streq a b) eqn:E; [|reflexivity].
    apply streq_eq in E. contradiction.
Qed.

Lemma strchr_none (s : cstring) (c : ascii) :
  strchr s c = None <-> ~ In c s.
Proof.
  induction s as [|x s IH]; simpl.
  - tauto.
  - destruct (Ascii.eqb x c) eqn:E.
    + apply Ascii.eqb_eq in E. split; [discriminate|]. intros H. exfalso. auto.
    + apply Ascii.eqb_neq in E.
      destruct (strchr s c) as [[a b]|].
      * split; [discriminate|]. intros H. exfalso.
        assert (Hs : ~ In c s) by (intros H2; apply H; now right).
        apply IH in Hs. discriminate.
      * split; [|reflexivity]. intros _ H. destruct H as [H|H]; [congruence|].
        now apply (proj1 IH).
Qed.

Lemma strchr_some (s : cstring) (c : ascii) (a b : cstring) :
  strchr s c = Some (a, b) -> s = a ++ c :: b /\ ~ In c a.
Proof.
  revert a b; induction s as [|x s IH]; simpl; intros a b H; [discriminate|].
  destruct (Ascii.eqb x c) eqn:E.
  - apply Ascii.eqb_eq in E. inversion H; subst. simpl. auto.
  - apply Ascii.eqb_neq in E.
    destruct (strchr s c) as [[a' b']|]; [|discriminate].
    inversion H; subst. destruct (IH a' b eq_refl) as [-> Hn].
    split; [reflexivity|]. intros [H1|H1]; auto.
Qed.

Lemma strchr_first (a b : cstring) (c : ascii) :
  ~ In c a -> strchr (a ++ c :: b) c = Some (a, b).
Proof.
  induction a as [|x a IH]; simpl; intros H.
  - now rewrite Ascii.eqb_refl.
  - destruct (Ascii.eqb x c) eqn:E.
    + apply Ascii.eqb_eq in E. exfalso. auto.
    + rewrite IH; auto.
Qed.

(** [strchr] on a concatenation looks in the first part first. *)
Lemma strchr_app (a b : cstring) (c : ascii) :
  strchr (a ++ b) c =
  match strchr a c with
  | Some (t, r) => Some (t, r ++ b)
  | None => match strchr b c with
            | Some (t, r) => Some (a ++ t, r)
            | None => None
            end
  end.
Proof.
  induction a as [|x a IH]; simpl.
  - destruct (strchr b c) as [[t r]|]; reflexivity.
  - destruct (Ascii.eqb x c); [reflexivity|].
    rewrite IH. destruct (strchr a c) as [[t r]|]; [reflexivity|].
    destruct (strchr b c) as [[t r]|]; reflexivity.
Qed.

Lemma strchr_length (s : cstring) (c : ascii) (a b : cstring) :
  strchr s c = Some (a, b) -> length b < length s.
Proof.
  intros H. apply strchr_some in H as [-> _].
  rewrite length_app. simpl. lia.
Qed.

Lemma skip_length (c : ascii) (s : cstring) : length (skip c s) <= length s.
Proof.
  induction s as [|x s IH]; simpl; [lia|].
  destruct (Ascii.eqb x c); simpl; lia.
Qed.

(** [skip] returns a suffix that does not start with the skipped
    character. *)
Lemma skip_suffix (c : ascii) (s : cstring) :
  exists a, s = a ++ skip c s /\ Forall (fun x => x = c) a.
Proof.
  induction s as [|x s [a [Ha Hf]]]; simpl.
  - exists []. auto.
  - destruct (Ascii.eqb x c) eqn:E.
    + apply Ascii.eqb_eq in E. exists (x :: a). simpl. split; [congruence|].
      constructor; auto.
    + exists []. auto.
Qed.

Lemma skip_head (c : ascii) (s : cstring) (x : ascii) (r : cstring) :
  skip c s = x :: r -> x <> c.
Proof.
  induction s as [|y s IH]; simpl; [discriminate|].
  destruct (Ascii.eqb y c) eqn:E; [exact IH|].
  intros H. inversion H; subst. now apply Ascii.eqb_neq.
Qed.

Lemma skip_app (c : ascii) (a b : cstring) :
  skip c (a ++ b) =
  match skip c a with
  | [] => skip c b
  | r => r ++ b
  end.
Proof.
  induction a as [|x a IH]; simpl; [reflexivity|].
  destruct (Ascii.eqb x c); [exact IH|reflexivity].
Qed.

Lemma skip_fresh (c x : ascii) (s : cstring) :
  x <> c -> skip c (x :: s) = x :: s.
Proof.
  intros H. simpl. apply Ascii.eqb_neq in H. now rewrite H.
Qed.

Lemma skip_all (c : ascii) (s : cstring) :
  skip c s = [] <-> Forall (fun x => x = c) s.
Proof.
  induction s as [|x s IH]; simpl.
  - split; auto.
  - destruct (Ascii.eqb x c) eqn:E.
    + apply Ascii.eqb_eq in E. rewrite IH. split; intros H.
      * constructor; auto.
      * now inversion H.
    + apply Ascii.eqb_neq in E. split; [discriminate|].
      intros H. inversion H; subst. contradiction.
Qed.

End CstrFacts.

(** ** The tokenizer *)

Module TokenizerFacts.

Import Cstr CstrFacts Wsh Runs.

Lemma line_buffer_newline (l : cstring) :
  line_buffer (l ++ [NEWLINE]) = l ++ [SPACE].
Proof.
  unfold line_buffer. rewrite rev_unit, Ascii.eqb_refl.
  now rewrite rev_involutive.
Qed.

Lemma line_buffer_cases (l : cstring) :
  line_buffer l = l ++ [SPACE] \/
  exists l', l = l' ++ [NEWLINE] /\ line_buffer l = l' ++ [SPACE].
Proof.
  destruct (rev l) as [|c r] eqn:E.
  - left. unfold line_buffer. rewrite E.
    apply (f_equal (@rev ascii)) in E. rewrite rev_involutive in E. now subst.
  - unfold line_buffer. rewrite E. destruct (Ascii.eqb c NEWLINE) eqn:Ec.
    + right. exists (rev r). split; [|reflexivity].
      apply Ascii.eqb_eq in Ec. subst c.
      apply (f_equal (@rev ascii)) in E. now rewrite rev_involutive in E.
    + now left.
Qed.

(** The buffer of a line that does not end in a newline. *)
Lemma line_buffer_plain (l : cstring) (c : ascii) :
  c <> NEWLINE -> line_buffer (l ++ [c]) = l ++ [c; SPACE].
Proof.
  intros H. unfold line_buffer. rewrite rev_unit.
  apply Ascii.eqb_neq in H. rewrite H. now rewrite <- app_assoc.
Qed.

Lemma line_buffer_app (a s : cstring) :
  s <> [] -> line_buffer (a ++ s) = a ++ line_buffer s.
Proof.
  intros H. destruct (exists_last H) as [s' [x ->]].
  rewrite app_assoc.
  destruct (Ascii.eqb x NEWLINE) eqn:E.
  - apply Ascii.eqb_eq in E. subst x.
    rewrite !line_buffer_newline. now rewrite app_assoc.
  - apply Ascii.eqb_neq in E.
    rewrite !line_buffer_plain by assumption. now rewrite app_assoc.
Qed.

Lemma line_buffer_In (l : cstring) (x : ascii) :
  In x (line_buffer l) -> In x l \/ x = SPACE.
Proof.
  destruct (line_buffer_cases l) as [E|[l' [E1 E2]]].
  - rewrite E. intros H. apply in_app_or in H as [H|[H|[]]]; auto.
  - rewrite E2. intros H. apply in_app_or in H as [H|[H|[]]]; auto.
    left. subst l. apply in_or_app. auto.
Qed.

Section Bound.

Variable MAX_ARGS : nat.

Lemma parse_loop_S (f : nat) (argv : list cstring) (p : cstring) :
  parse_loop MAX_ARGS (S f) argv p =
  match p with
  | [] => Some (finish MAX_ARGS argv)
  | c :: p' =>
      let found :=
        if Ascii.eqb c QUOTE
        then match strchr p' QUOTE with
             | None => inl MissingQuote
             | Some (tok, rest) => inr (tok, rest)
             end
        else match strchr p SPACE with
             | None => inl (finish MAX_ARGS argv)
             | Some (tok, rest) => inr (tok, rest)
             end in
      match found with
      | inl r => Some r
      | inr (tok, rest) =>
          if (length argv <=? MAX_ARGS)%nat
          then parse_loop MAX_ARGS f (argv ++ [tok]) (skip SPACE rest)
          else Some Overflow
      end
  end.
Proof. destruct p; reflexivity. Qed.

(** Any fuel above the length of the text gives the same result. *)
Lemma parse_loop_fuel (f1 f2 : nat) (argv : list cstring) (p : cstring) :
  length p < f1 -> length p < f2 ->
  parse_loop MAX_ARGS f1 argv p = parse_loop MAX_ARGS f2 argv p.
Proof.
  revert f2 argv p. induction f1 as [|f1 IH]; intros f2 argv p H1 H2; [lia|].
  destruct f2 as [|f2]; [lia|].
  rewrite !parse_loop_S. destruct p as [|c p']; [reflexivity|].
  cbv zeta.
  destruct (Ascii.eqb c QUOTE).
  - destruct (strchr p' QUOTE) as [[tok rest]|] eqn:E; [|reflexivity].
    destruct (length argv <=? MAX_ARGS)%nat; [|reflexivity].
    apply strchr_length in E. pose proof (skip_length SPACE rest).
    simpl in H1, H2. apply IH; lia.
  - destruct (strchr (c :: p') SPACE) as [[tok rest]|] eqn:E; [|reflexivity].
    destruct (length argv <=? MAX_ARGS)%nat; [|reflexivity].
    apply strchr_length in E. pose proof (skip_length SPACE rest).
    apply IH; lia.
Qed.

(** The loop ends: the fuel given by [tokenize] is never used up. *)
Lemma parse_loop_total (f : nat) (argv : list cstring) (p : cstring) :
  length p < f -> exists r, parse_loop MAX_ARGS f argv p = Some r.
Proof.
  revert argv p. induction f as [|f IH]; intros argv p H; [lia|].
  rewrite parse_loop_S. destruct p as [|c p']; [eauto|].
  cbv zeta.
  destruct (Ascii.eqb c QUOTE).
  - destruct (strchr p' QUOTE) as [[tok rest]|] eqn:E; [|eauto].
    destruct (length argv <=? MAX_ARGS)%nat; [|eauto].
    apply strchr_length in E. pose proof (skip_length SPACE rest).
    simpl in H. apply IH; lia.
  - destruct (strchr (c :: p') SPACE) as [[tok rest]|] eqn:E; [|eauto].
    destruct (length argv <=? MAX_ARGS)%nat; [|eauto].
    apply strchr_length in E. pose proof (skip_length SPACE rest).
    apply IH; lia.
Qed.

Lemma tokenize_eq (cmdline : cstring) :
  parse_loop MAX_ARGS (S (length (line_buffer cmdline))) []
             (skip SPACE (line_buffer cmdline)) = Some (tokenize MAX_ARGS cmdline).
Proof.
  unfold tokenize.
  destruct (parse_loop_total (S (length (line_buffer cmdline))) []
              (skip SPACE (line_buffer cmdline))) as [r Hr].
  - pose proof (skip_length SPACE (line_buffer cmdline)). lia.
  - now rewrite Hr.
Qed.

Lemma finish_tokens (argv argv' : list cstring) :
  finish MAX_ARGS argv = Tokens argv' -> argv' = argv /\ length argv <= MAX_ARGS.
Proof.
  unfold finish. destruct (length argv <=? MAX_ARGS)%nat eqn:E; [|discriminate].
  intros H. injection H as <-. apply Nat.leb_le in E. split; [reflexivity|exact E].
Qed.

Lemma parse_loop_bound (f : nat) (argv : list cstring) (p : cstring)
      (out : list cstring) :
  parse_loop MAX_ARGS f argv p = Some (Tokens out) -> length out <= MAX_ARGS.
Proof.
  revert argv p. induction f as [|f IH]; intros argv p; [discriminate|].
  rewrite parse_loop_S. destruct p as [|c p'].
  - intros H. inversion H as [H1]. apply finish_tokens in H1 as [-> ?]. lia.
  - cbv zeta. destruct (Ascii.eqb c QUOTE).
    + destruct (strchr p' QUOTE) as [[tok rest]|]; [|discriminate].
      destruct (length argv <=? MAX_ARGS)%nat; [apply IH|discriminate].
    + destruct (strchr (c :: p') SPACE) as [[tok rest]|].
      * destruct (length argv <=? MAX_ARGS)%nat; [apply IH|discriminate].
      * intros H. inversion H as [H1]. apply finish_tokens in H1 as [-> ?]. lia.
Qed.

(** When the tokenizer returns an argument vector, its count is within
    the bound. *)
Lemma tokenize_count (cmdline : cstring) (argv : list cstring) :
  tokenize MAX_ARGS cmdline = Tokens argv -> length argv <= MAX_ARGS.
Proof.
  intros H. pose proof (tokenize_eq cmdline) as E. rewrite H in E.
  now apply parse_loop_bound in E.
Qed.

Lemma words_S (k : nat) : words (S k) = "a"%char :: SPACE :: words k.
Proof. reflexivity. Qed.

Lemma words_length (k : nat) : length (words k) = 2 * k.
Proof. induction k as [|k IH]; [reflexivity|]. rewrite words_S. simpl. lia. Qed.

Lemma parse_words (k f : nat) (argv : list cstring) :
  2 * k + 1 < f ->
  parse_loop MAX_ARGS f argv (skip SPACE (words k ++ [SPACE])) =
  Some (if (length argv + k <=? MAX_ARGS)%nat
        then Tokens (argv ++ repeat (cs "a") k) else Overflow).
Proof.
  revert f argv. induction k as [|k IH]; intros f argv H.
  - destruct f as [|f]; [lia|]. simpl. unfold finish.
    rewrite Nat.add_0_r, app_nil_r. reflexivity.
  - destruct f as [|f]; [lia|]. rewrite words_S.
    change (("a"%char :: SPACE :: words k) ++ [SPACE])
      with ("a"%char :: SPACE :: (words k ++ [SPACE])).
    rewrite skip_fresh by discriminate.
    rewrite parse_loop_S. cbv zeta.
    change (Ascii.eqb "a"%char QUOTE) with false. cbv iota.
    change (strchr ("a"%char :: SPACE :: (words k ++ [SPACE])) SPACE)
      with (Some (["a"%char], words k ++ [SPACE])).
    cbv iota beta.
    destruct (length argv <=? MAX_ARGS)%nat eqn:E.
    + rewrite IH by lia. rewrite length_app. simpl.
      replace (length argv + 1 + k) with (length argv + S k) by lia.
      rewrite <- app_assoc. reflexivity.
    + apply Nat.leb_gt in E.
      destruct (length argv + S k <=? MAX_ARGS)%nat eqn:E2; [|reflexivity].
      apply Nat.leb_le in E2. lia.
Qed.

End Bound.

(** A line of exactly [MAX_ARGS] words fills the array, sentinel included. *)
Lemma tokenizer_at_bound (MAX_ARGS : nat) :
  tokenize MAX_ARGS (words MAX_ARGS ++ [NEWLINE]) = Tokens (repeat (cs "a") MAX_ARGS).
Proof.
  unfold tokenize. rewrite line_buffer_newline, parse_words.
  - assert (E : (length (@nil cstring) + MAX_ARGS <=? MAX_ARGS)%nat = true)
      by (apply Nat.leb_le; simpl; lia).
    rewrite E. reflexivity.
  - rewrite length_app, words_length. simpl. lia.
Qed.

(** C5 (as the code has it): the tokenizer has no check of the count against
    the bound.  On a line of [MAX_ARGS + 1] words it stores the words in
    [argv[0 .. MAX_ARGS]] and then the NULL sentinel at index
    [MAX_ARGS + 1], outside the caller's array of [MAX_ARGS + 1] entries: no
    parse error is reported, the run is undefined behaviour. *)
Theorem tokenizer_overflow (MAX_ARGS : nat) (st : shell) :
  parseline_no_subst MAX_ARGS (too_many_words MAX_ARGS) st = Crash ArgvOverflow st.
Proof.
  unfold parseline_no_subst, tokenize, too_many_words.
  rewrite line_buffer_newline.
  rewrite parse_words.
  - assert (E : (length (@nil cstring) + S MAX_ARGS <=? MAX_ARGS)%nat = false)
      by (apply Nat.leb_gt; simpl; lia).
    rewrite E. reflexivity.
  - rewrite length_app, words_length. simpl. lia.
Qed.

End TokenizerFacts.

(** ** Unterminated quotes *)

Module QuoteFacts.

Import Cstr CstrFacts Wsh Spec Runs TokenizerFacts.

Lemma boundary_cases (pre : cstring) :
  ends_at_boundary pre = true -> pre = [] \/ exists q, pre = q ++ [SPACE].
Proof.
  unfold ends_at_boundary. destruct (rev pre) as [|c r] eqn:E; intros H.
  - left. apply (f_equal (@rev ascii)) in E. now rewrite rev_involutive in E.
  - right. exists (rev r). apply Ascii.eqb_eq in H. subst c.
    apply (f_equal (@rev ascii)) in E. now rewrite rev_involutive in E.
Qed.

Lemma boundary_intro (q : cstring) : ends_at_boundary (q ++ [SPACE]) = true.
Proof. unfold ends_at_boundary. now rewrite rev_unit. Qed.

Lemma boundary_suffix (a r : cstring) :
  ends_at_boundary (a ++ r) = true -> ends_at_boundary r = true.
Proof.
  intros H. destruct r as [|x r']; [reflexivity|].
  apply boundary_cases in H as [H|[q H]].
  - destruct a; discriminate.
  - assert (Hne : x :: r' <> []) by discriminate.
    destruct (exists_last Hne) as [r0 [y E]]. rewrite E in *.
    rewrite app_assoc in H. apply app_inj_tail in H as [_ ->].
    apply boundary_intro.
Qed.

Lemma boundary_has_space (l : cstring) :
  ends_at_boundary l = true -> l <> [] -> In SPACE l.
Proof.
  intros H Hne. apply boundary_cases in H as [H|[q ->]]; [contradiction|].
  apply in_or_app. right. now left.
Qed.

Lemma boundary_buffer (pre : cstring) :
  ends_at_boundary pre = true -> line_buffer pre = pre ++ [SPACE].
Proof.
  intros H. apply boundary_cases in H as [->|[q ->]]; [reflexivity|].
  rewrite line_buffer_plain by discriminate. now rewrite <- app_assoc.
Qed.

Section Bound.

Variable MAX_ARGS : nat.

(** If the text before a quote tokenizes on its own and ends at a token
    boundary, the loop reaches the quote at the start of a token; with no
    later quote it gives up. *)
Lemma quote_after_prefix (f1 : nat) :
  forall (argv : list cstring) (pre rest : cstring) (toks : list cstring)
         (f2 : nat),
    ends_at_boundary pre = true ->
    ~ In QUOTE rest ->
    parse_loop MAX_ARGS f1 argv (skip SPACE (pre ++ [SPACE])) = Some (Tokens toks) ->
    length (pre ++ QUOTE :: rest) < f2 ->
    parse_loop MAX_ARGS f2 argv (skip SPACE (pre ++ QUOTE :: rest)) = Some MissingQuote.
Proof.
  induction f1 as [|f1 IH]; intros argv pre rest toks f2 Hb Hq H1 H2;
    [discriminate|].
  destruct f2 as [|f2]; [lia|].
  rewrite skip_app in H1 |- *.
  destruct (skip_suffix SPACE pre) as [sp [Epre _]].
  destruct (skip SPACE pre) as [|c q] eqn:Es.
  - rewrite skip_fresh by discriminate. rewrite parse_loop_S.
    cbv zeta. change (Ascii.eqb QUOTE QUOTE) with true. cbv iota.
    apply strchr_none in Hq. now rewrite Hq.
  - assert (Hc : c <> SPACE) by (eapply skip_head; eauto).
    assert (Hbq : ends_at_boundary (c :: q) = true)
      by (rewrite Epre in Hb; eapply boundary_suffix; eauto).
    assert (Hlen : length (c :: q) <= length pre)
      by (rewrite Epre, length_app; simpl; lia).
    rewrite length_app in H2. simpl in H2, Hlen.
    rewrite parse_loop_S in H1. rewrite parse_loop_S.
    simpl app in H1 |- *. cbv beta iota zeta in H1 |- *.
    destruct (Ascii.eqb c QUOTE) eqn:Ec.
    + rewrite strchr_app in H1. rewrite strchr_app.
      destruct (strchr q QUOTE) as [[t r]|] eqn:Eq.
      * destruct (length argv <=? MAX_ARGS)%nat; [|discriminate].
        pose proof (strchr_some _ _ _ _ Eq) as [Eqq _].
        apply (IH _ r rest toks); auto.
        -- apply (boundary_suffix (c :: t ++ [QUOTE])).
           rewrite Eqq in Hbq. simpl. rewrite <- app_assoc. exact Hbq.
        -- apply strchr_length in Eq. rewrite length_app. simpl. lia.
      * simpl in H1. discriminate.
    + change (c :: q ++ [SPACE]) with ((c :: q) ++ [SPACE]) in H1.
      change (c :: q ++ QUOTE :: rest) with ((c :: q) ++ QUOTE :: rest).
      rewrite strchr_app in H1. rewrite strchr_app.
      destruct (strchr (c :: q) SPACE) as [[t r]|] eqn:Eq.
      * destruct (length argv <=? MAX_ARGS)%nat; [|discriminate].
        pose proof (strchr_some _ _ _ _ Eq) as [Eqq _].
        apply (IH _ r rest toks); auto.
        -- apply (boundary_suffix (t ++ [SPACE])).
           rewrite Eqq in Hbq. rewrite <- app_assoc. exact Hbq.
        -- apply strchr_length in Eq. rewrite length_app. simpl in *. lia.
      * exfalso. apply strchr_none in Eq. apply Eq.
        apply boundary_has_space; [assumption|discriminate].
Qed.

Lemma tokenize_missing_quote (pre rest : cstring) (toks : list cstring) :
  tokenize MAX_ARGS pre = Tokens toks ->
  ends_at_boundary pre = true ->
  contains rest QUOTE = false ->
  tokenize MAX_ARGS (pre ++ QUOTE :: rest) = MissingQuote.
Proof.
  intros Ht Hb Hq.
  assert (Hn : ~ In QUOTE rest).
  { unfold contains in Hq. apply strchr_none.
    destruct (strchr rest QUOTE); [discriminate|reflexivity]. }
  pose proof (tokenize_eq MAX_ARGS pre) as E1. rewrite Ht in E1.
  rewrite (boundary_buffer pre Hb) in E1.
  pose proof (tokenize_eq MAX_ARGS (pre ++ QUOTE :: rest)) as E2.
  rewrite line_buffer_app in E2 by discriminate.
  assert (Hbuf : exists rest2, line_buffer (QUOTE :: rest) = QUOTE :: rest2 /\
                               ~ In QUOTE rest2).
  { destruct (line_buffer_cases (QUOTE :: rest)) as [E|[l' [El Eb]]].
    - exists (rest ++ [SPACE]). split; [exact E|].
      intros H. apply in_app_or in H as [H|[H|[]]]; [auto|discriminate].
    - destruct l' as [|x l']; [discriminate|].
      simpl in El. injection El as <- El. exists (l' ++ [SPACE]). split; [exact Eb|].
      intros H. apply in_app_or in H as [H|[H|[]]]; [|discriminate].
      apply Hn. rewrite El. apply in_or_app. now left. }
  destruct Hbuf as [rest2 [Eb Hn2]]. rewrite Eb in E2.
  pose proof (quote_after_prefix _ [] pre rest2 toks
                (S (length (pre ++ QUOTE :: rest2))) Hb Hn2 E1
                (Nat.lt_succ_diag_r _)) as E3.
  rewrite E3 in E2. now injection E2.
Qed.

End Bound.

(** C7 (amended): when the text before a single quote tokenizes on its own
    and ends at a token boundary (so the quote begins a token) and no single
    quote follows, the parse is abandoned: the diagnostic is written, the
    return code is set to failure and the argument vector has count 0. *)
Theorem missing_quote_aborts (MAX_ARGS : nat) (pre rest : cstring)
        (toks : list cstring) (st : shell) :
  tokenize MAX_ARGS pre = Tokens toks ->
  ends_at_boundary pre = true ->
  contains rest QUOTE = false ->
  parseline_no_subst MAX_ARGS (pre ++ QUOTE :: rest) st =
  Ret [] (set_rc EXIT_FAILURE (add_err (Msg MISSING_CLOSING_QUOTE []) st)).
Proof.
  intros Ht Hb Hq. unfold parseline_no_subst.
  now rewrite (tokenize_missing_quote MAX_ARGS pre rest toks Ht Hb Hq).
Qed.

(** The spec's example [echo 'abc]. *)
Lemma missing_quote_aborts_witness :
  parseline_no_subst bound (cs "echo 'abc") boot =
  Ret [] (set_rc EXIT_FAILURE (add_err (Msg MISSING_CLOSING_QUOTE []) boot)).
Proof.
  apply (missing_quote_aborts bound (cs "echo ") (cs "abc") [cs "echo"]);
    reflexivity.
Defined.

(** C7 (as stated) fails: the line [echo don't] contains one single quote and
    no closing quote, yet it tokenizes into two arguments and nothing is
    reported, because the quote does not begin a token. *)
Lemma unmatched_quote_inside_word :
  count_occ ascii_dec (cs "echo don't") QUOTE = 1 /\
  parseline_no_subst bound (cs "echo don't") boot =
  Ret [cs "echo"; cs "don't"] boot.
Proof. split; reflexivity. Qed.

End QuoteFacts.

(** ** The builtins *)

Module BuiltinFacts.

Import Cstr CstrFacts Wsh Spec Runs.

(** C9 (as the code has it): with a count of 2 the test
    [argc > 4 || strcmp(argv[2], "=") != 0] passes the NULL sentinel
    [argv[2]] to [strcmp]: no usage error is reported, the NULL pointer is
    read as a string. *)
Theorem alias_two_args_null_deref (a0 a1 : cstring) (st : shell) :
  wsh_alias [a0; a1] st = Crash NullDeref st.
Proof. reflexivity. Qed.

(** The same through the dispatcher, for the line [alias x]. *)
Lemma alias_name_line_crashes (n : nat) (sys : os) :
  exists st, execute_command (S (S n)) sys (cs "alias x" ++ [NEWLINE]) started =
             Crash NullDeref st.
Proof. eexists. reflexivity. Qed.

End BuiltinFacts.

(** ** The path resolver *)

Module PathFacts.

Import Cstr CstrFacts Wsh Spec Runs.

Lemma is_path_name_spec (name : cstring) :
  is_path_name name = true <->
  (exists r, name = SLASH :: r) \/ (exists r, name = DOT :: SLASH :: r).
Proof.
  split.
  - destruct name as [|c0 rest]; simpl; [discriminate|].
    intros H. apply orb_true_iff in H as [H|H].
    + apply Ascii.eqb_eq in H. subst. left. eauto.
    + apply andb_true_iff in H as [H0 H1]. apply Ascii.eqb_eq in H0. subst.
      destruct rest as [|c1 rest]; [discriminate|].
      apply Ascii.eqb_eq in H1. subst. right. eauto.
  - intros [[r ->]|[r ->]]; reflexivity.
Qed.

Section Sys.

Variable sys : os.

(** A name that starts with [/] or [./] is checked directly, and only such a
    name. *)
Lemma resolve_direct (st : shell) (name : cstring) :
  is_path_name name = true ->
  find_executable_path sys st name =
  if os_access sys (trace st) name then Some name else None.
Proof. intros H. unfold find_executable_path. now rewrite H. Qed.

Lemma resolve_search (st : shell) (name : cstring) :
  is_path_name name = false ->
  find_executable_path sys st name =
  match path_env st with
  | None => None
  | Some [] => None
  | Some p => search_dirs sys (trace st) (strtok_all p COLON) name
  end.
Proof.
  intros H. unfold find_executable_path. rewrite H.
  destruct (path_env st) as [[|c p]|]; reflexivity.
Qed.

(** The first directory whose candidate is executable wins. *)
Lemma search_dirs_first (tr : list event) (l1 l2 : list cstring)
      (d name : cstring) :
  (forall d', In d' l1 -> os_access sys tr (d' ++ SLASH :: name) = false) ->
  os_access sys tr (d ++ SLASH :: name) = true ->
  search_dirs sys tr (l1 ++ d :: l2) name = Some (d ++ SLASH :: name).
Proof.
  induction l1 as [|d0 l1 IH]; simpl; intros Hn Hd.
  - now rewrite Hd.
  - rewrite (Hn d0) by now left. apply IH; auto.
Qed.

Lemma search_dirs_none (tr : list event) (dirs : list cstring) (name : cstring) :
  (forall d, In d dirs -> os_access sys tr (d ++ SLASH :: name) = false) ->
  search_dirs sys tr dirs name = None.
Proof.
  induction dirs as [|d dirs IH]; simpl; intros Hn; [reflexivity|].
  rewrite (Hn d) by now left. apply IH. auto.
Qed.

(** [wsh_which] resolves like the path resolver whenever its own test for a
    path name agrees with the resolver's. *)
Lemma which_agrees (st : shell) (name : cstring) :
  which_is_path_name name = is_path_name name ->
  which_path sys st name = find_executable_path sys st name.
Proof.
  intros H. unfold which_path, find_executable_path. rewrite H.
  destruct (is_path_name name); [reflexivity|].
  destruct (path_env st) as [[|c p]|]; reflexivity.
Qed.

End Sys.

Lemma strtok_from_run (delim : ascii) (d : cstring) :
  forall cur rest,
    ~ In delim d ->
    strtok_from delim cur (d ++ rest) = strtok_from delim (cur ++ d) rest.
Proof.
  induction d as [|x d IH]; intros cur rest H; simpl.
  - now rewrite app_nil_r.
  - destruct (Ascii.eqb x delim) eqn:E.
    + apply Ascii.eqb_eq in E. exfalso. apply H. now left.
    + rewrite IH by (intros Hd; apply H; now right).
      now rewrite <- app_assoc.
Qed.

(** A search path made of non-empty directory names, each followed by a
    colon, is split into these names, in order. *)
Lemma strtok_all_dirs (dirs : list cstring) :
  Forall (fun d => d <> [] /\ ~ In COLON d) dirs ->
  strtok_all (flat_map (fun d => d ++ [COLON]) dirs) COLON = dirs.
Proof.
  unfold strtok_all. induction 1 as [|d dirs [Hne Hd] _ IH]; [reflexivity|].
  simpl flat_map. rewrite <- app_assoc. rewrite strtok_from_run by assumption.
  destruct d as [|x d]; [contradiction|].
  simpl. simpl in IH. now rewrite IH.
Qed.

(** The fields that the [strtok] loop visits are the non-empty texts between
    colons. *)
Lemma strtok_all_example :
  strtok_all (cs ":/bin::/usr/bin:") COLON = [cs "/bin"; cs "/usr/bin"].
Proof. reflexivity. Qed.

(** C8 (as the code has it): [wsh_which] tests [name[0] == '.'] alone where
    the path resolver tests for [./].  For the name [.x], executable in the
    working directory and absent from the search path, [which .x] reports the
    file as found while running [.x] searches the path and reports that the
    command is not found. *)
Theorem which_disagrees_with_resolver (n : nat) :
  which_path os_dot started (cs ".x") = Some (cs ".x") /\
  find_executable_path os_dot started (cs ".x") = None /\
  wsh_which os_dot [cs "which"; cs ".x"] started =
    Ret EXIT_SUCCESS (add_out (Msg WHICH_EXTERNAL [cs ".x"; cs ".x"]) started) /\
  execute_single (S n) os_dot (cs ".x" ++ [NEWLINE]) started =
    Ret EXIT_FAILURE
        (set_rc EXIT_FAILURE (add_err (Msg CMD_NOT_FOUND [cs ".x"]) started)).
Proof. repeat split; reflexivity. Qed.

End PathFacts.

(** ** Exit codes *)

Module ExitFacts.

Import Cstr CstrFacts HashMap Wsh Spec Runs.

(** *** Interactive mode: the exit code is the return code at teardown *)

Lemma exits_ret {A : Type} (a : A) : exits_with_rc (ret a).
Proof. intros st. exact I. Qed.

Lemma exits_bind {A B : Type} (m : M A) (k : A -> M B) :
  exits_with_rc m -> (forall a, exits_with_rc (k a)) -> exits_with_rc (bind m k).
Proof.
  intros Hm Hk st. unfold bind. specialize (Hm st).
  destruct (m st) as [a s|c s|f s]; [apply Hk|exact Hm|exact I].
Qed.

(** [clean_exit(rc)]: the exit code is read from the state at that moment. *)
Lemma exits_clean_exit_rc {A : Type} :
  exits_with_rc (s <- get ;; @clean_exit A (rc s)).
Proof. intros st. reflexivity. Qed.

Lemma exits_get : exits_with_rc get.
Proof. intros st. exact I. Qed.

Lemma exits_modify (f : shell -> shell) : exits_with_rc (modify f).
Proof. intros st. exact I. Qed.

Lemma exits_crash {A : Type} (f : fault) : exits_with_rc (@crash A f).
Proof. intros st. exact I. Qed.

Lemma exits_warn (m : message) (args : list cstring) : exits_with_rc (wsh_warn m args).
Proof. intros st. exact I. Qed.

Lemma exits_perror (what : string) : exits_with_rc (perror what).
Proof. intros st. exact I. Qed.

Lemma exits_print_lines (l : list cstring) : exits_with_rc (print_lines l).
Proof. intros st. exact I. Qed.

Lemma exits_arg (argv : list cstring) (i : nat) : exits_with_rc (arg argv i).
Proof.
  intros st. unfold arg. destruct (nth_error argv i); [exact I|].
  destruct (i =? length argv)%nat; exact I.
Qed.

Lemma exits_sys_kill (pid : Z) : exits_with_rc (sys_kill pid).
Proof. intros st. exact I. Qed.

Lemma exits_sys_close (fd : Z) : exits_with_rc (sys_close fd).
Proof. intros st. exact I. Qed.

Create HintDb exits.

#[local] Hint Resolve exits_ret exits_clean_exit_rc exits_get exits_modify
  exits_crash exits_warn exits_perror exits_print_lines exits_arg exits_sys_kill
  exits_sys_close : exits.

Ltac exits_step :=
  match goal with
  | |- exits_with_rc (bind get (fun s => clean_exit (rc s))) =>
      apply exits_clean_exit_rc
  | |- exits_with_rc (bind _ _) => apply exits_bind; [|intros]
  | |- exits_with_rc (if ?b then _ else _) => destruct b
  | |- exits_with_rc (match ?x with _ => _ end) => destruct x
  | |- exits_with_rc (let '(_, _) := ?x in _) => destruct x
  | |- exits_with_rc _ => solve [auto with exits]
  end.

Ltac exits := repeat exits_step.

Section Sys.

Variable MAX_ARGS : nat.
Variable sys : os.

Lemma exits_sys_pipe : exits_with_rc (sys_pipe sys).
Proof. intros st. exact I. Qed.

Lemma exits_sys_waitpid (pid : Z) : exits_with_rc (sys_waitpid sys pid).
Proof. intros st. exact I. Qed.

Lemma exits_sys_chdir (dir : cstring) : exits_with_rc (sys_chdir sys dir).
Proof. intros st. exact I. Qed.

Lemma exits_sys_fork (child : child_outcome) : exits_with_rc (sys_fork sys child).
Proof. intros st. unfold sys_fork. destruct (os_fork sys (trace st)); exact I. Qed.

Lemma exits_kill_all (pids : list Z) : exits_with_rc (kill_all pids).
Proof. induction pids as [|p pids IH]; simpl; exits. Qed.

#[local] Hint Resolve exits_sys_pipe exits_sys_waitpid exits_sys_chdir
  exits_sys_fork exits_kill_all : exits.

Lemma exits_parseline (cmdline : cstring) :
  exits_with_rc (parseline_no_subst MAX_ARGS cmdline).
Proof. unfold parseline_no_subst. exits. Qed.

Lemma exits_run_builtin (b : builtin) (argv : list cstring) :
  exits_with_rc (run_builtin sys b argv).
Proof.
  destruct b; simpl.
  - unfold wsh_exit. exits.
  - unfold wsh_alias. exits.
  - unfold wsh_unalias. exits.
  - unfold wsh_which. exits.
  - unfold wsh_path. exits.
  - unfold wsh_cd. exits.
  - unfold wsh_history. exits.
Qed.

(** The child of an external command leaves the code by [execv] or by
    [_exit]. *)
Lemma external_child_ends (c full_path : cstring) (argv : list cstring)
      (st : shell) :
  child_of (external_child sys c full_path argv st) =
    if os_execv sys (trace st) full_path argv
    then CExec full_path argv else CExit EXIT_FAILURE.
Proof.
  unfold external_child, sys_execv, bind, get, ret.
  now destruct (os_execv sys (trace st) full_path argv).
Qed.

Lemma exits_execute_external_command (argv : list cstring) :
  exits_with_rc (execute_external_command sys argv).
Proof. unfold execute_external_command, fork_and_wait. exits. Qed.

#[local] Hint Resolve exits_parseline exits_run_builtin
  exits_execute_external_command : exits.

Lemma exits_spawn_loop (segs : list cstring) :
  forall prev pids, exits_with_rc (spawn_loop MAX_ARGS sys segs prev pids).
Proof.
  induction segs as [|seg rest IH]; intros prev pids; cbn [spawn_loop]; [exits|].
  apply exits_bind; [auto with exits|]. intros [[rfd wfd]|]; [|exits].
  apply exits_bind; [auto with exits|]. intros s.
  apply exits_bind; [auto with exits|]. intros [pid|]; [|exits].
  apply exits_bind; [auto with exits|]. intros _.
  apply exits_bind; [unfold close_unless_stdin; exits|]. intros _. apply IH.
Qed.

Lemma exits_wait_rest (pids : list Z) :
  forall all_success, exits_with_rc (wait_rest sys pids all_success).
Proof.
  induction pids as [|pid rest IH]; intros all_success; cbn [wait_rest]; [exits|].
  apply exits_bind; [auto with exits|]. intros w.
  destruct w; [apply exits_bind; [auto with exits|intros _]| |]; apply IH.
Qed.

Lemma exits_execute_pipeline (segments : list cstring) :
  exits_with_rc (execute_pipeline MAX_ARGS sys segments).
Proof.
  unfold execute_pipeline. apply exits_bind; [apply exits_spawn_loop|].
  intros [[prev pids]|]; [|exits].
  apply exits_bind; [auto with exits|]. intros s.
  apply exits_bind; [auto with exits|]. intros [pid|]; [|exits].
  apply exits_bind; [unfold close_unless_stdin; exits|]. intros _.
  unfold collect. apply exits_bind; [auto with exits|]. intros w.
  apply exits_bind; [exits|]. intros a. apply exits_wait_rest.
Qed.

Lemma exits_prevalidate (todo : list cstring) :
  forall done, exits_with_rc (prevalidate MAX_ARGS sys todo done).
Proof.
  induction todo as [|seg rest IH]; intros done; cbn [prevalidate]; [exits|].
  apply exits_bind; [unfold validate_segment; exits|].
  intros [seg'|]; [apply IH|exits].
Qed.

Lemma exits_dispatch (argv : list cstring) : exits_with_rc (dispatch sys argv).
Proof. unfold dispatch. exits. Qed.

(** The dispatcher ends the process only through [clean_exit(rc)]. *)
Lemma exits_execute_command (cmdline : cstring) :
  exits_with_rc (execute_command MAX_ARGS sys cmdline).
Proof.
  unfold execute_command. apply exits_bind; [unfold record_history; exits|].
  intros _. destruct (contains cmdline PIPE).
  - unfold execute_pipe_line. destruct (split_segments MAX_ARGS cmdline); [exits|].
    apply exits_bind; [apply exits_prevalidate|].
    intros [segs|]; [apply exits_execute_pipeline|exits].
  - unfold execute_single. apply exits_bind; [auto with exits|].
    intros [|c argv]; [exits|].
    apply exits_bind; [auto with exits|]. intros s.
    destruct (hm_get (alias_hm s) c); [|apply exits_dispatch].
    apply exits_bind; [auto with exits|].
    intros [|c' argv']; [exits|apply exits_dispatch].
Qed.

(** The read-eval loop never returns: it ends at the end of the input or at
    [exit], and then the exit code is the return code of that moment. *)
Lemma interactive_main_exits (lines : list cstring) (st : shell) :
  match interactive_main MAX_ARGS sys lines st with
  | Ret _ _ => False
  | Exit code s => code = rc s
  | Crash _ _ => True
  end.
Proof.
  revert st. induction lines as [|l lines IH]; intros st; cbn [interactive_main];
    unfold bind at 1; unfold modify at 1.
  - reflexivity.
  - unfold bind. pose proof (exits_execute_command l (add_out (Msg PROMPT []) st)) as H.
    destruct (execute_command MAX_ARGS sys l (add_out (Msg PROMPT []) st))
      as [a s|c s|f s]; [apply IH|exact H|exact I].
Qed.

End Sys.

(** In interactive mode the exit code of the process is the return code
    recorded when the shell ends. *)
Lemma interactive_exit_code (MAX_ARGS : nat) (sys : os) (name : cstring) :
  match main MAX_ARGS sys [name] boot with
  | Ret _ _ => False
  | Exit code s => code = rc s
  | Crash _ _ => True
  end.
Proof.
  unfold main. cbn [length Nat.ltb Nat.leb]. unfold bind at 1. unfold modify at 1.
  unfold bind at 1. unfold bind at 1.
  pose proof (interactive_main_exits MAX_ARGS sys (os_stdin sys)
                (set_path_env (Some (cs "/bin:/usr/bin")) boot)) as H.
  destruct (interactive_main MAX_ARGS sys (os_stdin sys)
              (set_path_env (Some (cs "/bin:/usr/bin")) boot)) as [a s|c s|f s];
    [contradiction|exact H|exact I].
Qed.


(** C1 (as the code has it): in batch mode [main] overwrites [rc] with the
    value returned for the last line, and [execute_external_command] returns
    [EXIT_SUCCESS] once the child has been waited for, whatever its exit
    status.  A script whose only line runs [false] leaves [rc = 1] after that
    line, yet the process exits with 0; the same line read in interactive
    mode gives exit code 1, as [interactive_exit_code] says it must. *)
Theorem batch_exit_code_loses_status (n : nat) :
  (exists st, execute_command (S n) os_false (cs "false" ++ [NEWLINE]) started =
              Ret EXIT_SUCCESS st /\ rc st = 1%Z) /\
  exit_code (main (S n) os_false [cs "wsh"; cs "script.wsh"] boot) = Some 0%Z /\
  exit_code (main (S n) os_false [cs "wsh"] boot) = Some 1%Z.
Proof.
  split; [eexists; split; reflexivity|]. split; reflexivity.
Qed.

End ExitFacts.

(** ** Pipelines *)

Module PipelineFacts.

Import Cstr CstrFacts Wsh Spec Runs.

Lemma spawned_app (a b : list event) : spawned (a ++ b) = spawned a ++ spawned b.
Proof. apply flat_map_app. Qed.

Lemma waited_app (a b : list event) : waited (a ++ b) = waited a ++ waited b.
Proof. apply flat_map_app. Qed.

Lemma killed_app (a b : list event) : killed (a ++ b) = killed a ++ killed b.
Proof. apply flat_map_app. Qed.

Lemma creation_failed_app (a b : list event) :
  creation_failed (a ++ b) = creation_failed a || creation_failed b.
Proof. apply existsb_app. Qed.

Lemma wait_failed_app (a b : list event) :
  wait_failed (a ++ b) = wait_failed a || wait_failed b.
Proof. apply existsb_app. Qed.

Lemma no_wait_no_failure (ev : list event) :
  waited ev = [] -> wait_failed ev = false.
Proof.
  induction ev as [|e ev IH]; [reflexivity|].
  destruct e; simpl; try exact IH. discriminate.
Qed.

Lemma kills_only (pids : list Z) :
  spawned (map EvKill pids) = [] /\ waited (map EvKill pids) = [] /\
  killed (map EvKill pids) = pids /\ creation_failed (map EvKill pids) = false.
Proof.
  induction pids as [|p pids [H1 [H2 [H3 H4]]]]; simpl; [auto|].
  repeat split; auto. now rewrite H3.
Qed.

Section Sys.

Variable MAX_ARGS : nat.
Variable sys : os.

Lemma kill_all_run (pids : list Z) (st : shell) :
  exists st', kill_all pids st = Ret tt st' /\
              trace st' = trace st ++ map EvKill pids /\ rc st' = rc st.
Proof.
  revert st. induction pids as [|p pids IH]; intros st; simpl.
  - exists st. rewrite app_nil_r. auto.
  - unfold bind, sys_kill, modify.
    destruct (IH (add_event (EvKill p) st)) as [st' [E [Ht Hr]]].
    exists st'. rewrite E, Ht, Hr. simpl. rewrite <- app_assoc. auto.
Qed.

(** The first loop: it waits for nobody; when it fails, it has signalled
    every process created so far and nothing else. *)
Lemma spawn_loop_run (segs : list cstring) :
  forall (prev : Z) (pids : list Z) (st : shell),
  exists res st1 ev,
    spawn_loop MAX_ARGS sys segs prev pids st = Ret res st1 /\
    trace st1 = trace st ++ ev /\ rc st1 = rc st /\ waited ev = [] /\
    match res with
    | None =>
        creation_failed ev = true /\ killed ev = pids ++ spawned ev /\
        exists tr, os_pipe sys tr = None \/ os_fork sys tr = None
    | Some (_, pids') =>
        creation_failed ev = false /\ killed ev = [] /\ pids' = pids ++ spawned ev
    end.
Proof.
  induction segs as [|seg rest IH]; intros prev pids st.
  - exists (Some (prev, pids)), st, []. simpl. rewrite !app_nil_r. auto 10.
  - cbn [spawn_loop].
    cbv [bind sys_pipe get sys_fork perror modify sys_close close_unless_stdin ret].
    destruct (os_pipe sys (trace st)) as [[rfd wfd]|] eqn:Ep.
    + cbn [trace add_event].
      match goal with |- context [EvFork _ ?c] => generalize c; intros child end.
      destruct (os_fork sys (trace st ++ [EvPipe (Some (rfd, wfd))])) as [pid|] eqn:Ef.
      * destruct (prev =? STDIN_FILENO)%Z.
        -- match goal with |- context [spawn_loop _ _ _ _ _ ?s] =>
             destruct (IH rfd (pids ++ [pid]) s) as [res [st1 [ev [E [Ht [Hr [Hw Hres]]]]]]]
           end.
           exists res, st1,
             ([EvPipe (Some (rfd, wfd)); EvFork pid child; EvClose wfd] ++ ev).
           rewrite E, Ht, Hr. cbn [trace rc add_event]. rewrite <- !app_assoc.
           repeat split; auto.
           destruct res as [[p' pids']|]; cbn in Hres |- *.
           ++ destruct Hres as [H1 [H2 H3]]. rewrite <- app_assoc in H3. auto.
           ++ destruct Hres as [H1 [H2 H3]]. rewrite <- app_assoc in H2. auto.
        -- match goal with |- context [spawn_loop _ _ _ _ _ ?s] =>
             destruct (IH rfd (pids ++ [pid]) s) as [res [st1 [ev [E [Ht [Hr [Hw Hres]]]]]]]
           end.
           exists res, st1,
             ([EvPipe (Some (rfd, wfd)); EvFork pid child; EvClose wfd;
               EvClose prev] ++ ev).
           rewrite E, Ht, Hr. cbn [trace rc add_event]. rewrite <- !app_assoc.
           repeat split; auto.
           destruct res as [[p' pids']|]; cbn in Hres |- *.
           ++ destruct Hres as [H1 [H2 H3]]. rewrite <- app_assoc in H3. auto.
           ++ destruct Hres as [H1 [H2 H3]]. rewrite <- app_assoc in H2. auto.
      * match goal with |- context [kill_all _ ?s] =>
          destruct (kill_all_run pids s) as [st1 [E [Ht Hr]]]
        end.
        destruct (kills_only pids) as [K1 [K2 [K3 K4]]].
        exists None, st1,
          ([EvPipe (Some (rfd, wfd)); EvForkFailed; EvClose rfd; EvClose wfd]
             ++ map EvKill pids).
        rewrite E, Ht, Hr. cbn [trace rc add_event add_err]. rewrite <- !app_assoc.
        rewrite ?waited_app, ?killed_app, ?spawned_app, ?creation_failed_app,
        ?K1, ?K2, ?K3, ?K4. cbn. rewrite ?app_nil_r. eauto 10.
    + match goal with |- context [kill_all _ ?s] =>
        destruct (kill_all_run pids s) as [st1 [E [Ht Hr]]]
      end.
      destruct (kills_only pids) as [K1 [K2 [K3 K4]]].
      exists None, st1, ([EvPipe None] ++ map EvKill pids).
      rewrite E, Ht, Hr. cbn [trace rc add_event add_err]. rewrite <- !app_assoc.
      rewrite ?waited_app, ?killed_app, ?spawned_app, ?creation_failed_app,
        ?K1, ?K2, ?K3, ?K4. cbn. rewrite ?app_nil_r. eauto 10.
Qed.

Lemma after_calls_nil (st : shell) : after_calls [] st = st.
Proof. destruct st. unfold after_calls. cbn. now rewrite app_nil_r. Qed.

Lemma after_calls_event (e : event) (ev : list event) (st : shell) :
  after_calls ev (add_event e st) = after_calls (e :: ev) st.
Proof. unfold after_calls, add_event. cbn. now rewrite <- app_assoc. Qed.

(** When every call of the first loop succeeded, the loop created one
    process for each of its segments, changed nothing but the trace, and
    hands on the read end of the pipe it created last. *)
Lemma spawn_loop_ok (segs : list cstring) :
  forall (prev : Z) (pids : list Z) (st : shell)
         (prev' : Z) (pids' : list Z) (st1 : shell),
    spawn_loop MAX_ARGS sys segs prev pids st = Ret (Some (prev', pids')) st1 ->
    exists ev,
      st1 = after_calls ev st /\ prev' = read_end prev ev /\
      pids' = pids ++ spawned ev /\ length (spawned ev) = length segs.
Proof.
  induction segs as [|seg rest IH]; intros prev pids st prev' pids' st1 H.
  - injection H as <- <- <-. exists []. rewrite after_calls_nil, app_nil_r. auto.
  - cbn [spawn_loop] in H.
    cbv [bind sys_pipe get sys_fork perror modify sys_close close_unless_stdin ret]
      in H.
    destruct (os_pipe sys (trace st)) as [[rfd wfd]|].
    + cbn [trace add_event] in H.
      match type of H with context [EvFork _ ?c] => generalize dependent c end.
      intros child H.
      destruct (os_fork sys (trace st ++ [EvPipe (Some (rfd, wfd))])) as [pid|].
      * assert (Hgen : forall closes s,
                   (forall ev,
                       after_calls ev s =
                       after_calls (([EvPipe (Some (rfd, wfd)); EvFork pid child;
                                      EvClose wfd] ++ closes) ++ ev) st) ->
                   spawned closes = [] -> read_end rfd closes = rfd ->
                   spawn_loop MAX_ARGS sys rest rfd (pids ++ [pid]) s =
                     Ret (Some (prev', pids')) st1 ->
                   exists ev,
                     st1 = after_calls ev st /\ prev' = read_end prev ev /\
                     pids' = pids ++ spawned ev /\
                     length (spawned ev) = length (seg :: rest)).
        { intros closes s Hs Hsp Hre Hrun.
          destruct (IH _ _ _ _ _ _ Hrun) as [ev [E1 [E2 [E3 E4]]]].
          exists (([EvPipe (Some (rfd, wfd)); EvFork pid child; EvClose wfd]
                     ++ closes) ++ ev).
          split.
          { rewrite E1. apply Hs. }
          split.
          { rewrite E2. unfold read_end. rewrite !fold_left_app. cbn.
            fold (read_end rfd closes). now rewrite Hre. }
          rewrite !spawned_app, Hsp. cbn. split.
          - rewrite E3. now rewrite <- app_assoc.
          - now rewrite E4. }
        destruct (prev =? STDIN_FILENO)%Z.
        -- refine (Hgen [] _ _ eq_refl eq_refl H).
           intros ev. now rewrite !after_calls_event.
        -- refine (Hgen [EvClose prev] _ _ eq_refl eq_refl H).
           intros ev. now rewrite !after_calls_event.
      * match type of H with context [kill_all _ ?s] =>
          destruct (kill_all_run pids s) as [st2 [E _]]; rewrite E in H
        end.
        discriminate.
    + match type of H with context [kill_all _ ?s] =>
        destruct (kill_all_run pids s) as [st2 [E _]]; rewrite E in H
      end.
      discriminate.
Qed.

(** The second loop waits once for each of [pids], in order. *)
Lemma wait_rest_run (pids : list Z) :
  forall (all_success : Z) (st : shell),
  exists st' ev,
    wait_rest sys pids all_success st =
      Ret (if wait_failed ev then EXIT_FAILURE else all_success) st' /\
    trace st' = trace st ++ ev /\ rc st' = rc st /\
    waited ev = pids /\ spawned ev = [] /\ killed ev = [] /\
    creation_failed ev = false.
Proof.
  induction pids as [|pid rest IH]; intros all_success st.
  - exists st, []. simpl. rewrite app_nil_r. auto 10.
  - cbn [wait_rest]. cbv [bind sys_waitpid perror modify].
    destruct (os_waitpid sys (trace st) pid) eqn:Ew;
      match goal with |- context [wait_rest _ _ ?a ?s] =>
        destruct (IH a s) as [st' [ev [E [Ht [Hr [Hw [Hs [Hk Hc]]]]]]]]
      end;
      match goal with |- context [EvWait pid ?w] =>
        exists st', ([EvWait pid w] ++ ev)
      end;
      rewrite E, Ht, Hr; cbn [trace rc add_event add_err];
      rewrite <- app_assoc;
      rewrite waited_app, killed_app, spawned_app, creation_failed_app,
        wait_failed_app, Hw, Hs, Hk, Hc;
      destruct (wait_failed ev); cbn; auto 10.
Qed.

(** The waiting code: the first wait is for the last process, and it alone
    decides the recorded return code. *)
Lemma collect_run (pid_last : Z) (pids : list Z) (st : shell) :
  exists st' ev,
    collect sys pid_last pids st =
      Ret (if wait_failed ([EvWait pid_last (os_waitpid sys (trace st) pid_last)] ++ ev)
           then EXIT_FAILURE
           else status_of (os_waitpid sys (trace st) pid_last)) st' /\
    trace st' = trace st ++ EvWait pid_last (os_waitpid sys (trace st) pid_last) :: ev /\
    rc st' = recorded_code (os_waitpid sys (trace st) pid_last) /\
    waited ev = pids /\ spawned ev = [] /\ killed ev = [] /\
    creation_failed ev = false.
Proof.
  unfold collect. cbv [bind sys_waitpid perror modify ret].
  destruct (os_waitpid sys (trace st) pid_last) eqn:Ew;
    match goal with |- context [wait_rest _ _ ?a ?s] =>
      destruct (wait_rest_run pids a s) as [st' [ev [E [Ht [Hr [Hw [Hs [Hk Hc]]]]]]]]
    end;
    exists st', ev; rewrite E, Ht, Hr;
    cbn [trace rc add_event add_err set_rc]; rewrite <- app_assoc;
    rewrite wait_failed_app;
    destruct (wait_failed ev); cbn; auto 10.
Qed.

(** Every run of [execute_pipeline] returns, in one of two ways. *)
Lemma execute_pipeline_run (segments : list cstring) (st : shell) :
  exists r st' new,
    execute_pipeline MAX_ARGS sys segments st = Ret r st' /\
    trace st' = trace st ++ new /\
    ((creation_failed new = true /\ r = EXIT_FAILURE /\ rc st' = rc st /\
      waited new = [] /\ killed new = spawned new /\
      exists tr, os_pipe sys tr = None \/ os_fork sys tr = None)
     \/
     (creation_failed new = false /\ killed new = [] /\
      exists pids pid_last before after,
        let w := os_waitpid sys (trace st ++ before) pid_last in
        spawned new = pids ++ [pid_last] /\
        waited new = pid_last :: pids /\
        new = before ++ EvWait pid_last w :: after /\
        waited before = [] /\
        rc st' = recorded_code w /\
        r = if wait_failed new then EXIT_FAILURE else status_of w)).
Proof.
  unfold execute_pipeline. unfold bind at 1.
  destruct (spawn_loop_run (removelast segments) STDIN_FILENO [] st)
    as [res [st1 [ev [E [Ht [Hr [Hw Hres]]]]]]].
  rewrite E. destruct res as [[prev pids]|].
  - destruct Hres as [Hc [Hk Hp]]. simpl in Hp. subst pids.
    cbv [bind get sys_fork perror modify ret close_unless_stdin sys_close].
    match goal with |- context [EvFork _ ?c] => generalize c; intros child end.
    destruct (os_fork sys (trace st1)) as [pid_last|] eqn:Ef.
    + assert (Hgen : forall s evc,
                trace s = trace st1 ++ EvFork pid_last child :: evc ->
                rc s = rc st1 ->
                spawned evc = [] -> waited evc = [] -> killed evc = [] ->
                creation_failed evc = false ->
                exists r st' new,
                  collect sys pid_last (spawned ev) s = Ret r st' /\
                  trace st' = trace st ++ new /\
                  ((creation_failed new = true /\ r = EXIT_FAILURE /\
                    rc st' = rc st /\ waited new = [] /\ killed new = spawned new /\
                    exists tr, os_pipe sys tr = None \/ os_fork sys tr = None)
                   \/
                   (creation_failed new = false /\ killed new = [] /\
                    exists pids pid_last0 before after,
                      let w := os_waitpid sys (trace st ++ before) pid_last0 in
                      spawned new = pids ++ [pid_last0] /\
                      waited new = pid_last0 :: pids /\
                      new = before ++ EvWait pid_last0 w :: after /\
                      waited before = [] /\
                      rc st' = recorded_code w /\
                      r = if wait_failed new then EXIT_FAILURE else status_of w))).
      { intros s evc Hts Hrs Hs1 Hs2 Hs3 Hs4.
        destruct (collect_run pid_last (spawned ev) s)
          as [st' [evw [Ec [Htw [Hrw [Hww [Hsw [Hkw Hcw]]]]]]]].
        set (before := ev ++ EvFork pid_last child :: evc).
        assert (Hb : trace s = trace st ++ before).
        { rewrite Hts, Ht. unfold before. now rewrite <- app_assoc. }
        rewrite Hb in Htw, Hrw, Ec.
        eexists _, st', (before ++ [EvWait pid_last
                                    (os_waitpid sys (trace st ++ before) pid_last)]
                               ++ evw).
        split; [exact Ec|]. split; [rewrite Htw; now rewrite <- app_assoc|].
        right.
        assert (Hwb : waited before = []).
        { unfold before. rewrite waited_app, Hw. simpl. exact Hs2. }
        assert (Hsb : spawned before = spawned ev ++ [pid_last]).
        { unfold before. rewrite spawned_app. simpl. now rewrite Hs1. }
        assert (Hkb : killed before = []).
        { unfold before. rewrite killed_app, Hk. simpl. exact Hs3. }
        assert (Hcb : creation_failed before = false).
        { unfold before. rewrite creation_failed_app, Hc. simpl. exact Hs4. }
        split; [rewrite creation_failed_app, Hcb; simpl; exact Hcw|].
        split; [rewrite killed_app, Hkb; simpl; exact Hkw|].
        exists (spawned ev), pid_last, before, evw. cbv zeta.
        split; [rewrite spawned_app, Hsb; simpl; rewrite Hsw; now rewrite app_nil_r|].
        split; [rewrite waited_app, Hwb; simpl; now rewrite Hww|].
        split; [reflexivity|]. split; [exact Hwb|]. split; [exact Hrw|].
        rewrite (wait_failed_app before), (no_wait_no_failure before Hwb).
        reflexivity. }
      destruct (prev =? STDIN_FILENO)%Z.
      * apply (Hgen _ []); auto.
      * apply (Hgen _ [EvClose prev]); auto. cbn [trace add_event].
        now rewrite <- app_assoc.
    + match goal with |- context [kill_all _ ?s] =>
        destruct (kill_all_run (spawned ev) s) as [st2 [E2 [Ht2 Hr2]]]
      end.
      destruct (kills_only (spawned ev)) as [K1 [K2 [K3 K4]]].
      exists EXIT_FAILURE, st2, (ev ++ [EvForkFailed] ++ map EvKill (spawned ev)).
      rewrite E2, Ht2. cbn [trace rc add_event add_err]. rewrite Ht.
      split; [reflexivity|]. split; [now rewrite <- !app_assoc|].
      left. rewrite !creation_failed_app, !waited_app, !killed_app, !spawned_app.
      rewrite Hk, Hw, K1, K2, K3. cbn. rewrite app_nil_r.
      split; [apply orb_true_r|]. split; [reflexivity|].
      split; [rewrite Hr2; cbn [rc add_event add_err]; exact Hr|].
      split; [reflexivity|]. split; [reflexivity|]. eauto.
  - destruct Hres as [Hc [Hk Ho]]. simpl in Hk.
    exists EXIT_FAILURE, st1, ev. cbv [ret]. auto 10.
Qed.

End Sys.

(** C3: every run of [execute_pipeline] on the segments [firsts] followed
    by [last_seg] returns.  Unless a [pipe] or [fork] call was refused (the
    function then returns failure), all its processes were created, one for
    each segment; the one created last, [pid_last], is the child of the
    [fork] that runs [execute_segment] on the last segment, reading from the
    pipe created last and writing to the standard output; the first
    [waitpid] is on this process; the recorded return code is the exit
    status that this wait reports (failure when the wait fails or the process
    did not exit), and the returned status is success exactly when that exit
    status is 0 and no [waitpid] failed, failure otherwise.  The other
    processes are waited for afterwards, and their wait results enter only
    through a failed wait. *)
Theorem pipeline_status_is_last_segment (MAX_ARGS : nat) (sys : os)
        (firsts : list cstring) (last_seg : cstring) (st : shell) :
  exists r st' new,
    execute_pipeline MAX_ARGS sys (firsts ++ [last_seg]) st = Ret r st' /\
    trace st' = trace st ++ new /\
    ((creation_failed new = true /\ r = EXIT_FAILURE /\
      exists tr, os_pipe sys tr = None \/ os_fork sys tr = None) \/
     exists pid_last before between after,
       let child :=
         child_of (execute_segment MAX_ARGS sys last_seg
                     (read_end STDIN_FILENO before) STDOUT_FILENO
                     (after_calls before st)) in
       let w := os_waitpid sys (trace st ++ before ++
                                EvFork pid_last child :: between) pid_last in
       new = before ++ EvFork pid_last child :: between ++
             EvWait pid_last w :: after /\
       length (spawned before) = length firsts /\
       spawned new = spawned before ++ [pid_last] /\
       waited before = [] /\ waited between = [] /\
       waited after = spawned before /\
       rc st' = recorded_code w /\
       r = if wait_failed new then EXIT_FAILURE else status_of w).
Proof.
  unfold execute_pipeline. rewrite removelast_last.
  replace (nth_error (firsts ++ [last_seg]) (length (firsts ++ [last_seg]) - 1))
    with (Some last_seg).
  2:{ rewrite length_app. cbn [length]. rewrite Nat.add_sub.
      rewrite nth_error_app2 by lia. now rewrite Nat.sub_diag. }
  unfold bind at 1.
  destruct (spawn_loop_run MAX_ARGS sys firsts STDIN_FILENO [] st)
    as [res [st1 [ev [E [Ht [Hr [Hw Hres]]]]]]].
  rewrite E. destruct res as [[prev pids]|].
  2:{ destruct Hres as [Hc [_ Hos]]. exists EXIT_FAILURE, st1, ev. cbv [ret].
      auto 10. }
  destruct Hres as [Hc [Hk Hp]]. cbn [app] in Hp.
  destruct (spawn_loop_ok MAX_ARGS sys _ _ _ _ _ _ _ E)
    as [ev' [Hst [Hprev [_ Hlen]]]].
  assert (Hev : ev' = ev).
  { rewrite Hst in Ht. cbn [after_calls trace] in Ht.
    now apply app_inv_head in Ht. }
  subst ev' prev pids.
  cbv [bind get sys_fork].
  set (child := child_of (execute_segment MAX_ARGS sys last_seg
                            (read_end STDIN_FILENO ev) STDOUT_FILENO st1)).
  destruct (os_fork sys (trace st1)) as [pid_last|] eqn:Ef.
  - assert (Hgen : forall s between,
               trace s = trace st ++ ev ++ EvFork pid_last child :: between ->
               spawned between = [] -> waited between = [] ->
               creation_failed between = false ->
               exists r st' new,
                 collect sys pid_last (spawned ev) s = Ret r st' /\
                 trace st' = trace st ++ new /\
                 ((creation_failed new = true /\ r = EXIT_FAILURE /\
                   exists tr, os_pipe sys tr = None \/ os_fork sys tr = None) \/
                  exists pid_last0 before between0 after,
                    let child0 :=
                      child_of (execute_segment MAX_ARGS sys last_seg
                                  (read_end STDIN_FILENO before) STDOUT_FILENO
                                  (after_calls before st)) in
                    let w := os_waitpid sys
                               (trace st ++ before ++
                                EvFork pid_last0 child0 :: between0) pid_last0 in
                    new = before ++ EvFork pid_last0 child0 :: between0 ++
                          EvWait pid_last0 w :: after /\
                    length (spawned before) = length firsts /\
                    spawned new = spawned before ++ [pid_last0] /\
                    waited before = [] /\ waited between0 = [] /\
                    waited after = spawned before /\
                    rc st' = recorded_code w /\
                    r = if wait_failed new then EXIT_FAILURE else status_of w)).
    { intros s between Hts Hs1 Hs2 Hs3.
      destruct (collect_run sys pid_last (spawned ev) s)
        as [st' [evw [Ec [Htw [Hrw [Hww [Hsw [Hkw Hcw]]]]]]]].
      rewrite Hts in Htw, Hrw, Ec.
      eexists _, st', (ev ++ EvFork pid_last child :: between ++
                       EvWait pid_last _ :: evw).
      split; [exact Ec|].
      split; [rewrite Htw, <- !app_assoc; reflexivity|].
      right. exists pid_last, ev, between, evw. cbv zeta.
      rewrite <- Hst. fold child.
      split; [reflexivity|]. split; [exact Hlen|].
      split.
      { rewrite spawned_app. cbn [spawned flat_map app].
        fold (spawned (between ++ EvWait pid_last
                  (os_waitpid sys (trace st ++ ev ++ EvFork pid_last child :: between)
                              pid_last) :: evw)).
        rewrite spawned_app, Hs1. cbn [spawned flat_map app].
        fold (spawned evw). now rewrite Hsw. }
      split; [exact Hw|]. split; [exact Hs2|]. split; [exact Hww|].
      split; [exact Hrw|].
      rewrite !wait_failed_app in *. rewrite (no_wait_no_failure ev Hw).
      cbn [orb]. change (EvFork pid_last child :: between ++
                         EvWait pid_last
                           (os_waitpid sys (trace st ++ ev ++
                                            EvFork pid_last child :: between)
                                       pid_last) :: evw)
        with ([EvFork pid_last child] ++ between ++
              [EvWait pid_last
                 (os_waitpid sys (trace st ++ ev ++
                                  EvFork pid_last child :: between) pid_last)]
              ++ evw).
      rewrite !wait_failed_app, (no_wait_no_failure between Hs2).
      reflexivity. }
    unfold close_unless_stdin. destruct (read_end STDIN_FILENO ev =? STDIN_FILENO)%Z.
    + apply (Hgen _ []); auto. cbn [trace add_event]. rewrite Ht.
      now rewrite <- app_assoc.
    + apply (Hgen _ [EvClose (read_end STDIN_FILENO ev)]); auto.
      cbv [sys_close modify]. cbn [trace add_event]. rewrite Ht.
      now rewrite <- !app_assoc.
  - cbv [perror modify ret].
    match goal with |- context [kill_all _ ?s] =>
      destruct (kill_all_run (spawned ev) s) as [st2 [E2 [Ht2 Hr2]]]
    end.
    exists EXIT_FAILURE, st2, (ev ++ [EvForkFailed] ++ map EvKill (spawned ev)).
    rewrite E2, Ht2. cbn [trace add_event add_err]. rewrite Ht.
    split; [reflexivity|]. split; [now rewrite <- !app_assoc|].
    left. split; [|eauto].
    rewrite !creation_failed_app. cbn. apply orb_true_r.
Qed.

(** C4 (amended): every run of [execute_pipeline] returns.  When every [pipe]
    and [fork] succeeded, the processes waited for are exactly the processes
    created, each once, and none is signalled.  When a [pipe] or [fork]
    failed, the function returns failure, each process already created is
    signalled once and none of them is waited for. *)
Theorem pipeline_children_collected (MAX_ARGS : nat) (sys : os)
        (segments : list cstring) (st : shell) :
  exists r st' new,
    execute_pipeline MAX_ARGS sys segments st = Ret r st' /\
    trace st' = trace st ++ new /\
    ((creation_failed new = false /\
      Permutation (waited new) (spawned new) /\ killed new = [])
     \/
     (creation_failed new = true /\ r = EXIT_FAILURE /\
      waited new = [] /\ killed new = spawned new)).
Proof.
  destruct (execute_pipeline_run MAX_ARGS sys segments st)
    as [r [st' [new [E [Ht [H|H]]]]]]; exists r, st', new.
  - intuition.
  - destruct H as [Hc [Hk [pids [pid_last [before [after H]]]]]].
    cbv zeta in H. destruct H as [Hs [Hw [Hn [Hb [Hr Hres]]]]].
    split; [exact E|]. split; [exact Ht|]. left.
    repeat split; auto. rewrite Hs, Hw.
    apply Permutation_cons_append.
Qed.

(** C4 (as stated) fails: in the pipeline [ls | cat] whose second [fork]
    fails, the first child (pid 100) is created and signalled, the function
    returns failure, and no [waitpid] is made for it. *)
Lemma siblings_not_waited :
  exists st',
    execute_pipeline bound os_fork_once [cs "ls "; cs " cat"] started =
      Ret EXIT_FAILURE st' /\
    spawned (trace st') = [100%Z] /\
    killed (trace st') = [100%Z] /\
    waited (trace st') = [].
Proof. eexists. repeat split; reflexivity. Qed.

(** The last segment exits with 3, the first with 0: the recorded return
    code is 3 and the returned status is failure. *)
Lemma last_segment_decides :
  exists st',
    execute_pipeline bound (os_last_three 101) [cs "ls "; cs " cat"] started =
      Ret EXIT_FAILURE st' /\
    rc st' = 3%Z /\ waited (trace st') = [101%Z; 100%Z].
Proof. eexists. repeat split; reflexivity. Qed.

End PipelineFacts.

(** ** Aliases *)

Module AliasFacts.

Import Cstr CstrFacts HashMap Wsh Spec Runs TokenizerFacts.

Lemma contains_false (s : cstring) (c : ascii) :
  contains s c = false <-> ~ In c s.
Proof.
  unfold contains. rewrite <- strchr_none.
  destruct (strchr s c); split; congruence.
Qed.

Lemma contains_app (s t : cstring) (c : ascii) :
  contains (s ++ t) c = contains s c || contains t c.
Proof.
  unfold contains. rewrite strchr_app.
  destruct (strchr s c) as [[a b]|]; [reflexivity|].
  destruct (strchr t c) as [[a b]|]; reflexivity.
Qed.

Lemma hm_get_put_same (m : HashMap.t) (k v : cstring) :
  hm_get (hm_put m k v) k = Some v.
Proof.
  induction m as [|[k0 v0] m IH]; simpl.
  - now rewrite streq_refl.
  - destruct (streq k0 k) eqn:E; simpl; rewrite E; [reflexivity|exact IH].
Qed.

Lemma plain_word_facts (w : cstring) :
  plain_word w = true ->
  exists c r, w = c :: r /\ c <> QUOTE /\ ~ In SPACE w /\ ~ In PIPE w.
Proof.
  destruct w as [|c r]; [discriminate|]. unfold plain_word.
  intros H. apply andb_true_iff in H as [H H3].
  apply andb_true_iff in H as [H1 H2].
  exists c, r. split; [reflexivity|].
  apply negb_true_iff in H1, H2, H3.
  apply Ascii.eqb_neq in H1. apply contains_false in H2, H3. auto.
Qed.

Lemma spaced_no_pipe (args : list cstring) :
  forallb plain_word args = true -> contains (spaced args) PIPE = false.
Proof.
  induction args as [|a args IH]; [reflexivity|].
  simpl. intros H. apply andb_true_iff in H as [Ha Hr].
  change (SPACE :: a ++ spaced args) with ([SPACE] ++ a ++ spaced args).
  rewrite !contains_app, (IH Hr).
  destruct (plain_word_facts a Ha) as [c [r [_ [_ [_ Hp]]]]].
  apply contains_false in Hp. now rewrite Hp.
Qed.

Lemma render_words (name : cstring) (args : list cstring) :
  name ++ spaced args ++ [SPACE] =
  flat_map (fun w => w ++ [SPACE]) (name :: args).
Proof.
  revert name. induction args as [|a args IH]; intros name; simpl.
  - now rewrite app_nil_r.
  - simpl in IH. rewrite <- IH. rewrite <- !app_assoc. reflexivity.
Qed.

Lemma rendered_length (ws : list cstring) :
  length ws <= length (flat_map (fun w => w ++ [SPACE]) ws).
Proof.
  induction ws as [|w ws IH]; simpl; [lia|].
  rewrite !length_app. simpl. lia.
Qed.

Section Bound.

Variable MAX_ARGS : nat.

Lemma skip_fresh_app (x : ascii) (s t : cstring) :
  x <> SPACE -> skip SPACE ((x :: s) ++ t) = (x :: s) ++ t.
Proof. intros H. simpl app. now apply skip_fresh. Qed.

(** One turn of the loop on an unquoted token. *)
Lemma parse_unquoted (f : nat) (argv : list cstring) (c : ascii)
      (r rest : cstring) :
  c <> QUOTE -> ~ In SPACE (c :: r) ->
  parse_loop MAX_ARGS (S f) argv ((c :: r) ++ SPACE :: rest) =
  if (length argv <=? MAX_ARGS)%nat
  then parse_loop MAX_ARGS f (argv ++ [c :: r]) (skip SPACE rest)
  else Some Overflow.
Proof.
  intros Hq Hs. rewrite parse_loop_S. simpl app. cbv beta iota zeta.
  apply Ascii.eqb_neq in Hq. rewrite Hq.
  change (c :: r ++ SPACE :: rest) with ((c :: r) ++ SPACE :: rest).
  now rewrite (strchr_first _ _ _ Hs).
Qed.

(** One turn of the loop on a quoted token. *)
Lemma parse_quoted (f : nat) (argv : list cstring) (q rest : cstring) :
  ~ In QUOTE q ->
  parse_loop MAX_ARGS (S f) argv (QUOTE :: q ++ QUOTE :: rest) =
  if (length argv <=? MAX_ARGS)%nat
  then parse_loop MAX_ARGS f (argv ++ [q]) (skip SPACE rest)
  else Some Overflow.
Proof.
  intros Hq. rewrite parse_loop_S. cbv beta iota zeta.
  change (Ascii.eqb QUOTE QUOTE) with true. cbv iota.
  now rewrite (strchr_first _ _ _ Hq).
Qed.

Lemma skip_plain (w rest : cstring) :
  plain_word w = true -> skip SPACE (w ++ rest) = w ++ rest.
Proof.
  intros H. destruct (plain_word_facts w H) as [c [r [-> [_ [Hs _]]]]].
  simpl app. apply skip_fresh. intros E. apply Hs. now left.
Qed.

(** Plain words separated by single spaces are read back as they are. *)
Lemma parse_rendered (ws : list cstring) :
  forall (argv : list cstring) (f : nat),
    forallb plain_word ws = true ->
    length ws < f ->
    parse_loop MAX_ARGS f argv (skip SPACE (flat_map (fun w => w ++ [SPACE]) ws)) =
    Some (if (length argv + length ws <=? MAX_ARGS)%nat
          then Tokens (argv ++ ws) else Overflow).
Proof.
  induction ws as [|w ws IH]; intros argv f Hp Hf.
  - destruct f as [|f]; [lia|]. simpl. unfold finish.
    now rewrite Nat.add_0_r, app_nil_r.
  - destruct f as [|f]; [simpl in Hf; lia|].
    simpl in Hp. apply andb_true_iff in Hp as [Hw Hr].
    simpl flat_map. rewrite <- app_assoc. rewrite (skip_plain _ _ Hw).
    destruct (plain_word_facts w Hw) as [c [r [-> [Hq [Hs _]]]]].
    change ([SPACE] ++ flat_map (fun w => w ++ [SPACE]) ws)
      with (SPACE :: flat_map (fun w => w ++ [SPACE]) ws).
    rewrite parse_unquoted by assumption.
    destruct (length argv <=? MAX_ARGS)%nat eqn:E.
    + rewrite IH by (simpl in Hf; auto; lia).
      rewrite length_app. simpl length.
      replace (length argv + 1 + length ws) with (length argv + S (length ws)) by lia.
      now rewrite <- app_assoc.
    + apply Nat.leb_gt in E.
      match goal with |- context [if ?b then _ else _] =>
        assert (E2 : b = false) by (apply Nat.leb_gt; simpl; lia)
      end.
      now rewrite E2.
Qed.

Lemma tokenize_rendered (name : cstring) (args : list cstring) :
  plain_word name = true ->
  forallb plain_word args = true ->
  (length args <? MAX_ARGS)%nat = true ->
  tokenize MAX_ARGS (name ++ spaced args ++ [NEWLINE]) = Tokens (name :: args).
Proof.
  intros Hn Ha Hl. unfold tokenize.
  rewrite app_assoc, line_buffer_newline, <- app_assoc, render_words.
  rewrite parse_rendered.
  - apply Nat.ltb_lt in Hl.
    replace (length (@nil cstring) + length (name :: args) <=? MAX_ARGS)%nat
      with true; [reflexivity|].
    symmetry. apply Nat.leb_le. simpl. lia.
  - simpl forallb. now rewrite Hn, Ha.
  - pose proof (rendered_length (name :: args)). lia.
Qed.

(** The tokens of a definition line [alias NAME = 'EXPANSION']. *)
Lemma tokenize_definition (name expansion : cstring) :
  plain_word name = true ->
  contains expansion QUOTE = false ->
  (4 <=? MAX_ARGS)%nat = true ->
  tokenize MAX_ARGS (cs "alias " ++ name ++ cs " = '" ++ expansion ++ cs "'"
                        ++ [NEWLINE]) =
  Tokens [cs "alias"; name; cs "="; expansion].
Proof.
  intros Hn He Hm. apply Nat.leb_le in Hm. apply contains_false in He.
  destruct (plain_word_facts name Hn) as [c [r [En [Hq [Hs _]]]]].
  assert (L : forall l : list cstring, length l <= 4 ->
                                       (length l <=? MAX_ARGS)%nat = true)
    by (intros; apply Nat.leb_le; lia).
  unfold tokenize.
  rewrite !app_assoc, line_buffer_newline, <- !app_assoc.
  set (buf := cs "alias " ++ name ++ cs " = '" ++ expansion ++ cs "'" ++ [SPACE]).
  rewrite (parse_loop_fuel MAX_ARGS _ (5 + length buf))
    by (pose proof (skip_length SPACE buf); lia).
  unfold buf at 2.
  change (cs "alias " ++ name ++ cs " = '" ++ expansion ++ cs "'" ++ [SPACE])
    with (("a"%char :: cs "lias") ++ SPACE :: (name ++ SPACE ::
            (["="%char] ++ SPACE :: (QUOTE :: expansion ++ QUOTE :: [SPACE])))).
  change (5 + length buf) with (S (S (S (S (S (length buf)))))).
  rewrite skip_fresh_app by discriminate.
  rewrite parse_unquoted;
    [|discriminate|cbv; intros H; repeat (destruct H as [H|H]; [discriminate|]); exact H].
  rewrite L by (simpl; lia). rewrite (skip_plain _ _ Hn).
  rewrite En. rewrite parse_unquoted; [|exact Hq|rewrite <- En; exact Hs].
  rewrite L by (simpl; lia). rewrite skip_fresh_app by discriminate.
  rewrite parse_unquoted;
    [|discriminate|cbv; intros H; repeat (destruct H as [H|H]; [discriminate|]); exact H].
  rewrite L by (simpl; lia). rewrite skip_fresh by discriminate.
  rewrite parse_quoted by assumption.
  rewrite L by (simpl; lia). simpl. unfold finish. rewrite L by (simpl; lia).
  reflexivity.
Qed.

End Bound.

Lemma record_history_run (line : cstring) (st : shell) :
  exists h, record_history line st = Ret tt (set_history_da h st).
Proof.
  unfold record_history.
  destruct (0 <? length line)%nat;
    [destruct (negb (strspn (chomp line) [SPACE; TAB] =? length (chomp line))%nat)|];
    try (exists (history_da st); destruct st; reflexivity).
  eexists. reflexivity.
Qed.

(** C6 (amended): a definition line [alias NAME = 'EXPANSION'], with the
    expansion given as one quoted token, succeeds and records the alias; a
    later line [NAME ARG ...] is then executed as the line made of the
    expansion followed by a space and each argument: that line is tokenized
    again and dispatched, without a second alias lookup. *)
Theorem alias_expansion_is_executed (MAX_ARGS : nat) (sys : os)
        (name expansion : cstring) (args : list cstring) (st : shell) :
  plain_word name = true ->
  forallb plain_word args = true ->
  contains expansion QUOTE = false ->
  contains expansion PIPE = false ->
  hm_get (alias_hm st) (cs "alias") = None ->
  (4 <=? MAX_ARGS)%nat = true ->
  (length args <? MAX_ARGS)%nat = true ->
  exists st1,
    execute_command MAX_ARGS sys
      (cs "alias " ++ name ++ cs " = '" ++ expansion ++ cs "'" ++ [NEWLINE]) st =
      Ret EXIT_SUCCESS st1 /\
    hm_get (alias_hm st1) name = Some expansion /\
    execute_command MAX_ARGS sys (name ++ spaced args ++ [NEWLINE]) st1 =
      (record_history (name ++ spaced args ++ [NEWLINE]) ;;;
       argv <- parseline_no_subst MAX_ARGS (expansion ++ spaced args) ;;
       match argv with
       | [] => ret EXIT_SUCCESS
       | _ => dispatch sys argv
       end) st1.
Proof.
  intros Hn Ha Hq Hp Hal Hm Hl.
  destruct (plain_word_facts name Hn) as [c [r [En [_ [_ Hnp]]]]].
  apply contains_false in Hnp.
  destruct (record_history_run
              (cs "alias " ++ name ++ cs " = '" ++ expansion ++ cs "'" ++ [NEWLINE]) st)
    as [h Eh].
  assert (Hpd : contains (cs "alias " ++ name ++ cs " = '" ++ expansion ++ cs "'"
                              ++ [NEWLINE]) PIPE = false)
    by (rewrite !contains_app, Hnp, Hp; reflexivity).
  assert (Hpu : contains (name ++ spaced args ++ [NEWLINE]) PIPE = false)
    by (rewrite !contains_app, Hnp, (spaced_no_pipe args Ha); reflexivity).
  eexists. split; [|split].
  - unfold execute_command. unfold bind at 1. rewrite Eh, Hpd.
    unfold execute_single, parseline_no_subst.
    rewrite (tokenize_definition MAX_ARGS name expansion Hn Hq Hm).
    unfold bind at 1. unfold ret at 1. unfold bind at 1, get at 1.
    cbn [alias_hm set_history_da]. rewrite Hal.
    rewrite En. reflexivity.
  - cbn [alias_hm set_history_da set_rc set_alias_hm]. rewrite En.
    apply hm_get_put_same.
  - match goal with |- execute_command _ _ _ ?s = _ => set (st1 := s) end.
    assert (Hst1 : hm_get (alias_hm st1) name = Some expansion).
    { unfold st1. cbn [alias_hm set_history_da set_rc set_alias_hm]. rewrite En.
      apply hm_get_put_same. }
    clearbody st1.
    unfold execute_command. rewrite Hpu.
    unfold bind at 1. unfold bind at 1.
    destruct (record_history_run (name ++ spaced args ++ [NEWLINE]) st1) as [h2 Eh2].
    rewrite Eh2.
    unfold execute_single, parseline_no_subst at 1.
    rewrite (tokenize_rendered MAX_ARGS name args Hn Ha Hl).
    unfold bind at 1. unfold ret at 1. unfold bind at 1, get at 1.
    cbn [alias_hm set_history_da]. rewrite Hst1.
    reflexivity.
Qed.

(** The spec's example, with the expansion quoted: after
    [alias x = 'echo hi'] the line [x there] runs [echo hi there]. *)
Lemma alias_expansion_is_executed_witness :
  exists st1,
    execute_command bound os_echo
      (cs "alias " ++ cs "x" ++ cs " = '" ++ cs "echo hi" ++ cs "'" ++ [NEWLINE])
      started = Ret EXIT_SUCCESS st1 /\
    hm_get (alias_hm st1) (cs "x") = Some (cs "echo hi") /\
    execute_command bound os_echo (cs "x" ++ spaced [cs "there"] ++ [NEWLINE]) st1 =
      (record_history (cs "x" ++ spaced [cs "there"] ++ [NEWLINE]) ;;;
       argv <- parseline_no_subst bound (cs "echo hi" ++ spaced [cs "there"]) ;;
       match argv with
       | [] => ret EXIT_SUCCESS
       | _ => dispatch os_echo argv
       end) st1.
Proof.
  apply (alias_expansion_is_executed bound os_echo (cs "x") (cs "echo hi")
           [cs "there"] started); reflexivity.
Defined.

(** C6 (as stated) fails: the line [alias x = echo hi] has five tokens, the
    builtin reports a usage error and records nothing; [x there] is then an
    unknown command and no process is created. *)
Lemma unquoted_alias_definition_rejected :
  exists st1 st2,
    execute_command bound os_echo (cs "alias x = echo hi" ++ [NEWLINE]) started =
      Ret EXIT_FAILURE st1 /\
    err st1 = [Msg INVALID_ALIAS_USE []] /\
    hm_get (alias_hm st1) (cs "x") = None /\
    execute_command bound os_echo (cs "x there" ++ [NEWLINE]) st1 =
      Ret EXIT_FAILURE st2 /\
    err st2 = [Msg INVALID_ALIAS_USE []; Msg CMD_NOT_FOUND [cs "x"]] /\
    trace st2 = [].
Proof. do 2 eexists. repeat split; reflexivity. Qed.

(** With the quotes the same two lines run [/bin/echo] with the arguments
    [echo], [hi], [there]. *)
Lemma quoted_alias_runs_echo :
  exists st1 st2 pid,
    execute_command bound os_echo (cs "alias x = 'echo hi'" ++ [NEWLINE]) started =
      Ret EXIT_SUCCESS st1 /\
    execute_command bound os_echo (cs "x there" ++ [NEWLINE]) st1 =
      Ret EXIT_SUCCESS st2 /\
    trace st2 = [EvFork pid (CExec (cs "/bin/echo") [cs "echo"; cs "hi"; cs "there"]);
                 EvWait pid (WaitExited 0)].
Proof. do 3 eexists. repeat split; reflexivity. Qed.

End AliasFacts.

(** ** Rejected pipelines *)

Module PipeFacts.

Import Cstr CstrFacts HashMap Wsh Spec Runs TokenizerFacts AliasFacts.

Lemma pipe_fields_from_unfold (s : cstring) :
  forall cur,
    pipe_fields_from cur s =
    match strchr s PIPE with
    | Some (a, b) => (cur ++ a) :: pipe_fields b
    | None => [cur ++ s]
    end.
Proof.
  induction s as [|c s IH]; intros cur; simpl.
  - now rewrite app_nil_r.
  - destruct (Ascii.eqb c PIPE).
    + now rewrite app_nil_r.
    + rewrite IH. destruct (strchr s PIPE) as [[a b]|];
        now rewrite <- app_assoc.
Qed.

(** The segments of a line, read off [strchr] as the splitting loop does. *)
Lemma pipe_fields_unfold (s : cstring) :
  pipe_fields s =
  match strchr s PIPE with
  | Some (a, b) => a :: pipe_fields b
  | None => [s]
  end.
Proof. unfold pipe_fields at 1. now rewrite pipe_fields_from_unfold. Qed.

Lemma pipe_fields_length (s : cstring) : 0 < length (pipe_fields s).
Proof.
  rewrite pipe_fields_unfold. destruct (strchr s PIPE) as [[a b]|]; simpl; lia.
Qed.

Lemma only_spaces_blank (seg : cstring) :
  only_spaces seg = true -> blank seg = true.
Proof.
  intros H. unfold blank.
  assert (E : skip SPACE seg = []).
  { apply skip_all. apply Forall_forall. intros x Hx.
    unfold only_spaces in H. rewrite forallb_forall in H.
    symmetry. apply Ascii.eqb_eq. now apply H. }
  now rewrite E.
Qed.

Lemma chomp_cases (s : cstring) :
  chomp s = s \/ exists l, s = l ++ [NEWLINE] /\ chomp s = l.
Proof.
  unfold chomp. destruct (rev s) as [|c r] eqn:E.
  - left. apply (f_equal (@rev ascii)) in E. now rewrite rev_involutive in E.
  - destruct (Ascii.eqb c NEWLINE) eqn:Ec; [|now left].
    right. exists (rev r). split; [|reflexivity].
    apply Ascii.eqb_eq in Ec. subst c.
    apply (f_equal (@rev ascii)) in E. now rewrite rev_involutive in E.
Qed.

Lemma empty_last_blank (seg : cstring) :
  only_spaces (chomp seg) = true -> blank_last seg = true.
Proof.
  intros H. destruct (chomp_cases seg) as [E|[l [E1 E2]]].
  - rewrite E in H. apply only_spaces_blank in H. unfold blank in H.
    unfold blank_last. now destruct (skip SPACE seg).
  - rewrite E2 in H. apply only_spaces_blank in H. unfold blank in H.
    unfold blank_last. subst seg. rewrite skip_app.
    destruct (skip SPACE l); [reflexivity|discriminate].
Qed.

Section Bound.

Variable MAX_ARGS : nat.

Lemma split_loop_S (f : nat) (s : cstring) (segs : list cstring) :
  split_loop MAX_ARGS (S f) s segs =
  match strchr s PIPE with
  | Some (seg, rest) =>
      if (length segs <? MAX_ARGS)%nat
      then if blank seg then Some SplitEmpty
           else split_loop MAX_ARGS f rest (segs ++ [seg])
      else Some (SplitOk segs)
  | None =>
      if (length segs <? MAX_ARGS)%nat
      then if blank_last s then Some SplitEmpty
           else Some (SplitOk (segs ++ [s]))
      else Some (SplitOk segs)
  end.
Proof. reflexivity. Qed.

(** The splitting loop ends: the fuel given by [split_segments] is never
    used up. *)
Lemma split_loop_total (f : nat) :
  forall (s : cstring) (segs : list cstring),
    length s < f -> exists r, split_loop MAX_ARGS f s segs = Some r.
Proof.
  induction f as [|f IH]; intros s segs H; [lia|].
  rewrite split_loop_S.
  destruct (strchr s PIPE) as [[a b]|] eqn:E.
  - destruct (length segs <? MAX_ARGS)%nat; [|eauto].
    destruct (blank a); [eauto|].
    apply strchr_length in E. apply IH. lia.
  - destruct (length segs <? MAX_ARGS)%nat; [|eauto].
    destruct (blank_last s); eauto.
Qed.

Lemma split_segments_eq (line : cstring) :
  split_loop MAX_ARGS (S (length line)) line [] = Some (split_segments MAX_ARGS line).
Proof.
  unfold split_segments.
  destruct (split_loop_total (S (length line)) line []) as [r Hr]; [lia|].
  now rewrite Hr.
Qed.

(** An empty segment among the first [MAX_ARGS] stops the splitting loop. *)
Lemma split_finds_empty (f : nat) :
  forall (s : cstring) (segs : list cstring) (i : nat) (seg : cstring),
    length s < f ->
    nth_error (pipe_fields s) i = Some seg ->
    length segs + i < MAX_ARGS ->
    empty_segment (S i =? length (pipe_fields s))%nat seg = true ->
    split_loop MAX_ARGS f s segs = Some SplitEmpty.
Proof.
  induction f as [|f IH]; intros s segs i seg Hf Hn Hi He; [lia|].
  rewrite split_loop_S. rewrite pipe_fields_unfold in Hn, He.
  assert (Hlt : (length segs <? MAX_ARGS)%nat = true) by (apply Nat.ltb_lt; lia).
  rewrite Hlt.
  destruct (strchr s PIPE) as [[a b]|] eqn:E.
  - destruct i as [|i].
    + simpl in Hn. injection Hn as ->.
      pose proof (pipe_fields_length b) as Hl. simpl length in He.
      destruct (length (pipe_fields b)) as [|n] eqn:El; [lia|].
      simpl in He. unfold empty_segment in He.
      now rewrite (only_spaces_blank _ He).
    + destruct (blank a); [reflexivity|].
      apply (IH b (segs ++ [a]) i seg).
      * apply strchr_length in E. lia.
      * exact Hn.
      * rewrite length_app. simpl. lia.
      * exact He.
  - destruct i as [|i]; [|destruct i; discriminate].
    simpl in Hn. injection Hn as ->. simpl in He. unfold empty_segment in He.
    now rewrite (empty_last_blank _ He).
Qed.

(** When the loop succeeds, each of the first [MAX_ARGS] segments of the
    line is in the array at its position. *)
Lemma split_keeps_fields (f : nat) :
  forall (s : cstring) (segs out : list cstring),
    split_loop MAX_ARGS f s segs = Some (SplitOk out) ->
    forall (i : nat) (seg : cstring),
      nth_error (pipe_fields s) i = Some seg ->
      length segs + i < MAX_ARGS ->
      nth_error out (length segs + i) = Some seg.
Proof.
  assert (Hpre : forall g s segs out,
             split_loop MAX_ARGS g s segs = Some (SplitOk out) ->
             exists more, out = segs ++ more).
  { induction g as [|g IH]; intros s segs out H; [simpl in H; discriminate|].
    rewrite split_loop_S in H.
    destruct (strchr s PIPE) as [[a b]|];
      destruct (length segs <? MAX_ARGS)%nat.
    - destruct (blank a); [discriminate|].
      apply IH in H as [more ->]. exists ([a] ++ more). now rewrite app_assoc.
    - injection H as <-. exists []. now rewrite app_nil_r.
    - destruct (blank_last s); [discriminate|]. injection H as <-. eauto.
    - injection H as <-. exists []. now rewrite app_nil_r. }
  induction f as [|f IH]; intros s segs out H i seg Hn Hi; [simpl in H; discriminate|].
  rewrite split_loop_S in H. rewrite pipe_fields_unfold in Hn.
  assert (Hlt : (length segs <? MAX_ARGS)%nat = true) by (apply Nat.ltb_lt; lia).
  rewrite Hlt in H.
  destruct (strchr s PIPE) as [[a b]|] eqn:E.
  - destruct (blank a); [discriminate|].
    destruct i as [|i].
    + simpl in Hn. injection Hn as ->.
      apply Hpre in H as [more ->]. rewrite Nat.add_0_r, <- app_assoc.
      rewrite nth_error_app2 by lia. now rewrite Nat.sub_diag.
    + simpl in Hn.
      replace (length segs + S i) with (length (segs ++ [a]) + i)
        by (rewrite length_app; simpl; lia).
      apply (IH b (segs ++ [a]) out H i seg Hn).
      rewrite length_app. simpl. lia.
  - destruct (blank_last s); [discriminate|]. injection H as <-.
    destruct i as [|i]; [|destruct i; discriminate].
    simpl in Hn. injection Hn as ->. rewrite Nat.add_0_r.
    rewrite nth_error_app2 by lia. now rewrite Nat.sub_diag.
Qed.

Variable sys : os.

(** The three ways in which the check of one segment ends: undefined
    behaviour; an error, with the pipeline abandoned; or success, with the
    state as it was. *)
Lemma validate_segment_cases (seg : cstring) (st : shell) :
  (exists f s, validate_segment MAX_ARGS sys seg st = Crash f s) \/
  (exists st' msgs,
      validate_segment MAX_ARGS sys seg st = Ret None st' /\
      rc st' = EXIT_FAILURE /\ trace st' = trace st /\
      err st' = err st ++ msgs /\ msgs <> []) \/
  (exists seg',
      validate_segment MAX_ARGS sys seg st = Ret (Some seg') st /\
      unresolvable MAX_ARGS sys st seg = false).
Proof.
  unfold validate_segment, unresolvable, segment_command, parseline_no_subst.
  destruct (tokenize MAX_ARGS seg) as [[|c args]| |].
  - right. left. exists (set_rc EXIT_FAILURE (add_err (Msg EMPTY_PIPE_SEGMENT []) st)),
      [Msg EMPTY_PIPE_SEGMENT []]. repeat split. discriminate.
  - cbv [bind ret get]. destruct (hm_get (alias_hm st) c) as [alias_cmd|].
    + cbv [bind ret get].
      destruct (tokenize MAX_ARGS (alias_subst alias_cmd (c :: args)))
        as [[|c' args']| |].
      * left. do 2 eexists. reflexivity.
      * cbv [bind ret get].
        destruct (lookup_builtin builtins c'); [right; right; eauto|].
        destruct (find_executable_path sys st c'); [right; right; eauto|].
        right. left.
        exists (set_rc EXIT_FAILURE (add_err (Msg CMD_NOT_FOUND [c']) st)),
          [Msg CMD_NOT_FOUND [c']]. repeat split. discriminate.
      * left. do 2 eexists. reflexivity.
      * left. do 2 eexists. reflexivity.
    + destruct (lookup_builtin builtins c); [right; right; eauto|].
      destruct (find_executable_path sys st c); [right; right; eauto|].
      right. left.
      exists (set_rc EXIT_FAILURE (add_err (Msg CMD_NOT_FOUND [c]) st)),
        [Msg CMD_NOT_FOUND [c]]. repeat split. discriminate.
  - right. left.
    exists (set_rc EXIT_FAILURE
              (add_err (Msg EMPTY_PIPE_SEGMENT [])
                 (set_rc EXIT_FAILURE (add_err (Msg MISSING_CLOSING_QUOTE []) st)))),
      [Msg MISSING_CLOSING_QUOTE []; Msg EMPTY_PIPE_SEGMENT []].
    repeat split.
    + cbn. now rewrite <- app_assoc.
    + discriminate.
  - left. do 2 eexists. reflexivity.
Qed.

(** A segment whose head cannot be resolved stops the pre-validation loop,
    unless the loop runs into undefined behaviour first. *)
Lemma prevalidate_abort (todo : list cstring) :
  forall (done : list cstring) (st : shell) (i : nat) (seg : cstring),
    nth_error todo i = Some seg ->
    unresolvable MAX_ARGS sys st seg = true ->
    (forall f s, prevalidate MAX_ARGS sys todo done st <> Crash f s) ->
    exists st' msgs,
      prevalidate MAX_ARGS sys todo done st = Ret None st' /\
      rc st' = EXIT_FAILURE /\ trace st' = trace st /\
      err st' = err st ++ msgs /\ msgs <> [].
Proof.
  induction todo as [|seg0 rest IH]; intros done st i seg Hn Hu Hc.
  - destruct i; discriminate.
  - cbn [prevalidate] in Hc |- *. unfold bind in Hc |- *.
    destruct (validate_segment_cases seg0 st)
      as [[f [s E]]|[[st' [msgs [E H]]]|[seg' [E Hok]]]];
      rewrite E in Hc |- *.
    + exfalso. now apply (Hc f s).
    + exists st', msgs. split; [reflexivity|exact H].
    + destruct i as [|i].
      * simpl in Hn. injection Hn as ->. congruence.
      * apply (IH _ st i seg); assumption.
Qed.

End Bound.

Lemma unresolvable_history (MAX_ARGS : nat) (sys : os) (h : DynamicArray.t)
      (st : shell) (seg : cstring) :
  unresolvable MAX_ARGS sys (set_history_da h st) seg =
  unresolvable MAX_ARGS sys st seg.
Proof. reflexivity. Qed.

(** C2 (amended): on a line that contains a pipe character, if one of the
    first [MAX_ARGS] segments is empty, or if one of them has a head token
    that after alias resolution is neither a builtin nor a resolvable
    executable and the run does not meet undefined behaviour in checking the
    segments before it, then the line is abandoned: the dispatcher returns
    failure, an error is written, the return code is failure and no process
    management call is made. *)
Theorem bad_segment_aborts_pipeline (MAX_ARGS : nat) (sys : os)
        (line : cstring) (st : shell) (i : nat) (seg : cstring) :
  contains line PIPE = true ->
  nth_error (pipe_fields line) i = Some seg ->
  (i <? MAX_ARGS)%nat = true ->
  (empty_segment (is_last_field line i) seg = true \/
   (unresolvable MAX_ARGS sys st seg = true /\
    forall f s, execute_command MAX_ARGS sys line st <> Crash f s)) ->
  exists st' msgs,
    execute_command MAX_ARGS sys line st = Ret EXIT_FAILURE st' /\
    rc st' = EXIT_FAILURE /\
    trace st' = trace st /\
    err st' = err st ++ msgs /\ msgs <> [].
Proof.
  intros Hp Hn Hi Hbad. apply Nat.ltb_lt in Hi.
  unfold execute_command in *. unfold bind in *.
  destruct (record_history_run line st) as [h Eh]. rewrite Eh in *.
  rewrite Hp in *. unfold execute_pipe_line in *.
  pose proof (split_segments_eq MAX_ARGS line) as Es.
  assert (Hempty : split_segments MAX_ARGS line = SplitEmpty ->
                   exists st' msgs,
                     ((wsh_warn EMPTY_PIPE_SEGMENT [] ;;; ret EXIT_FAILURE)
                        (set_history_da h st) : result Z) = Ret EXIT_FAILURE st' /\
                     rc st' = EXIT_FAILURE /\ trace st' = trace st /\
                     err st' = err st ++ msgs /\ msgs <> []).
  { intros _. do 2 eexists. split; [reflexivity|]. cbn.
    repeat split. discriminate. }
  destruct Hbad as [He|[Hu Hc]].
  - rewrite (split_finds_empty MAX_ARGS _ line [] i seg (Nat.lt_succ_diag_r _)
               Hn Hi He) in Es.
    injection Es as Es. rewrite <- Es in *. now apply Hempty.
  - destruct (split_segments MAX_ARGS line) as [|out] eqn:Eo;
      [now apply Hempty|].
    pose proof (split_keeps_fields MAX_ARGS _ line [] out Es i seg Hn Hi) as Ho.
    simpl in Ho. unfold bind in *.
    destruct (prevalidate_abort MAX_ARGS sys out [] (set_history_da h st) i seg Ho)
      as [st' [msgs [E H]]].
    + now rewrite unresolvable_history.
    + intros f s E. rewrite E in Hc. now apply (Hc f s).
    + rewrite E. exists st', msgs. split; [reflexivity|exact H].
Qed.

(** The spec's example [echo a | | echo b]: its second segment is empty. *)
Lemma bad_segment_aborts_pipeline_witness :
  exists st' msgs,
    execute_command bound os_echo (cs "echo a | | echo b" ++ [NEWLINE]) started =
      Ret EXIT_FAILURE st' /\
    rc st' = EXIT_FAILURE /\
    trace st' = trace started /\
    err st' = err started ++ msgs /\ msgs <> [].
Proof.
  apply (bad_segment_aborts_pipeline bound os_echo
           (cs "echo a | | echo b" ++ [NEWLINE]) started 1 (cs " "));
    [reflexivity|reflexivity|reflexivity|left; reflexivity].
Defined.

(** A segment that names no command: [ls | nosuch] is abandoned as well. *)
Lemma unknown_command_aborts_pipeline :
  unresolvable bound os_echo started (cs " nosuch" ++ [NEWLINE]) = true /\
  exists st',
    execute_command bound os_echo (cs "ls | nosuch" ++ [NEWLINE]) started =
      Ret EXIT_FAILURE st' /\
    err st' = [Msg CMD_NOT_FOUND [cs "nosuch"]] /\ trace st' = [].
Proof. split; [reflexivity|]. eexists. repeat split; reflexivity. Qed.

Import PipelineFacts.

(** *** Lines longer than the segment array, for every bound *)

Lemma pipes_S (k : nat) :
  pipes (S k) = "l"%char :: "s"%char :: PIPE :: pipes k.
Proof. reflexivity. Qed.

Lemma pipes_length (k : nat) : length (pipes k) = 3 * k.
Proof. induction k as [|k IH]; [reflexivity|]. rewrite pipes_S. simpl. lia. Qed.

Section Bound.

Variable MAX_ARGS : nat.

(** The loop takes the segments that fit and drops what follows the last
    pipe character it has room for. *)
Lemma split_pipes (k : nat) :
  forall (segs : list cstring) (f : nat),
    length segs + k = MAX_ARGS ->
    length (pipes k ++ [NEWLINE]) < f ->
    split_loop MAX_ARGS f (pipes k ++ [NEWLINE]) segs =
    Some (SplitOk (segs ++ repeat (cs "ls") k)).
Proof.
  induction k as [|k IH]; intros segs f Hl Hf.
  - destruct f as [|f]; [simpl in Hf; lia|]. rewrite split_loop_S. simpl.
    assert (E : (length segs <? MAX_ARGS)%nat = false) by (apply Nat.ltb_ge; lia).
    rewrite E. now rewrite app_nil_r.
  - destruct f as [|f]; [simpl in Hf; lia|]. rewrite split_loop_S.
    rewrite pipes_S.
    change (strchr (("l"%char :: "s"%char :: PIPE :: pipes k) ++ [NEWLINE]) PIPE)
      with (Some (cs "ls", pipes k ++ [NEWLINE])).
    cbv iota beta.
    assert (E : (length segs <? MAX_ARGS)%nat = true) by (apply Nat.ltb_lt; lia).
    rewrite E. change (blank (cs "ls")) with false. cbv iota.
    rewrite IH.
    + rewrite <- app_assoc. reflexivity.
    + rewrite length_app. simpl. lia.
    + rewrite pipes_S in Hf. simpl in Hf. lia.
Qed.

End Bound.

Section Run.

Variable n : nat.
Variable sys : os.

Lemma validate_ls (st : shell) :
  hm_get (alias_hm st) (cs "ls") = None ->
  find_executable_path sys st (cs "ls") <> None ->
  validate_segment (S n) sys (cs "ls") st = Ret (Some (cs "ls")) st.
Proof.
  intros Ha Hf. unfold validate_segment, parseline_no_subst.
  change (tokenize (S n) (cs "ls")) with (Tokens [cs "ls"]).
  cbv [bind ret get]. rewrite Ha.
  change (lookup_builtin builtins (cs "ls")) with (@None builtin).
  cbv [bind ret get]. cbv beta iota.
  destruct (find_executable_path sys st (cs "ls")); [reflexivity|contradiction].
Qed.

Lemma prevalidate_ls (k : nat) (st : shell) :
  hm_get (alias_hm st) (cs "ls") = None ->
  find_executable_path sys st (cs "ls") <> None ->
  forall done,
    prevalidate (S n) sys (repeat (cs "ls") k) done st =
    Ret (Some (done ++ repeat (cs "ls") k)) st.
Proof.
  intros Ha Hf. induction k as [|k IH]; intros done.
  - simpl. unfold ret. now rewrite app_nil_r.
  - change (repeat (cs "ls") (S k)) with (cs "ls" :: repeat (cs "ls") k).
    cbn [prevalidate]. unfold bind. rewrite (validate_ls st Ha Hf), IH.
    now rewrite <- app_assoc.
Qed.

(** Whatever the bound, a line of more segments than the bound runs its
    first segments although its last segment is empty: the system calls
    succeed, so a process is created. *)
Lemma segments_past_any_bound_not_checked (st : shell) :
  hm_get (alias_hm st) (cs "ls") = None ->
  find_executable_path sys st (cs "ls") <> None ->
  (forall tr, os_pipe sys tr <> None) ->
  (forall tr, os_fork sys tr <> None) ->
  nth_error (pipe_fields (pipes (S n) ++ [NEWLINE])) (S n) = Some [NEWLINE] /\
  exists r st' new,
    execute_command (S n) sys (pipes (S n) ++ [NEWLINE]) st = Ret r st' /\
    trace st' = trace st ++ new /\
    spawned new <> [].
Proof.
  intros Ha Hf Hp Hk. split.
  - clear. generalize (S n). intros k. induction k as [|k IH]; [reflexivity|].
    rewrite pipes_S. rewrite pipe_fields_unfold.
    change (strchr (("l"%char :: "s"%char :: PIPE :: pipes k) ++ [NEWLINE]) PIPE)
      with (Some (cs "ls", pipes k ++ [NEWLINE])).
    exact IH.
  - unfold execute_command. unfold bind at 1.
    destruct (record_history_run (pipes (S n) ++ [NEWLINE]) st) as [h Eh].
    rewrite Eh.
    change (contains (pipes (S n) ++ [NEWLINE]) PIPE) with true. cbv iota.
    unfold execute_pipe_line.
    assert (Esp : split_segments (S n) (pipes (S n) ++ [NEWLINE]) =
                  SplitOk (repeat (cs "ls") (S n))).
    { pose proof (split_segments_eq (S n) (pipes (S n) ++ [NEWLINE])) as Es.
      rewrite (split_pipes (S n) (S n) []) in Es by (simpl; lia).
      change ([] ++ repeat (cs "ls") (S n)) with (repeat (cs "ls") (S n)) in Es.
      congruence. }
    rewrite Esp. unfold bind at 1.
    rewrite (prevalidate_ls (S n) (set_history_da h st) Ha Hf).
    change ([] ++ repeat (cs "ls") (S n)) with (repeat (cs "ls") (S n)).
    destruct (execute_pipeline_run (S n) sys (repeat (cs "ls") (S n))
                (set_history_da h st))
      as [r [st' [new [E [Ht [H|H]]]]]].
    + destruct H as [_ [_ [_ [_ [_ [tr [H|H]]]]]]]; exfalso.
      * now apply (Hp tr).
      * now apply (Hk tr).
    + exists r, st', new. split; [exact E|]. split; [exact Ht|].
      destruct H as [_ [_ [pids [pid_last [before [after H]]]]]].
      cbv zeta in H. destruct H as [Hs _]. rewrite Hs.
      intros H0. apply app_eq_nil in H0 as [_ H0]. discriminate.
Qed.

End Run.

(** C2 (as stated) fails: the splitting loop stops after [MAX_ARGS] segments
    and drops the rest of the line unchecked.  The line of [long_pipeline]
    ends in a pipe character, so its last segment is empty, yet the pipeline
    of the first [bound] segments is run: [bound] processes are created and
    no error is reported.  ([segments_past_any_bound_not_checked] has the
    same for every bound.) *)
Lemma segments_past_bound_not_checked :
  contains long_pipeline PIPE = true /\
  nth_error (pipe_fields long_pipeline) bound = Some [NEWLINE] /\
  is_last_field long_pipeline bound = true /\
  empty_segment true [NEWLINE] = true /\
  exists st',
    execute_command bound os_echo long_pipeline started = Ret EXIT_SUCCESS st' /\
    length (spawned (trace st')) = bound /\
    err st' = [] /\ rc st' = EXIT_SUCCESS.
Proof.
  split; [vm_compute; reflexivity|].
  split; [vm_compute; reflexivity|].
  split; [vm_compute; reflexivity|].
  split; [vm_compute; reflexivity|].
  eexists.
  split; [vm_compute; reflexivity|].
  split; [vm_compute; reflexivity|].
  split; vm_compute; reflexivity.
Qed.

End PipeFacts.

(** ** The history listing *)

Module HistoryFacts.

Import Cstr CstrFacts HashMap DynamicArray Wsh Spec Runs TokenizerFacts AliasFacts
       PipeFacts.

(** The listing goes past the stored entries exactly when there is none. *)
Lemma da_print_none (da : DynamicArray.t) : da_print da = None <-> da = [].
Proof.
  unfold da_print, print_bound. split.
  - destruct da as [|x da]; [reflexivity|]. intros H. exfalso.
    destruct (_ <=? _)%Z eqn:E; [discriminate|].
    apply Z.leb_gt in E. simpl length in E.
    assert (0 <= Z.of_nat (S (length da)) - 1)%Z by lia.
    pose proof (Z.mod_le (Z.of_nat (S (length da)) - 1) (2 ^ 64)). lia.
  - intros ->. reflexivity.
Qed.

Lemma history_overread_iff (st : shell) :
  wsh_history [cs "history"] st = Crash HistoryOverread st <-> history_da st = [].
Proof.
  unfold wsh_history. cbn [length Nat.ltb Nat.leb Nat.eqb]. cbv [bind get].
  destruct (da_print (history_da st)) as [lines|] eqn:E.
  - split; [discriminate|]. intros H. apply da_print_none in H. congruence.
  - split; [|reflexivity]. intros _. now apply da_print_none.
Qed.

(** *** Changes of the state that keep the history ready *)

Lemma ready_set_rc (v : Z) (st : shell) :
  history_ready st -> history_ready (set_rc v st).
Proof. intros H. exact H. Qed.

Lemma ready_add_err (o : output) (st : shell) :
  history_ready st -> history_ready (add_err o st).
Proof. intros H. exact H. Qed.

Lemma ready_add_out (o : output) (st : shell) :
  history_ready st -> history_ready (add_out o st).
Proof. intros H. exact H. Qed.

Lemma ready_set_alias_hm (m : HashMap.t) (st : shell) :
  history_ready st -> history_ready (set_alias_hm m st).
Proof. intros H. exact H. Qed.

Lemma ready_set_path_env (p : option cstring) (st : shell) :
  history_ready st -> history_ready (set_path_env p st).
Proof. intros H. exact H. Qed.

Lemma ready_add_event (e : event) (st : shell) :
  (forall pid, e <> EvFork pid (CCrash HistoryOverread)) ->
  history_ready st -> history_ready (add_event e st).
Proof.
  intros He [H1 H2]. split; [exact H1|].
  intros pid Hin. cbn [trace add_event] in Hin.
  apply in_app_or in Hin as [Hin|[Hin|[]]].
  - now apply (H2 pid).
  - now apply (He pid).
Qed.

Lemma ready_print (l : list cstring) :
  forall st, history_ready st ->
             history_ready (fold_left (fun s x => add_out (Text x) s) l st).
Proof.
  induction l as [|x l IH]; intros st H; simpl; [exact H|].
  apply IH. now apply ready_add_out.
Qed.

Create HintDb ready.

#[local] Hint Resolve ready_set_rc ready_add_err ready_add_out ready_set_alias_hm
  ready_set_path_env ready_print : ready.

(** *** Rules for code that keeps the history ready *)

Lemma keeps_ret {A : Type} (a : A) : keeps_ready (ret a).
Proof. intros st H. exact H. Qed.

Lemma keeps_bind {A B : Type} (m : M A) (k : A -> M B) :
  keeps_ready m -> (forall a, keeps_ready (k a)) -> keeps_ready (bind m k).
Proof.
  intros Hm Hk st H. unfold bind. specialize (Hm st H).
  destruct (m st) as [a s|c s|f s]; [|exact Hm|exact Hm].
  now apply Hk.
Qed.

(** Code that reads the state may rely on the state being ready. *)
Lemma keeps_get_bind {B : Type} (k : shell -> M B) :
  (forall st, history_ready st ->
              match k st st with
              | Ret _ s => history_ready s
              | Exit _ s => history_ready s
              | Crash f s => f <> HistoryOverread /\ history_ready s
              end) ->
  keeps_ready (bind get k).
Proof. intros Hk st H. unfold bind, get. now apply Hk. Qed.

Lemma keeps_get : keeps_ready get.
Proof. intros st H. exact H. Qed.

Lemma keeps_modify (f : shell -> shell) :
  (forall st, history_ready st -> history_ready (f st)) -> keeps_ready (modify f).
Proof. intros Hf st H. unfold modify. now apply Hf. Qed.

Lemma keeps_crash {A : Type} (f : fault) :
  f <> HistoryOverread -> keeps_ready (@crash A f).
Proof. intros Hf st H. unfold crash. auto. Qed.

Lemma keeps_exit {A : Type} (code : Z) : keeps_ready (@exit_process A code).
Proof. intros st H. exact H. Qed.

Lemma keeps_clean_exit {A : Type} (code : Z) : keeps_ready (@clean_exit A code).
Proof. intros st H. exact H. Qed.

Lemma keeps_warn (m : message) (args : list cstring) : keeps_ready (wsh_warn m args).
Proof. apply keeps_modify. auto with ready. Qed.

Lemma keeps_perror (what : string) : keeps_ready (perror what).
Proof. apply keeps_modify. auto with ready. Qed.

Lemma keeps_print_lines (l : list cstring) : keeps_ready (print_lines l).
Proof. apply keeps_modify. auto with ready. Qed.

Lemma keeps_arg (argv : list cstring) (i : nat) : keeps_ready (arg argv i).
Proof.
  unfold arg. destruct (nth_error argv i); [apply keeps_ret|].
  destruct (i =? length argv)%nat; apply keeps_crash; discriminate.
Qed.

Lemma keeps_event (e : event) :
  (forall pid, e <> EvFork pid (CCrash HistoryOverread)) ->
  keeps_ready (modify (add_event e)).
Proof. intros He. apply keeps_modify. intros st. now apply ready_add_event. Qed.

Lemma keeps_sys_kill (pid : Z) : keeps_ready (sys_kill pid).
Proof. apply keeps_event. discriminate. Qed.

Lemma keeps_sys_close (fd : Z) : keeps_ready (sys_close fd).
Proof. apply keeps_event. discriminate. Qed.

#[local] Hint Resolve keeps_ret keeps_get keeps_exit keeps_clean_exit keeps_warn
  keeps_perror keeps_print_lines keeps_arg keeps_sys_kill keeps_sys_close : ready.

(** The steps that take a goal [keeps_ready m] apart along the code of [m]. *)
Ltac keeps_step :=
  match goal with
  | |- keeps_ready (bind _ _) => apply keeps_bind; [|intros]
  | |- keeps_ready (crash _) => apply keeps_crash; discriminate
  | |- keeps_ready (modify _) => apply keeps_modify; intros; auto with ready
  | |- keeps_ready (if ?b then _ else _) => destruct b
  | |- keeps_ready (match ?x with _ => _ end) => destruct x
  | |- keeps_ready (let '(_, _) := ?x in _) => destruct x
  | |- keeps_ready _ => solve [auto with ready]
  end.

Ltac keeps := repeat keeps_step.

Section Sys.

Variable MAX_ARGS : nat.
Variable sys : os.

Lemma keeps_sys_pipe : keeps_ready (sys_pipe sys).
Proof.
  intros st H. unfold sys_pipe. apply ready_add_event; [discriminate|exact H].
Qed.

Lemma keeps_sys_waitpid (pid : Z) : keeps_ready (sys_waitpid sys pid).
Proof.
  intros st H. unfold sys_waitpid. apply ready_add_event; [discriminate|exact H].
Qed.

Lemma keeps_sys_chdir (dir : cstring) : keeps_ready (sys_chdir sys dir).
Proof.
  intros st H. unfold sys_chdir. apply ready_add_event; [discriminate|exact H].
Qed.

Lemma keeps_sys_fork (child : child_outcome) :
  child <> CCrash HistoryOverread -> keeps_ready (sys_fork sys child).
Proof.
  intros Hc st H. unfold sys_fork. destruct (os_fork sys (trace st)).
  - apply ready_add_event; [|exact H]. intros pid E. injection E as _ E. auto.
  - apply ready_add_event; [discriminate|exact H].
Qed.

Lemma keeps_kill_all (pids : list Z) : keeps_ready (kill_all pids).
Proof. induction pids as [|p pids IH]; simpl; keeps. Qed.

#[local] Hint Resolve keeps_sys_pipe keeps_sys_waitpid keeps_sys_chdir
  keeps_kill_all : ready.

Lemma keeps_parseline (cmdline : cstring) :
  keeps_ready (parseline_no_subst MAX_ARGS cmdline).
Proof. unfold parseline_no_subst. keeps. Qed.

Lemma keeps_wsh_exit (argv : list cstring) : keeps_ready (wsh_exit argv).
Proof. unfold wsh_exit. keeps. Qed.

(** The listing itself: with a history entry it stays inside the array. *)
Lemma keeps_wsh_history (argv : list cstring) : keeps_ready (wsh_history argv).
Proof.
  unfold wsh_history.
  destruct (2 <? length argv)%nat; [keeps|].
  destruct (length argv =? 1)%nat.
  - apply keeps_get_bind. intros st H.
    destruct (da_print (history_da st)) as [lines|] eqn:E.
    + apply (keeps_bind (print_lines lines) (fun _ => ret EXIT_SUCCESS));
        auto with ready.
    + apply da_print_none in E. destruct H as [H _]. contradiction.
  - apply keeps_bind; [auto with ready|]. intros a.
    destruct (strtol a) as [n endptr].
    destruct (_ || _); [keeps|].
    apply keeps_bind; [auto with ready|]. intros s. keeps.
Qed.

Lemma keeps_wsh_alias (argv : list cstring) : keeps_ready (wsh_alias argv).
Proof. unfold wsh_alias. keeps. Qed.

Lemma keeps_wsh_unalias (argv : list cstring) : keeps_ready (wsh_unalias argv).
Proof. unfold wsh_unalias. keeps. Qed.

Lemma keeps_wsh_which (argv : list cstring) : keeps_ready (wsh_which sys argv).
Proof. unfold wsh_which. keeps. Qed.

Lemma keeps_wsh_path (argv : list cstring) : keeps_ready (wsh_path argv).
Proof. unfold wsh_path. keeps. Qed.

Lemma keeps_wsh_cd (argv : list cstring) : keeps_ready (wsh_cd sys argv).
Proof. unfold wsh_cd. keeps. Qed.

Lemma keeps_run_builtin (b : builtin) (argv : list cstring) :
  keeps_ready (run_builtin sys b argv).
Proof.
  destruct b; simpl;
    auto using keeps_wsh_exit, keeps_wsh_history, keeps_wsh_alias,
      keeps_wsh_unalias, keeps_wsh_which, keeps_wsh_path, keeps_wsh_cd.
Qed.

Lemma keeps_sys_execv (path : cstring) (argv : list cstring) :
  keeps_ready (sys_execv sys path argv).
Proof. unfold sys_execv. keeps. Qed.

#[local] Hint Resolve keeps_sys_execv : ready.

Lemma keeps_fork_and_wait (c full_path : cstring) (argv : list cstring) :
  keeps_ready (fork_and_wait sys c full_path argv).
Proof.
  unfold fork_and_wait. apply keeps_bind; [auto with ready|]. intros s.
  apply keeps_bind.
  - apply keeps_sys_fork. rewrite ExitFacts.external_child_ends.
    destruct (os_execv sys (trace s) full_path argv); discriminate.
  - intros pid. keeps.
Qed.

Lemma keeps_execute_external_command (argv : list cstring) :
  keeps_ready (execute_external_command sys argv).
Proof.
  unfold execute_external_command. destruct argv as [|c argv]; [keeps|].
  apply keeps_bind; [auto with ready|]. intros s.
  destruct (is_path_name c).
  - destruct (os_access sys (trace s) c); [apply keeps_fork_and_wait|keeps].
  - destruct (find_executable_path sys s c); [apply keeps_fork_and_wait|keeps].
Qed.

#[local] Hint Resolve keeps_parseline keeps_run_builtin
  keeps_execute_external_command : ready.

Lemma keeps_redirect (what : string) (fd std : Z) :
  keeps_ready (redirect sys what fd std).
Proof. unfold redirect. keeps. Qed.

#[local] Hint Resolve keeps_redirect : ready.

Lemma keeps_execute_segment (seg : cstring) (in_fd out_fd : Z) :
  keeps_ready (execute_segment MAX_ARGS sys seg in_fd out_fd).
Proof. unfold execute_segment. keeps. Qed.

(** A child created from a ready state does not list past the history. *)
Lemma child_ready {m : M (cstring * list cstring)} (st : shell) :
  keeps_ready m -> history_ready st -> child_of (m st) <> CCrash HistoryOverread.
Proof.
  intros Hm H. specialize (Hm st H). unfold child_of.
  destruct (m st) as [[p a] s|c s|f s]; try discriminate.
  intros E. injection E as E. now destruct Hm.
Qed.

Lemma keeps_spawn_loop (segs : list cstring) :
  forall (prev : Z) (pids : list Z),
    keeps_ready (spawn_loop MAX_ARGS sys segs prev pids).
Proof.
  induction segs as [|seg rest IH]; intros prev pids; cbn [spawn_loop]; [keeps|].
  apply keeps_bind; [auto with ready|]. intros [[rfd wfd]|]; [|keeps].
  apply keeps_get_bind. intros st H.
  match goal with |- context [sys_fork sys ?c] =>
    assert (Hc : c <> CCrash HistoryOverread)
  end.
  { apply child_ready; [|exact H].
    apply keeps_bind; [auto with ready|]. intros _. apply keeps_execute_segment. }
  revert Hc. match goal with |- context [sys_fork sys ?c] => generalize c end.
  intros child Hc. revert st H.
  change (keeps_ready
            (pid <- sys_fork sys child ;;
             match pid with
             | None =>
                 perror "fork" ;;; sys_close rfd ;;; sys_close wfd ;;;
                 kill_all pids ;;; ret None
             | Some pid =>
                 sys_close wfd ;;; close_unless_stdin prev ;;;
                 spawn_loop MAX_ARGS sys rest rfd (pids ++ [pid])
             end)).
  apply keeps_bind; [now apply keeps_sys_fork|]. intros [pid|]; [|keeps].
  apply keeps_bind; [auto with ready|]. intros _.
  apply keeps_bind; [unfold close_unless_stdin; keeps|]. intros _. apply IH.
Qed.

Lemma keeps_wait_rest (pids : list Z) :
  forall all_success, keeps_ready (wait_rest sys pids all_success).
Proof.
  induction pids as [|pid rest IH]; intros all_success; cbn [wait_rest]; [keeps|].
  apply keeps_bind; [auto with ready|]. intros w.
  destruct w; [apply keeps_bind; [auto with ready|intros _]| |]; apply IH.
Qed.

Lemma keeps_collect (pid_last : Z) (pids : list Z) :
  keeps_ready (collect sys pid_last pids).
Proof.
  unfold collect. apply keeps_bind; [auto with ready|]. intros w.
  apply keeps_bind; [keeps|]. intros a. apply keeps_wait_rest.
Qed.

Lemma keeps_execute_pipeline (segments : list cstring) :
  keeps_ready (execute_pipeline MAX_ARGS sys segments).
Proof.
  unfold execute_pipeline. apply keeps_bind; [apply keeps_spawn_loop|].
  intros [[prev pids]|]; [|keeps].
  apply keeps_get_bind. intros st H.
  match goal with |- context [sys_fork sys ?c] =>
    assert (Hc : c <> CCrash HistoryOverread)
  end.
  { destruct (nth_error segments (length segments - 1)); [|discriminate].
    apply child_ready; [apply keeps_execute_segment|exact H]. }
  revert Hc. match goal with |- context [sys_fork sys ?c] => generalize c end.
  intros child Hc. revert st H.
  change (keeps_ready
            (pid_last <- sys_fork sys child ;;
             match pid_last with
             | None => perror "fork" ;;; kill_all pids ;;; ret EXIT_FAILURE
             | Some pid_last =>
                 close_unless_stdin prev ;;; collect sys pid_last pids
             end)).
  apply keeps_bind; [now apply keeps_sys_fork|]. intros [pid|]; [|keeps].
  apply keeps_bind; [unfold close_unless_stdin; keeps|]. intros _.
  apply keeps_collect.
Qed.

Lemma keeps_validate_segment (seg : cstring) :
  keeps_ready (validate_segment MAX_ARGS sys seg).
Proof. unfold validate_segment. keeps. Qed.

Lemma keeps_prevalidate (todo : list cstring) :
  forall done, keeps_ready (prevalidate MAX_ARGS sys todo done).
Proof.
  induction todo as [|seg rest IH]; intros done; cbn [prevalidate]; [keeps|].
  apply keeps_bind; [apply keeps_validate_segment|].
  intros [seg'|]; [apply IH|keeps].
Qed.

Lemma keeps_dispatch (argv : list cstring) : keeps_ready (dispatch sys argv).
Proof. unfold dispatch. keeps. Qed.

Lemma keeps_execute_single (cmdline : cstring) :
  keeps_ready (execute_single MAX_ARGS sys cmdline).
Proof.
  unfold execute_single. apply keeps_bind; [auto with ready|].
  intros [|c argv]; [keeps|].
  apply keeps_bind; [auto with ready|]. intros s.
  destruct (hm_get (alias_hm s) c); [|apply keeps_dispatch].
  apply keeps_bind; [auto with ready|].
  intros [|c' argv']; [keeps|apply keeps_dispatch].
Qed.

Lemma keeps_execute_pipe_line (cmdline : cstring) :
  keeps_ready (execute_pipe_line MAX_ARGS sys cmdline).
Proof.
  unfold execute_pipe_line. destruct (split_segments MAX_ARGS cmdline); [keeps|].
  apply keeps_bind; [apply keeps_prevalidate|].
  intros [segs|]; [apply keeps_execute_pipeline|keeps].
Qed.

End Sys.


(** *** Lines that are not recorded *)

Lemma skip_In (c x : ascii) (s : cstring) : In x (skip c s) -> In x s.
Proof.
  destruct (skip_suffix c s) as [a [E _]]. intros H. rewrite E.
  apply in_or_app. now right.
Qed.

Lemma strspn_full (s accept : cstring) :
  strspn s accept = length s -> forall x, In x s -> In x accept.
Proof.
  induction s as [|c s IH]; simpl; intros H x Hx; [contradiction|].
  destruct (existsb (Ascii.eqb c) accept) eqn:E; [|discriminate].
  destruct Hx as [<-|Hx].
  - apply existsb_exists in E as [y [Hy Ey]]. apply Ascii.eqb_eq in Ey. now subst.
  - apply IH; [lia|exact Hx].
Qed.

(** The history step either appends the line or leaves the state as it is;
    a line that is not appended holds only spaces, tabs and the newline. *)
Lemma record_history_cases (line : cstring) (st : shell) :
  record_history line st =
    Ret tt (set_history_da (da_put (history_da st) line) st) \/
  (record_history line st = Ret tt st /\
   forall x, In x line -> x = SPACE \/ x = TAB \/ x = NEWLINE).
Proof.
  unfold record_history. destruct (0 <? length line)%nat eqn:El.
  - destruct (strspn (chomp line) [SPACE; TAB] =? length (chomp line))%nat eqn:Es;
      simpl negb; cbv iota; [|now left].
    right. split; [reflexivity|]. apply Nat.eqb_eq in Es.
    intros x Hx.
    assert (Hc : In x (chomp line) -> x = SPACE \/ x = TAB \/ x = NEWLINE).
    { intros H. apply (strspn_full _ _ Es) in H. simpl in H.
      destruct H as [H|[H|[]]]; auto. }
    destruct (chomp_cases line) as [E|[l [E1 E2]]].
    + apply Hc. now rewrite E.
    + rewrite E2 in Hc. rewrite E1 in Hx.
      apply in_app_or in Hx as [Hx|[Hx|[]]]; auto.
  - right. split; [reflexivity|]. destruct line; [contradiction|discriminate].
Qed.

Section Chars.

Variable MAX_ARGS : nat.

(** Every character of a token comes from the text that was parsed. *)
Lemma parse_loop_chars (f : nat) :
  forall (argv : list cstring) (p : cstring) (out : list cstring),
    parse_loop MAX_ARGS f argv p = Some (Tokens out) ->
    forall t, In t out -> In t argv \/ forall x, In x t -> In x p.
Proof.
  induction f as [|f IH]; intros argv p out H t Ht; [simpl in H; discriminate|].
  rewrite parse_loop_S in H. destruct p as [|c p'].
  - injection H as H. apply finish_tokens in H as [-> _]. now left.
  - cbv zeta in H.
    assert (Hstep : forall tok rest q,
               (forall x, In x tok -> In x (c :: p')) ->
               (forall x, In x rest -> In x (c :: p')) ->
               parse_loop MAX_ARGS f (argv ++ [tok]) (skip SPACE rest) = Some (Tokens q) ->
               In t q -> In t argv \/ forall x, In x t -> In x (c :: p')).
    { intros tok rest q Htok Hrest Hq Hin.
      destruct (IH _ _ _ Hq t Hin) as [Ha|Hx].
      - apply in_app_or in Ha as [Ha|[<-|[]]]; auto.
      - right. intros x Hxt. apply Hrest. eapply skip_In. eauto. }
    destruct (Ascii.eqb c QUOTE).
    + destruct (strchr p' QUOTE) as [[tok rest]|] eqn:E; [|discriminate].
      destruct (length argv <=? MAX_ARGS)%nat; [|discriminate].
      apply strchr_some in E as [E _].
      apply (Hstep tok rest out); auto; intros x Hx; right; rewrite E;
        apply in_or_app; [now left|right; now right].
    + destruct (strchr (c :: p') SPACE) as [[tok rest]|] eqn:E.
      * destruct (length argv <=? MAX_ARGS)%nat; [|discriminate].
        apply strchr_some in E as [E _].
        apply (Hstep tok rest out); auto; intros x Hx; rewrite E;
          apply in_or_app; [now left|right; now right].
      * injection H as H. apply finish_tokens in H as [-> _]. now left.
Qed.

Lemma tokenize_chars (cmdline : cstring) (argv : list cstring) :
  tokenize MAX_ARGS cmdline = Tokens argv ->
  forall t x, In t argv -> In x t -> In x cmdline \/ x = SPACE.
Proof.
  intros H t x Ht Hx. pose proof (tokenize_eq MAX_ARGS cmdline) as E.
  rewrite H in E.
  destruct (parse_loop_chars _ _ _ _ E t Ht) as [[]|Hin].
  apply line_buffer_In. eapply skip_In. eauto.
Qed.

End Chars.

(** The name of a builtin holds a character that is not white space. *)
Lemma builtin_has_letter (c : cstring) :
  streq c (cs "exit") = true \/ lookup_builtin builtins c <> None ->
  exists x, In x c /\ x <> SPACE /\ x <> TAB /\ x <> NEWLINE.
Proof.
  assert (Hname : forall n : string,
             streq c (cs n) = true ->
             (exists x r, cs n = x :: r /\ x <> SPACE /\ x <> TAB /\ x <> NEWLINE) ->
             exists x, In x c /\ x <> SPACE /\ x <> TAB /\ x <> NEWLINE).
  { intros n E [x [r [En Hx]]]. apply streq_eq in E. exists x.
    split; [|exact Hx]. rewrite E, En. now left. }
  intros [H|H].
  - apply (Hname "exit"%string H). do 2 eexists.
    split; [reflexivity|]. repeat split; discriminate.
  - unfold builtins, lookup_builtin in H.
    repeat match type of H with
           | (if streq c (cs ?n) then _ else _) <> None =>
               let E := fresh "E" in
               destruct (streq c (cs n)) eqn:E;
               [apply (Hname n E); do 2 eexists;
                split; [reflexivity|]; repeat split; discriminate|]
           end.
    contradiction.
Qed.

Section Unrecorded.

Variable MAX_ARGS : nat.
Variable sys : os.

(** An external command touches neither the alias table nor the history,
    and its child runs another program. *)
Lemma external_keeps_tables (argv : list cstring) (st : shell) :
  no_child_overread (trace st) ->
  match execute_external_command sys argv st with
  | Ret _ s | Exit _ s =>
      alias_hm s = alias_hm st /\ history_da s = history_da st /\
      no_child_overread (trace s)
  | Crash f s =>
      f <> HistoryOverread /\ no_child_overread (trace s)
  end.
Proof.
  intros Hn.
  assert (Hev : forall (evs : list event) (s : shell),
             trace s = trace st ++ evs ->
             (forall pid, ~ In (EvFork pid (CCrash HistoryOverread)) evs) ->
             no_child_overread (trace s)).
  { intros evs s E Hevs pid Hin. rewrite E in Hin.
    apply in_app_or in Hin as [Hin|Hin]; [now apply (Hn pid)|now apply (Hevs pid)]. }
  assert (Hfw : forall c0 p,
             match fork_and_wait sys c0 p argv st with
             | Ret _ s | Exit _ s =>
                 alias_hm s = alias_hm st /\ history_da s = history_da st /\
                 no_child_overread (trace s)
             | Crash f s =>
                 f <> HistoryOverread /\ no_child_overread (trace s)
             end).
  { intros c0 p. unfold fork_and_wait.
    cbv [bind get sys_fork sys_waitpid perror modify ret].
    rewrite ExitFacts.external_child_ends.
    set (child := if os_execv sys (trace st) p argv
                  then CExec p argv else CExit EXIT_FAILURE).
    assert (Hchild : child <> CCrash HistoryOverread)
      by (unfold child; destruct (os_execv sys (trace st) p argv); discriminate).
    clearbody child.
    destruct (os_fork sys (trace st)) as [pid|].
    - cbn [trace add_event].
      destruct (os_waitpid sys (trace st ++ [EvFork pid child]) pid);
        (split; [reflexivity|]; split; [reflexivity|]);
        (eapply Hev; [cbn [trace add_event add_err set_rc];
                      rewrite <- app_assoc; reflexivity|]);
        intros q Hin; simpl in Hin;
        repeat (destruct Hin as [Hin|Hin];
                [first [discriminate
                       |injection Hin as _ Hin; exact (Hchild Hin)]|]);
        exact Hin.
    - split; [reflexivity|]. split; [reflexivity|].
      eapply Hev; [cbn [trace add_event add_err]; reflexivity|].
      intros q Hin; simpl in Hin;
        repeat (destruct Hin as [Hin|Hin]; [discriminate|]); exact Hin. }
  unfold execute_external_command. destruct argv as [|c args].
  - unfold crash. split; [discriminate|exact Hn].
  - cbv [bind get]. destruct (is_path_name c).
    + destruct (os_access sys (trace st) c); [apply Hfw|].
      cbv [bind wsh_warn modify ret]. auto.
    + destruct (find_executable_path sys st c); [apply Hfw|].
      destruct (path_is_empty st); cbv [bind wsh_warn modify ret]; auto.
Qed.

(** What the dispatcher keeps true from one line to the next: the history
    holds an entry or no alias is defined, and no listing went past the
    history. *)
Lemma execute_command_keeps (line : cstring) (st : shell) :
  history_da st <> [] \/ alias_hm st = [] ->
  no_child_overread (trace st) ->
  match execute_command MAX_ARGS sys line st with
  | Ret _ s | Exit _ s =>
      (history_da s <> [] \/ alias_hm s = []) /\ no_child_overread (trace s)
  | Crash f s => f <> HistoryOverread /\ no_child_overread (trace s)
  end.
Proof.
  intros Hinv Hn.
  assert (Hgen : forall (m : M Z) (st1 : shell),
             keeps_ready m -> history_ready st1 ->
             match m st1 with
             | Ret _ s | Exit _ s =>
                 (history_da s <> [] \/ alias_hm s = []) /\
                 no_child_overread (trace s)
             | Crash f s => f <> HistoryOverread /\ no_child_overread (trace s)
             end).
  { intros m st1 Hk H1. specialize (Hk st1 H1).
    destruct (m st1) as [a s|c s|f s].
    - destruct Hk. auto.
    - destruct Hk. auto.
    - destruct Hk as [Hf [_ Ht]]. auto. }
  assert (Hready : forall st1,
             history_ready st1 ->
             match (if contains line PIPE
                    then execute_pipe_line MAX_ARGS sys line
                    else execute_single MAX_ARGS sys line) st1 with
             | Ret _ s | Exit _ s =>
                 (history_da s <> [] \/ alias_hm s = []) /\
                 no_child_overread (trace s)
             | Crash f s => f <> HistoryOverread /\ no_child_overread (trace s)
             end).
  { intros st1 H1. apply Hgen; [|exact H1].
    destruct (contains line PIPE);
      [apply keeps_execute_pipe_line|apply keeps_execute_single]. }
  unfold execute_command, bind.
  destruct (record_history_cases line st) as [E|[E Hws]]; rewrite E.
  - apply Hready. split; [|exact Hn].
    cbn [history_da set_history_da]. unfold da_put.
    intros H. apply app_eq_nil in H as [_ H]. discriminate.
  - destruct Hinv as [Hh|Ha]; [apply Hready; now split|].
    assert (Hp : contains line PIPE = false).
    { apply contains_false. intros H. apply Hws in H.
      destruct H as [H|[H|H]]; discriminate. }
    rewrite Hp. unfold execute_single, parseline_no_subst.
    destruct (tokenize MAX_ARGS line) as [[|c args]| |] eqn:Et.
    + cbv [bind ret]. auto.
    + cbv [bind ret get]. rewrite Ha. cbn [hm_get].
      assert (Hc : forall x, In x c -> x = SPACE \/ x = TAB \/ x = NEWLINE).
      { intros x Hx.
        destruct (tokenize_chars MAX_ARGS line _ Et c x (or_introl eq_refl) Hx)
          as [H|H]; auto. }
      assert (Hnb : streq c (cs "exit") = false /\ lookup_builtin builtins c = None).
      { split.
        - destruct (streq c (cs "exit")) eqn:E1; [|reflexivity].
          destruct (builtin_has_letter c (or_introl E1)) as [x [Hx [H1 [H2 H3]]]].
          destruct (Hc x Hx) as [H|[H|H]]; contradiction.
        - destruct (lookup_builtin builtins c) eqn:E1; [|reflexivity].
          destruct (builtin_has_letter c) as [x [Hx [H1 [H2 H3]]]];
            [right; congruence|].
          destruct (Hc x Hx) as [H|[H|H]]; contradiction. }
      destruct Hnb as [Hne Hnl]. unfold dispatch. rewrite Hne, Hnl.
      pose proof (external_keeps_tables (c :: args) st Hn) as Hx.
      destruct (execute_external_command sys (c :: args) st) as [a s|a s|f s].
      * destruct Hx as [H1 [H2 H3]]. split; [right; congruence|exact H3].
      * destruct Hx as [H1 [H2 H3]]. split; [right; congruence|exact H3].
      * exact Hx.
    + cbv [bind ret wsh_warn modify]. auto.
    + unfold crash. split; [discriminate|exact Hn].
Qed.

Lemma reachable_keeps (st : shell) :
  reachable MAX_ARGS sys st ->
  (history_da st <> [] \/ alias_hm st = []) /\ no_child_overread (trace st).
Proof.
  induction 1 as [|st Hr IH|st line r st' Hr [IH1 IH2] E].
  - split; [now right|]. intros pid H. exact H.
  - exact IH.
  - pose proof (execute_command_keeps line st IH1 IH2) as H.
    now rewrite E in H.
Qed.

(** The two loops over the input lines and [main] keep what the dispatcher
    keeps. *)
Lemma interactive_main_keeps (lines : list cstring) :
  forall st,
    history_da st <> [] \/ alias_hm st = [] ->
    no_child_overread (trace st) ->
    no_overread (interactive_main MAX_ARGS sys lines st).
Proof.
  induction lines as [|l lines IH]; intros st H1 H2;
    cbn [interactive_main]; unfold bind at 1; cbv [modify].
  - cbv [bind get clean_exit exit_process]. split; [discriminate|exact H2].
  - unfold bind at 1.
    pose proof (execute_command_keeps l (add_out (Msg PROMPT []) st) H1 H2) as H.
    destruct (execute_command MAX_ARGS sys l (add_out (Msg PROMPT []) st))
      as [a s|c s|f s].
    + apply IH; apply H.
    + split; [discriminate|apply H].
    + destruct H as [Hf Ht]. split; [|exact Ht].
      intros s' E. injection E as E _. contradiction.
Qed.

Lemma batch_loop_keeps (lines : list cstring) :
  forall result st,
    history_da st <> [] \/ alias_hm st = [] ->
    no_child_overread (trace st) ->
    match batch_loop MAX_ARGS sys lines result st with
    | Ret _ s | Exit _ s => no_child_overread (trace s)
    | Crash f s => f <> HistoryOverread /\ no_child_overread (trace s)
    end.
Proof.
  induction lines as [|l lines IH]; intros result st H1 H2; cbn [batch_loop].
  - exact H2.
  - unfold bind at 1.
    pose proof (execute_command_keeps l st H1 H2) as H.
    destruct (execute_command MAX_ARGS sys l st) as [a s|c s|f s];
      [apply IH; apply H|apply H|exact H].
Qed.

Lemma main_keeps (argv : list cstring) :
  no_overread (main MAX_ARGS sys argv boot).
Proof.
  assert (Hb : no_child_overread (trace started)) by (intros pid H; exact H).
  unfold main. unfold bind at 1. cbv [modify]. fold started.
  destruct (2 <? length argv)%nat; [split; [discriminate|exact Hb]|].
  unfold bind at 1. destruct argv as [|a0 [|a1 [|a2 rest]]]; cbn [length].
  - split; [discriminate|exact Hb].
  - pose proof (interactive_main_keeps (os_stdin sys) started
                  (or_intror eq_refl) Hb) as [Hc Ht].
    destruct (interactive_main MAX_ARGS sys (os_stdin sys) started)
      as [a s|c s|f s]; (split; [|exact Ht]); [discriminate|discriminate|].
    intros s' E. injection E as E _. subst f. now apply (Hc s).
  - cbv [arg nth_error]. unfold bind at 1. cbv [ret]. unfold bind at 1.
    unfold batch_main. destruct (os_fopen sys a1) as [lines|].
    + pose proof (batch_loop_keeps lines EXIT_SUCCESS started
                    (or_intror eq_refl) Hb) as H.
      destruct (batch_loop MAX_ARGS sys lines EXIT_SUCCESS started)
        as [a s|c s|f s].
      * split; [discriminate|exact H].
      * split; [discriminate|exact H].
      * destruct H as [Hf Ht]. split; [|exact Ht].
        intros s' E. injection E as E _. contradiction.
    + split; [discriminate|exact Hb].
  - split; [discriminate|exact Hb].
Qed.

End Unrecorded.

(** C10 (amended): the history listing never starts on an empty history, so
    the bound [size - 1] of its loop never wraps around (by
    [history_overread_iff] the listing goes past the array exactly when the
    history is empty).  This holds for every run of the program, in
    interactive and in batch mode, in the shell itself and in the children
    created for pipeline segments, and for every line from every state in
    which the dispatcher is entered.  The entry that the array holds is the
    line itself, appended by the history step, unless the line consists of
    spaces, tabs and the newline only; such a line is not appended, and it
    is run in a state in which the history holds an earlier line or no alias
    is defined. *)
Theorem history_listing_never_overreads (MAX_ARGS : nat) (sys : os) :
  (forall argv, no_overread (main MAX_ARGS sys argv boot)) /\
  (forall st line,
      reachable MAX_ARGS sys st ->
      no_overread (execute_command MAX_ARGS sys line st) /\
      (record_history line st =
         Ret tt (set_history_da (da_put (history_da st) line) st) \/
       record_history line st = Ret tt st /\
       (forall x, In x line -> x = SPACE \/ x = TAB \/ x = NEWLINE) /\
       (history_da st <> [] \/ alias_hm st = []))).
Proof.
  split; [apply main_keeps|].
  intros st line Hr. destruct (reachable_keeps MAX_ARGS sys st Hr) as [H1 H2].
  split.
  - pose proof (execute_command_keeps MAX_ARGS sys line st H1 H2) as H.
    unfold no_overread.
    destruct (execute_command MAX_ARGS sys line st) as [a s|c s|f s];
      cbn [final_state].
    + split; [discriminate|apply H].
    + split; [discriminate|apply H].
    + destruct H as [Hf Ht]. split; [|exact Ht].
      intros s' E. injection E as E _. contradiction.
  - destruct (record_history_cases line st) as [E|[E Hws]]; [now left|].
    right. auto.
Qed.

(** The first line typed in an interactive session is [history]. *)
Lemma history_listing_never_overreads_witness :
  no_overread (execute_command bound os_echo (cs "history" ++ [NEWLINE])
                               (add_out (Msg PROMPT []) started)).
Proof.
  apply (proj2 (history_listing_never_overreads bound os_echo)
               (add_out (Msg PROMPT []) started) (cs "history" ++ [NEWLINE])).
  apply reach_prompt, reach_start.
Defined.

(** C10 (as stated) fails in its reason: a line made of a tab only holds no
    other character and is not appended to the history, yet it runs the
    listing when the tab is an alias of [history].  Here the listing prints
    the first of the two earlier lines, and the history is after the line
    what it was before it. *)
Lemma tab_alias_lists_history :
  let define := cs "alias " ++ [TAB] ++ cs " = history" ++ [NEWLINE] in
  let show := cs "path" ++ [NEWLINE] in
  exists st1 st2 st3,
    execute_command bound os_echo define started = Ret EXIT_SUCCESS st1 /\
    execute_command bound os_echo show st1 = Ret EXIT_SUCCESS st2 /\
    execute_command bound os_echo [TAB; NEWLINE] st2 = Ret EXIT_SUCCESS st3 /\
    out st3 = out st2 ++ [Text define] /\
    history_da st3 = history_da st2 /\
    history_da st2 = [define; show].
Proof. do 3 eexists. repeat split; reflexivity. Qed.

End HistoryFacts.

(** ** Further properties of the tokenizer *)

Module WordFacts.

Import Cstr CstrFacts Wsh Spec Props TokenizerFacts QuoteFacts AliasFacts.

Lemma strtok_from_skip (d : ascii) (s : cstring) :
  strtok_from d [] (skip d s) = strtok_from d [] s.
Proof.
  induction s as [|x s IH]; simpl; [reflexivity|].
  destruct (Ascii.eqb x d) eqn:E; [exact IH|].
  simpl. now rewrite E.
Qed.

Lemma strtok_from_last (d : ascii) (s : cstring) :
  forall cur, strtok_from d cur (s ++ [d]) = strtok_from d cur s.
Proof.
  induction s as [|x s IH]; intros cur; simpl.
  - rewrite Ascii.eqb_refl. destruct cur; reflexivity.
  - destruct (Ascii.eqb x d); [|apply IH].
    destruct cur; now rewrite IH.
Qed.

Lemma strtok_from_token (d : ascii) (tok rest : cstring) :
  tok <> [] -> ~ In d tok ->
  strtok_from d [] (tok ++ d :: rest) = tok :: strtok_from d [] rest.
Proof.
  intros Hne Hd.
  rewrite (PathFacts.strtok_from_run d tok [] (d :: rest) Hd). simpl.
  rewrite Ascii.eqb_refl. destruct tok; [contradiction|reflexivity].
Qed.

Lemma line_buffer_chomp (l : cstring) : line_buffer l = chomp l ++ [SPACE].
Proof.
  unfold line_buffer, chomp. destruct (rev l) as [|c r] eqn:E.
  - reflexivity.
  - destruct (Ascii.eqb c NEWLINE); reflexivity.
Qed.

Lemma chomp_In (l : cstring) (x : ascii) : In x (chomp l) -> In x l.
Proof.
  destruct (PipeFacts.chomp_cases l) as [->|[l' [-> ->]]]; [auto|].
  intros H. apply in_or_app. now left.
Qed.

Section Bound.

Variable MAX_ARGS : nat.

(** The loop on text without a quote: one token per word. *)
Lemma parse_plain_text (f : nat) :
  forall (argv : list cstring) (p : cstring),
    ~ In QUOTE p ->
    ends_at_boundary p = true ->
    skip SPACE p = p ->
    length p < f ->
    parse_loop MAX_ARGS f argv p =
    Some (if (length argv + length (strtok_from SPACE [] p) <=? MAX_ARGS)%nat
          then Tokens (argv ++ strtok_from SPACE [] p) else Overflow).
Proof.
  induction f as [|f IH]; intros argv p Hq Hb Hs Hf; [lia|].
  rewrite parse_loop_S. destruct p as [|c p'].
  - simpl. unfold finish. rewrite Nat.add_0_r, app_nil_r. reflexivity.
  - assert (Hc : c <> SPACE) by (apply (skip_head SPACE (c :: p') c p' Hs)).
    assert (Hcq : c <> QUOTE) by (intros ->; apply Hq; now left).
    apply Ascii.eqb_neq in Hcq. cbv zeta. rewrite Hcq.
    assert (Hin : In SPACE (c :: p'))
      by (apply boundary_has_space; [exact Hb|discriminate]).
    destruct (strchr (c :: p') SPACE) as [[tok rest]|] eqn:E;
      [|apply strchr_none in E; contradiction].
    apply strchr_some in E as [Ep Ht].
    assert (Htok : tok <> []).
    { intros ->. simpl in Ep. inversion Ep. contradiction. }
    rewrite Ep, (strtok_from_token SPACE tok rest Htok Ht).
    rewrite <- (strtok_from_skip SPACE rest).
    destruct (skip_suffix SPACE rest) as [a [Ea _]].
    assert (Hr : parse_loop MAX_ARGS f (argv ++ [tok]) (skip SPACE rest) =
                 Some (if (length (argv ++ [tok]) +
                           length (strtok_from SPACE [] (skip SPACE rest)) <=? MAX_ARGS)%nat
                       then Tokens ((argv ++ [tok]) ++
                                    strtok_from SPACE [] (skip SPACE rest))
                       else Overflow)).
    { apply IH.
      - intros H. apply Hq. rewrite Ep. apply in_or_app. right. right.
        rewrite Ea. apply in_or_app. now right.
      - rewrite Ep in Hb.
        apply (boundary_suffix (tok ++ SPACE :: a) (skip SPACE rest)).
        rewrite <- app_assoc. simpl. now rewrite <- Ea.
      - destruct (skip SPACE rest) as [|y r] eqn:Ey; [reflexivity|].
        apply skip_fresh. apply (skip_head SPACE rest y r Ey).
      - pose proof (skip_length SPACE rest) as Hl.
        rewrite Ep, length_app in Hf. simpl in Hf. lia. }
    rewrite Hr, length_app, <- app_assoc. simpl.
    destruct (length argv <=? MAX_ARGS)%nat eqn:El.
    + replace (length argv + 1 + length (strtok_from SPACE [] (skip SPACE rest)))
        with (length argv + S (length (strtok_from SPACE [] (skip SPACE rest)))) by lia.
      reflexivity.
    + apply Nat.leb_gt in El.
      destruct (length argv + S (length (strtok_from SPACE [] (skip SPACE rest)))
                <=? MAX_ARGS)%nat eqn:E2; [apply Nat.leb_le in E2; lia|reflexivity].
Qed.

Lemma tokenize_plain_text (line : cstring) :
  contains line QUOTE = false ->
  tokenize MAX_ARGS line =
  if (length (words_of line) <=? MAX_ARGS)%nat
  then Tokens (words_of line) else Overflow.
Proof.
  intros Hq. apply contains_false in Hq.
  pose proof (tokenize_eq MAX_ARGS line) as E.
  rewrite line_buffer_chomp in E.
  destruct (skip_suffix SPACE (chomp line ++ [SPACE])) as [a [Ea _]].
  rewrite parse_plain_text in E.
  - rewrite strtok_from_skip, strtok_from_last in E. simpl in E.
    now inversion E.
  - intros H. apply Hq. apply HistoryFacts.skip_In in H. apply in_app_or in H as [H|[H|[]]].
    + now apply chomp_In.
    + discriminate.
  - apply (boundary_suffix a). rewrite <- Ea. apply boundary_intro.
  - destruct (skip SPACE (chomp line ++ [SPACE])) as [|y r] eqn:Ey; [reflexivity|].
    apply skip_fresh. apply (skip_head SPACE _ y r Ey).
  - pose proof (skip_length SPACE (chomp line ++ [SPACE])). lia.
Qed.

Lemma skip_repeat (n : nat) (s : cstring) :
  skip SPACE (repeat SPACE n ++ s) = skip SPACE s.
Proof. induction n as [|n IH]; [reflexivity|exact IH]. Qed.

Lemma quoted_length (items : list (cstring * nat)) :
  length items <= length (quoted items).
Proof.
  induction items as [|it items IH]; simpl; [lia|].
  rewrite length_app. simpl. lia.
Qed.

(** The loop on quoted texts: one token per text. *)
Lemma parse_quoted_items (items : list (cstring * nat)) :
  forall (argv : list cstring) (f : nat),
    forallb (fun it => quote_free (fst it)) items = true ->
    length (quoted items) + 1 < f ->
    parse_loop MAX_ARGS f argv (skip SPACE (quoted items ++ [SPACE])) =
    Some (if (length argv + length items <=? MAX_ARGS)%nat
          then Tokens (argv ++ map fst items) else Overflow).
Proof.
  induction items as [|[a gap] items IH]; intros argv f Hq Hf.
  - destruct f as [|f]; [simpl in Hf; lia|].
    simpl. unfold finish. rewrite Nat.add_0_r, app_nil_r. reflexivity.
  - simpl in Hq. apply andb_true_iff in Hq as [Ha Hq].
    unfold quote_free in Ha. apply negb_true_iff, contains_false in Ha.
    destruct f as [|f]; [lia|].
    change (quoted ((a, gap) :: items))
      with ((QUOTE :: a ++ QUOTE :: repeat SPACE gap) ++ quoted items).
    change (QUOTE :: a ++ QUOTE :: repeat SPACE gap)
      with ([QUOTE] ++ a ++ [QUOTE] ++ repeat SPACE gap).
    rewrite <- !app_assoc.
    change ([QUOTE] ++ a ++ [QUOTE] ++ repeat SPACE gap ++ quoted items ++ [SPACE])
      with (QUOTE :: a ++ QUOTE :: (repeat SPACE gap ++ quoted items ++ [SPACE])).
    rewrite skip_fresh by discriminate.
    rewrite (parse_quoted MAX_ARGS f argv a _ Ha), skip_repeat.
    rewrite IH; [|exact Hq|].
    + rewrite length_app, <- app_assoc. simpl.
      destruct (length argv <=? MAX_ARGS)%nat eqn:El.
      * replace (length argv + 1 + length items)
          with (length argv + S (length items)) by lia.
        reflexivity.
      * apply Nat.leb_gt in El.
        destruct (length argv + S (length items) <=? MAX_ARGS)%nat eqn:E2;
          [apply Nat.leb_le in E2; lia|reflexivity].
    + change (quoted ((a, gap) :: items))
        with ((QUOTE :: a ++ QUOTE :: repeat SPACE gap) ++ quoted items) in Hf.
      rewrite length_app in Hf. simpl in Hf. lia.
Qed.

Lemma tokenize_quoted (items : list (cstring * nat)) :
  forallb (fun it => quote_free (fst it)) items = true ->
  tokenize MAX_ARGS (quoted items ++ [NEWLINE]) =
  if (length items <=? MAX_ARGS)%nat then Tokens (map fst items) else Overflow.
Proof.
  intros Hq. pose proof (tokenize_eq MAX_ARGS (quoted items ++ [NEWLINE])) as E.
  rewrite line_buffer_newline in E.
  rewrite parse_quoted_items in E; [now inversion E|exact Hq|].
  rewrite length_app. simpl. lia.
Qed.

Lemma tokenize_spaces (n : nat) (tail : cstring) :
  tail = [] \/ tail = [NEWLINE] ->
  tokenize MAX_ARGS (repeat SPACE n ++ tail) = Tokens [].
Proof.
  intros Ht. pose proof (tokenize_eq MAX_ARGS (repeat SPACE n ++ tail)) as E.
  assert (Hb : line_buffer (repeat SPACE n ++ tail) = repeat SPACE n ++ [SPACE]).
  { destruct Ht as [->| ->]; [|apply line_buffer_newline].
    rewrite app_nil_r. apply boundary_buffer.
    destruct n as [|n]; [reflexivity|].
    rewrite <- Nat.add_1_r, repeat_app. apply boundary_intro. }
  rewrite Hb, skip_repeat in E. simpl in E. unfold finish in E. simpl in E.
  now inversion E.
Qed.

End Bound.

Lemma simple_word_facts (w : cstring) :
  simple_word w = true ->
  w <> [] /\ ~ In SPACE w /\ ~ In QUOTE w /\ ~ In NEWLINE w.
Proof.
  unfold simple_word. intros H. apply andb_true_iff in H as [Hn Hf].
  split; [now destruct w|].
  rewrite forallb_forall in Hf.
  repeat split; intros Hin; apply Hf in Hin; discriminate.
Qed.

Lemma spaced_chars (args : list cstring) (x : ascii) :
  In x (spaced args) -> x = SPACE \/ exists a, In a args /\ In x a.
Proof.
  induction args as [|a args IH]; simpl; [tauto|].
  intros [H|H]; [now left|].
  apply in_app_or in H as [H|H].
  - right. exists a. auto.
  - destruct (IH H) as [E|[b [Hb Hx]]]; [now left|].
    right. exists b. auto.
Qed.

(** Words that follow a space each are read back by [strtok]. *)
Lemma strtok_spaced (args : list cstring) :
  forallb simple_word args = true ->
  strtok_from SPACE [] (spaced args) = args.
Proof.
  induction args as [|a args IH]; intros H; [reflexivity|].
  simpl in H. apply andb_true_iff in H as [Ha Hr].
  destruct (simple_word_facts a Ha) as [Hne [Hs _]].
  change (spaced (a :: args)) with (SPACE :: a ++ spaced args).
  cbn [strtok_from]. rewrite Ascii.eqb_refl.
  destruct args as [|b args].
  - simpl. rewrite app_nil_r.
    rewrite <- (app_nil_r a) at 1.
    rewrite (PathFacts.strtok_from_run SPACE a [] [] Hs). simpl.
    destruct a; [contradiction|reflexivity].
  - change (spaced (b :: args)) with (SPACE :: b ++ spaced args).
    rewrite (strtok_from_token SPACE a _ Hne Hs).
    f_equal. specialize (IH Hr).
    change (spaced (b :: args)) with (SPACE :: b ++ spaced args) in IH.
    cbn [strtok_from] in IH. rewrite Ascii.eqb_refl in IH. exact IH.
Qed.

(** The text that an alias for a single space makes of a command line is
    read back as the arguments of the line. *)
Lemma tokenize_spaced (MAX_ARGS : nat) (args : list cstring) :
  forallb simple_word args = true ->
  (length args <=? MAX_ARGS)%nat = true ->
  tokenize MAX_ARGS (SPACE :: spaced args) = Tokens args.
Proof.
  intros Ha Hl.
  assert (Hc : forall x, In x (SPACE :: spaced args) -> x <> QUOTE /\ x <> NEWLINE).
  { intros x [<-|Hx]; [split; discriminate|].
    apply spaced_chars in Hx as [->|[a [Hin Hx]]]; [split; discriminate|].
    rewrite forallb_forall in Ha.
    destruct (simple_word_facts a (Ha a Hin)) as [_ [_ [Hq Hn]]].
    split; intros ->; contradiction. }
  rewrite tokenize_plain_text.
  2:{ apply contains_false. intros H. now apply Hc in H as [H _]. }
  unfold words_of.
  assert (Hch : chomp (SPACE :: spaced args) = SPACE :: spaced args).
  { destruct (PipeFacts.chomp_cases (SPACE :: spaced args)) as [E|[l [E _]]];
      [exact E|].
    exfalso. assert (H : In NEWLINE (SPACE :: spaced args))
      by (rewrite E; apply in_or_app; right; now left).
    now apply Hc in H as [_ H]. }
  rewrite Hch. unfold strtok_all. cbn [strtok_from]. rewrite Ascii.eqb_refl.
  rewrite (strtok_spaced args Ha), Hl. reflexivity.
Qed.

(** X1: a command line without a single quote is cut at its spaces, as
    [strtok] with a space would cut it: the argument vector holds the words of
    the line in their order, runs of spaces count as one separator, and spaces
    at either end and the newline that ends the line are dropped.  With more
    words than the argument array has room for, the store runs past the
    array. *)
Theorem unquoted_line_splits_at_spaces (MAX_ARGS : nat) (line : cstring)
        (st : shell) :
  contains line QUOTE = false ->
  parseline_no_subst MAX_ARGS line st =
  if (length (words_of line) <=? MAX_ARGS)%nat
  then Ret (words_of line) st
  else Crash ArgvOverflow st.
Proof.
  intros Hq. unfold parseline_no_subst.
  rewrite (tokenize_plain_text MAX_ARGS line Hq).
  destruct (length (words_of line) <=? MAX_ARGS)%nat; reflexivity.
Qed.

Lemma unquoted_line_splits_at_spaces_witness :
  parseline_no_subst 3 (cs "  ls   -l /tmp " ++ [NEWLINE]) boot =
  Ret [cs "ls"; cs "-l"; cs "/tmp"] boot.
Proof.
  apply (unquoted_line_splits_at_spaces 3 (cs "  ls   -l /tmp " ++ [NEWLINE]) boot).
  reflexivity.
Defined.

(** X2: texts enclosed in single quotes are read back unchanged: a line made
    of at most [MAX_ARGS] texts without a single quote, each enclosed in
    single quotes and followed by any number of spaces (none included), yields
    exactly these texts as its arguments, spaces, tabs, pipe characters and
    empty texts kept. *)
Theorem quoted_arguments_read_back (MAX_ARGS : nat)
        (items : list (cstring * nat)) (st : shell) :
  forallb (fun it => quote_free (fst it)) items = true ->
  (length items <=? MAX_ARGS)%nat = true ->
  parseline_no_subst MAX_ARGS (quoted items ++ [NEWLINE]) st = Ret (map fst items) st.
Proof.
  intros Hq Hl. unfold parseline_no_subst.
  rewrite (tokenize_quoted MAX_ARGS items Hq), Hl. reflexivity.
Qed.

Lemma quoted_arguments_read_back_witness :
  parseline_no_subst 3 (cs "'a b''' 'c|d'  " ++ [NEWLINE]) boot =
  Ret [cs "a b"; []; cs "c|d"] boot.
Proof.
  apply (quoted_arguments_read_back 3 [(cs "a b", 0); ([], 1); (cs "c|d", 2)] boot);
    reflexivity.
Defined.

End WordFacts.

(** ** Lines as the dispatcher takes them *)

Module LineFacts.

Import Cstr CstrFacts Wsh Spec Props TokenizerFacts QuoteFacts AliasFacts WordFacts.

Lemma strspn_blank (s : cstring) :
  (strspn s [SPACE; TAB] =? length s)%nat = forallb blank_char s.
Proof.
  induction s as [|x s IH]; [reflexivity|].
  simpl. unfold blank_char at 1. rewrite orb_false_r.
  destruct (Ascii.eqb x SPACE || Ascii.eqb x TAB); simpl; [exact IH|reflexivity].
Qed.

(** The history step: a line with text is appended as it was read, any
    other line is left out. *)
Lemma record_history_eq (line : cstring) (st : shell) :
  record_history line st = Ret tt (recorded line st).
Proof.
  unfold record_history, recorded, has_text. destruct line as [|c l]; [reflexivity|].
  cbn [length Nat.ltb Nat.leb]. rewrite strspn_blank.
  destruct (forallb blank_char (chomp (c :: l))); reflexivity.
Qed.

Lemma chomp_newline (l : cstring) : chomp (l ++ [NEWLINE]) = l.
Proof. unfold chomp. rewrite rev_app_distr. simpl. now rewrite rev_involutive. Qed.

Lemma chomp_spaces (n : nat) : chomp (repeat SPACE n) = repeat SPACE n.
Proof.
  destruct (PipeFacts.chomp_cases (repeat SPACE n)) as [E|[l [E _]]]; [exact E|].
  exfalso. assert (H : In NEWLINE (repeat SPACE n))
    by (rewrite E; apply in_or_app; right; now left).
  apply repeat_spec in H. discriminate.
Qed.

Lemma blank_spaces (n : nat) : forallb blank_char (repeat SPACE n) = true.
Proof. induction n as [|n IH]; [reflexivity|exact IH]. Qed.

Lemma contains_spaces (n : nat) (c : ascii) :
  c <> SPACE -> contains (repeat SPACE n) c = false.
Proof.
  intros H. apply contains_false. intros Hin. apply repeat_spec in Hin. congruence.
Qed.

(** X3: a line of spaces only, with or without the newline that ends it, and
    the empty line are ignored: the dispatcher returns success and leaves the
    whole state as it was: nothing is recorded in the history, nothing is
    printed, no process is created and the return code of the previous
    command stays. *)
Theorem blank_line_is_ignored (MAX_ARGS : nat) (sys : os) (n : nat) (st : shell) :
  execute_command MAX_ARGS sys (repeat SPACE n ++ [NEWLINE]) st = Ret EXIT_SUCCESS st /\
  execute_command MAX_ARGS sys (repeat SPACE n) st = Ret EXIT_SUCCESS st.
Proof.
  split; unfold execute_command, bind; rewrite record_history_eq;
    unfold recorded, has_text.
  - rewrite chomp_newline, blank_spaces. cbn [negb].
    rewrite contains_app, contains_spaces by discriminate. cbn [orb contains strchr].
    change (Ascii.eqb NEWLINE PIPE) with false. cbv iota.
    unfold execute_single, parseline_no_subst.
    rewrite (tokenize_spaces MAX_ARGS n [NEWLINE]) by (now right). reflexivity.
  - rewrite chomp_spaces, blank_spaces. cbn [negb].
    rewrite contains_spaces by discriminate.
    unfold execute_single, parseline_no_subst.
    rewrite <- (app_nil_r (repeat SPACE n)).
    rewrite (tokenize_spaces MAX_ARGS n []) by (now left). reflexivity.
Qed.

End LineFacts.

(** ** What the code of the dispatcher leaves alone *)

Module FrameFacts.

Import Cstr CstrFacts Wsh HashMap DynamicArray Spec Props.

Lemma lookup_exit (c : cstring) :
  lookup_builtin builtins c = Some B_exit -> streq c (cs "exit") = true.
Proof.
  unfold builtins. cbn [lookup_builtin].
  repeat match goal with
         | |- context [if streq c ?n then _ else _] => destruct (streq c n) eqn:?
         end; try discriminate; reflexivity.
Qed.

Lemma split_loop_nonempty (MAX_ARGS : nat) (f : nat) :
  forall (s : cstring) (segs out : list cstring),
    split_loop MAX_ARGS f s segs = Some (SplitOk out) ->
    0 < MAX_ARGS -> out <> [].
Proof.
  induction f as [|f IH]; intros s segs out H Hm; [discriminate|].
  rewrite PipeFacts.split_loop_S in H.
  destruct (strchr s PIPE) as [[seg rest]|].
  - destruct (length segs <? MAX_ARGS)%nat eqn:El.
    + destruct (blank seg); [discriminate|]. now apply IH in H.
    + inversion H; subst. apply Nat.ltb_ge in El.
      intros ->. simpl in El. lia.
  - destruct (length segs <? MAX_ARGS)%nat eqn:El.
    + destruct (blank_last s); [discriminate|]. inversion H; subst.
      intros E. now apply app_eq_nil in E as [_ E].
    + inversion H; subst. apply Nat.ltb_ge in El.
      intros ->. simpl in El. lia.
Qed.

Lemma split_segments_nonempty (MAX_ARGS : nat) (line : cstring)
      (out : list cstring) :
  split_segments MAX_ARGS line = SplitOk out -> 0 < MAX_ARGS -> out <> [].
Proof.
  intros H. apply (split_loop_nonempty MAX_ARGS (S (length line)) line []).
  rewrite PipeFacts.split_segments_eq. now f_equal.
Qed.

Section Frame.

Variable okf : fault -> Prop.
Variable exit_ok : Prop.
Variable R : shell -> shell -> Prop.

Local Notation "'ok' m" := (respects okf exit_ok R m) (at level 10, m at level 9).

Hypothesis R_refl : forall s, R s s.
Hypothesis R_trans : forall a b c, R a b -> R b c -> R a c.

(** *** Rules *)

Lemma respects_ret {A : Type} (a : A) : ok (ret a).
Proof. intros st. apply R_refl. Qed.

Lemma respects_bind {A B : Type} (m : M A) (k : A -> M B) :
  ok m -> (forall a, ok (k a)) -> ok (bind m k).
Proof.
  intros Hm Hk st. unfold bind. specialize (Hm st).
  destruct (m st) as [a s|c s|f s]; [|exact Hm|exact Hm].
  specialize (Hk a s). destruct (k a s) as [b s'|c s'|f s'].
  - eapply R_trans; eauto.
  - destruct Hk. split; [assumption|]. eapply R_trans; eauto.
  - destruct Hk. split; [assumption|]. eapply R_trans; eauto.
Qed.

Lemma respects_get : ok get.
Proof. intros st. apply R_refl. Qed.

Lemma respects_modify (f : shell -> shell) :
  (forall s, R s (f s)) -> ok (modify f).
Proof. intros H st. apply H. Qed.

Lemma respects_crash {A : Type} (f : fault) : okf f -> ok (@crash A f).
Proof. intros H st. split; [exact H|apply R_refl]. Qed.

Lemma respects_exit {A : Type} (code : Z) : exit_ok -> ok (@exit_process A code).
Proof. intros H st. split; [exact H|apply R_refl]. Qed.

(** *** The state changes the code may make *)

Hypothesis R_rc : forall v s, R s (set_rc v s).
Hypothesis R_err : forall o s, R s (add_err o s).
Hypothesis R_out : forall o s, R s (add_out o s).
Hypothesis R_alias : forall m s, R s (set_alias_hm m s).
Hypothesis R_path : forall p s, R s (set_path_env p s).
Hypothesis R_pipe : forall r s, R s (add_event (EvPipe r) s).
Hypothesis R_fork :
  forall pid c s, (forall f, c = CCrash f -> okf f) -> R s (add_event (EvFork pid c) s).
Hypothesis R_fork_failed : forall s, R s (add_event EvForkFailed s).
Hypothesis R_kill : forall pid s, R s (add_event (EvKill pid) s).
Hypothesis R_wait : forall pid w s, R s (add_event (EvWait pid w) s).
Hypothesis R_close : forall fd s, R s (add_event (EvClose fd) s).
Hypothesis R_chdir : forall d b s, R s (add_event (EvChdir d b) s).

Hypothesis ok_null : okf NullDeref.
Hypothesis ok_argv : okf ArgvOverflow.
Hypothesis ok_hist : okf HistoryOverread.

Lemma respects_warn (m : message) (args : list cstring) : ok (wsh_warn m args).
Proof.
  apply respects_modify. intros s. eapply R_trans; [apply R_err|apply R_rc].
Qed.

Lemma respects_perror (what : string) : ok (perror what).
Proof. apply respects_modify. intros s. apply R_err. Qed.

Lemma respects_set_rc (v : Z) : ok (modify (set_rc v)).
Proof. apply respects_modify. intros s. apply R_rc. Qed.

Lemma respects_add_out (o : output) : ok (modify (add_out o)).
Proof. apply respects_modify. intros s. apply R_out. Qed.

Lemma respects_print_lines (l : list cstring) : ok (print_lines l).
Proof.
  apply respects_modify. intros s.
  assert (H : forall s0, R s s0 -> R s (fold_left (fun s x => add_out (Text x) s) l s0)).
  { induction l as [|x l IH]; intros s0 H0; simpl; [exact H0|].
    apply IH. eapply R_trans; [exact H0|apply R_out]. }
  apply H, R_refl.
Qed.

(** A load of [argv[i]] up to the NULL entry. *)
Lemma respects_arg (argv : list cstring) (i : nat) :
  i <= length argv -> ok (arg argv i).
Proof.
  intros Hi. unfold arg. destruct (nth_error argv i) eqn:E; [apply respects_ret|].
  apply nth_error_None in E.
  replace (i =? length argv)%nat with true by (symmetry; apply Nat.eqb_eq; lia).
  now apply respects_crash.
Qed.

Lemma respects_sys_kill (pid : Z) : ok (sys_kill pid).
Proof. apply respects_modify. intros s. apply R_kill. Qed.

Lemma respects_sys_close (fd : Z) : ok (sys_close fd).
Proof. apply respects_modify. intros s. apply R_close. Qed.

Lemma respects_kill_all (pids : list Z) : ok (kill_all pids).
Proof.
  induction pids as [|p pids IH]; simpl; [apply respects_ret|].
  apply respects_bind; [apply respects_sys_kill|intros _; exact IH].
Qed.

Lemma respects_close_unless_stdin (fd : Z) : ok (close_unless_stdin fd).
Proof.
  unfold close_unless_stdin.
  destruct (fd =? STDIN_FILENO)%Z; [apply respects_ret|apply respects_sys_close].
Qed.

Create HintDb frame.

#[local] Hint Resolve respects_ret respects_get respects_warn respects_perror
  respects_set_rc respects_add_out respects_print_lines respects_sys_kill
  respects_sys_close respects_kill_all respects_close_unless_stdin : frame.

(** The steps that take a goal [respects okf exit_ok R m] apart along the
    code of [m]. *)
Ltac frame_step :=
  match goal with
  | |- respects _ _ _ (bind _ _) => apply respects_bind; [|intros]
  | |- respects _ _ _ (crash _) => apply respects_crash; assumption
  | |- respects _ _ _ (exit_process _) => apply respects_exit; assumption
  | |- respects _ _ _ (clean_exit _) => apply respects_exit; assumption
  | |- respects _ _ _ (modify (set_alias_hm _)) =>
      apply respects_modify; intros; apply R_alias
  | |- respects _ _ _ (modify (fun s => set_alias_hm _ s)) =>
      apply respects_modify; intros; apply R_alias
  | |- respects _ _ _ (modify (set_path_env _)) =>
      apply respects_modify; intros; apply R_path
  | |- respects _ _ _ (if ?b then _ else _) => destruct b eqn:?
  | |- respects _ _ _ (match ?x with _ => _ end) => destruct x eqn:?
  | |- respects _ _ _ (let '(_, _) := ?x in _) => destruct x eqn:?
  | |- respects _ _ _ _ => solve [eauto with frame]
  end.

Ltac frames := repeat frame_step.

Section Sys.

Variable MAX_ARGS : nat.
Variable sys : os.

Lemma respects_sys_pipe : ok (sys_pipe sys).
Proof. intros st. apply R_pipe. Qed.

Lemma respects_sys_waitpid (pid : Z) : ok (sys_waitpid sys pid).
Proof. intros st. apply R_wait. Qed.

Lemma respects_sys_chdir (dir : cstring) : ok (sys_chdir sys dir).
Proof. intros st. apply R_chdir. Qed.

Lemma respects_sys_fork (child : child_outcome) :
  (forall f, child = CCrash f -> okf f) -> ok (sys_fork sys child).
Proof.
  intros Hc st. unfold sys_fork. destruct (os_fork sys (trace st)).
  - now apply R_fork.
  - apply R_fork_failed.
Qed.

#[local] Hint Resolve respects_sys_pipe respects_sys_waitpid respects_sys_chdir
  : frame.

Lemma respects_parseline (cmdline : cstring) :
  ok (parseline_no_subst MAX_ARGS cmdline).
Proof. unfold parseline_no_subst. frames. Qed.

(** *** Builtins, called with [argv[0]] the name the table holds *)

Lemma respects_wsh_exit (c : cstring) (args : list cstring) :
  streq c (cs "exit") = true -> exit_ok -> ok (wsh_exit (c :: args)).
Proof.
  intros Hc He. unfold wsh_exit. cbn [arg nth_error].
  unfold bind at 1. unfold ret at 1. rewrite Hc. cbn [negb].
  match goal with
  | |- respects _ _ _ (fun s => ?m s) => change (respects okf exit_ok R m)
  end.
  frames.
Qed.

Lemma respects_wsh_history (c : cstring) (args : list cstring) :
  ok (wsh_history (c :: args)).
Proof.
  unfold wsh_history.
  destruct (2 <? length (c :: args))%nat eqn:E2; [frames|].
  destruct (length (c :: args) =? 1)%nat eqn:E1; [frames|].
  apply Nat.ltb_ge in E2. apply Nat.eqb_neq in E1. simpl in E1, E2.
  apply respects_bind; [apply respects_arg; simpl; lia|]. intros a.
  destruct (strtol a) as [n endptr].
  destruct (_ || _) eqn:Ev; [frames|].
  apply respects_bind; [apply respects_get|]. intros s.
  destruct (Z.of_nat (length (history_da s)) <? n)%Z eqn:El; [frames|].
  destruct (da_get (history_da s) (Z.to_nat (n - 1))) eqn:Eg; [frames|].
  exfalso. unfold da_get in Eg. apply nth_error_None in Eg.
  apply orb_false_iff in Ev as [_ Ev]. apply Z.leb_gt in Ev.
  apply Z.ltb_ge in El. lia.
Qed.

Lemma respects_wsh_alias (c : cstring) (args : list cstring) :
  ok (wsh_alias (c :: args)).
Proof.
  unfold wsh_alias.
  destruct (length (c :: args) =? 1)%nat eqn:E1; [frames|].
  apply Nat.eqb_neq in E1. simpl in E1.
  apply respects_bind.
  - destruct (4 <? length (c :: args))%nat eqn:E4; [frames|].
    apply Nat.ltb_ge in E4. simpl in E4.
    apply respects_bind; [apply respects_arg; simpl; lia|]. intros a2. frames.
  - intros [|]; [frames|].
    apply respects_bind; [apply respects_arg; simpl; lia|]. intros name.
    apply respects_bind.
    + destruct (length (c :: args) =? 4)%nat eqn:E4; [|frames].
      apply Nat.eqb_eq in E4. apply respects_arg. lia.
    + intros command. frames.
Qed.

Lemma respects_wsh_unalias (c : cstring) (args : list cstring) :
  ok (wsh_unalias (c :: args)).
Proof.
  unfold wsh_unalias.
  destruct (length (c :: args) =? 2)%nat eqn:E2; cbn [negb]; [|frames].
  apply Nat.eqb_eq in E2.
  apply respects_bind; [apply respects_arg; lia|]. intros a1. frames.
Qed.

Lemma respects_wsh_which (c : cstring) (args : list cstring) :
  ok (wsh_which sys (c :: args)).
Proof.
  unfold wsh_which.
  destruct (length (c :: args) =? 2)%nat eqn:E2; cbn [negb]; [|frames].
  apply Nat.eqb_eq in E2.
  apply respects_bind; [apply respects_arg; lia|]. intros a1. frames.
Qed.

Lemma respects_wsh_path (c : cstring) (args : list cstring) :
  ok (wsh_path (c :: args)).
Proof.
  unfold wsh_path.
  destruct (2 <? length (c :: args))%nat eqn:E2; [frames|].
  destruct (length (c :: args) =? 1)%nat eqn:E1; [frames|].
  apply Nat.ltb_ge in E2. apply Nat.eqb_neq in E1. simpl in E1, E2.
  apply respects_bind; [apply respects_arg; simpl; lia|]. intros a1. frames.
Qed.

Lemma respects_wsh_cd (c : cstring) (args : list cstring) :
  ok (wsh_cd sys (c :: args)).
Proof.
  unfold wsh_cd.
  destruct (2 <? length (c :: args))%nat eqn:E2; [frames|].
  apply Nat.ltb_ge in E2. simpl in E2.
  apply respects_bind.
  - destruct (length (c :: args) =? 1)%nat eqn:E1; [frames|].
    apply Nat.eqb_neq in E1. simpl in E1.
    apply respects_bind; [apply respects_arg; simpl; lia|]. intros a1. frames.
  - intros [dir|]; frames.
Qed.

Lemma respects_run_builtin (b : builtin) (c : cstring) (args : list cstring) :
  lookup_builtin builtins c = Some b -> exit_ok ->
  ok (run_builtin sys b (c :: args)).
Proof.
  intros Hb He. destruct b; cbn [run_builtin].
  - apply respects_wsh_exit; [now apply lookup_exit|exact He].
  - apply respects_wsh_alias.
  - apply respects_wsh_unalias.
  - apply respects_wsh_which.
  - apply respects_wsh_path.
  - apply respects_wsh_cd.
  - apply respects_wsh_history.
Qed.

#[local] Hint Resolve respects_parseline : frame.

(** *** External commands and pipelines *)

Lemma respects_fork_and_wait (c full_path : cstring) (argv : list cstring) :
  ok (fork_and_wait sys c full_path argv).
Proof.
  unfold fork_and_wait. apply respects_bind; [apply respects_get|]. intros s.
  apply respects_bind.
  - apply respects_sys_fork. intros f. rewrite ExitFacts.external_child_ends.
    destruct (os_execv sys (trace s) full_path argv); discriminate.
  - intros pid. frames.
Qed.

Lemma respects_execute_external_command (c : cstring) (args : list cstring) :
  ok (execute_external_command sys (c :: args)).
Proof.
  unfold execute_external_command.
  apply respects_bind; [apply respects_get|]. intros s.
  destruct (is_path_name c).
  - destruct (os_access sys (trace s) c); [apply respects_fork_and_wait|frames].
  - destruct (find_executable_path sys s c); [apply respects_fork_and_wait|frames].
Qed.

(** The code of a child: it may end its process. *)
Lemma respects_redirect (what : string) (fd std : Z) :
  exit_ok -> ok (redirect sys what fd std).
Proof. intros He. unfold redirect. frames. Qed.

Lemma respects_execute_segment (seg : cstring) (in_fd out_fd : Z) :
  exit_ok -> ok (execute_segment MAX_ARGS sys seg in_fd out_fd).
Proof.
  intros He. unfold execute_segment.
  apply respects_bind; [apply respects_parseline|]. intros [|c args]; [frames|].
  apply respects_bind; [now apply respects_redirect|]. intros _.
  apply respects_bind; [now apply respects_redirect|]. intros _.
  destruct (lookup_builtin builtins c) as [b|] eqn:Eb; [|frames].
  apply respects_bind; [now apply respects_run_builtin|]. intros code. frames.
Qed.

(** What the children of a pipeline do is within [okf]. *)
Hypothesis child_ok :
  forall seg in_fd out_fd st f,
    child_of (execute_segment MAX_ARGS sys seg in_fd out_fd st) = CCrash f -> okf f.

Lemma respects_spawn_loop (segs : list cstring) :
  forall (prev : Z) (pids : list Z), ok (spawn_loop MAX_ARGS sys segs prev pids).
Proof.
  induction segs as [|seg rest IH]; intros prev pids; cbn [spawn_loop]; [frames|].
  apply respects_bind; [apply respects_sys_pipe|]. intros [[rfd wfd]|]; [|frames].
  apply respects_bind; [apply respects_get|]. intros s.
  apply respects_bind.
  - apply respects_sys_fork. intros f. apply child_ok.
  - intros [pid|]; [|frames].
    apply respects_bind; [apply respects_sys_close|]. intros _.
    apply respects_bind; [apply respects_close_unless_stdin|]. intros _.
    apply IH.
Qed.

Lemma respects_wait_rest (pids : list Z) :
  forall all_success, ok (wait_rest sys pids all_success).
Proof.
  induction pids as [|pid rest IH]; intros all_success; cbn [wait_rest]; [frames|].
  apply respects_bind; [apply respects_sys_waitpid|]. intros w.
  destruct w; [apply respects_bind; [apply respects_perror|intros _]| |]; apply IH.
Qed.

Lemma respects_collect (pid_last : Z) (pids : list Z) :
  ok (collect sys pid_last pids).
Proof.
  unfold collect. apply respects_bind; [apply respects_sys_waitpid|]. intros w.
  apply respects_bind; [frames|]. intros a. apply respects_wait_rest.
Qed.

(** With no segment at all the child of the last [fork] reads
    [segments[0]], which was never stored. *)
Lemma respects_execute_pipeline (segments : list cstring) :
  (segments = [] -> okf BadRead) ->
  ok (execute_pipeline MAX_ARGS sys segments).
Proof.
  intros Hs. unfold execute_pipeline.
  apply respects_bind; [apply respects_spawn_loop|].
  intros [[prev pids]|]; [|frames].
  apply respects_bind; [apply respects_get|]. intros s.
  apply respects_bind.
  - apply respects_sys_fork. intros f.
    destruct (nth_error segments (length segments - 1)) as [seg|] eqn:E.
    + apply child_ok.
    + intros Ef. inversion Ef; subst. apply Hs.
      apply nth_error_None in E. destruct segments; [reflexivity|simpl in E; lia].
  - intros [pid|]; [|frames].
    apply respects_bind; [apply respects_close_unless_stdin|]. intros _.
    apply respects_collect.
Qed.

(** *** The dispatcher *)

Lemma respects_validate_segment (seg : cstring) :
  ok (validate_segment MAX_ARGS sys seg).
Proof. unfold validate_segment. frames. Qed.

Lemma respects_prevalidate (todo : list cstring) :
  forall done, ok (prevalidate MAX_ARGS sys todo done).
Proof.
  induction todo as [|seg rest IH]; intros done; cbn [prevalidate]; [frames|].
  apply respects_bind; [apply respects_validate_segment|].
  intros [seg'|]; [apply IH|frames].
Qed.

Lemma respects_dispatch (argv : list cstring) :
  exit_ok -> ok (dispatch sys argv).
Proof.
  intros He. unfold dispatch. destruct argv as [|c args]; [frames|].
  destruct (streq c (cs "exit")); [frames|].
  destruct (lookup_builtin builtins c) as [b|] eqn:Eb.
  - apply respects_bind; [now apply respects_run_builtin|]. intros r. frames.
  - apply respects_execute_external_command.
Qed.

Lemma respects_execute_single (cmdline : cstring) :
  exit_ok -> ok (execute_single MAX_ARGS sys cmdline).
Proof.
  intros He. unfold execute_single.
  apply respects_bind; [apply respects_parseline|]. intros [|c argv]; [frames|].
  apply respects_bind; [apply respects_get|]. intros s.
  destruct (hm_get (alias_hm s) c); [|now apply respects_dispatch].
  apply respects_bind; [apply respects_parseline|].
  intros [|c' argv']; [frames|now apply respects_dispatch].
Qed.

Lemma prevalidate_length (todo : list cstring) :
  forall (done out : list cstring) (st st' : shell),
    prevalidate MAX_ARGS sys todo done st = Ret (Some out) st' ->
    length out = length done + length todo.
Proof.
  induction todo as [|seg rest IH]; intros done out st st' H; cbn [prevalidate] in H.
  - inversion H; subst. simpl. lia.
  - unfold bind in H.
    destruct (validate_segment MAX_ARGS sys seg st) as [[seg'|] s| |];
      try discriminate.
    apply IH in H. rewrite length_app in H. simpl in *. lia.
Qed.

Hypothesis ok_bad : MAX_ARGS = 0 -> okf BadRead.

Lemma respects_execute_pipe_line (cmdline : cstring) :
  ok (execute_pipe_line MAX_ARGS sys cmdline).
Proof.
  unfold execute_pipe_line.
  destruct (split_segments MAX_ARGS cmdline) as [|segments] eqn:Es; [frames|].
  intros st. unfold bind.
  pose proof (respects_prevalidate segments [] st) as Hp.
  destruct (prevalidate MAX_ARGS sys segments [] st) as [[out|] s|c s|f s] eqn:Ep;
    [|exact Hp|exact Hp|exact Hp].
  assert (Ho : out = [] -> okf BadRead).
  { intros ->. apply prevalidate_length in Ep. simpl in Ep.
    destruct (Nat.eq_dec MAX_ARGS 0) as [E0|E0]; [now apply ok_bad|].
    exfalso. apply (split_segments_nonempty MAX_ARGS cmdline segments Es); [lia|].
    destruct segments; [reflexivity|discriminate]. }
  pose proof (respects_execute_pipeline out Ho s) as He.
  destruct (execute_pipeline MAX_ARGS sys out s) as [a s'|c s'|f s'].
  - eapply R_trans; eauto.
  - destruct He. split; [assumption|eapply R_trans; eauto].
  - destruct He. split; [assumption|eapply R_trans; eauto].
Qed.

(** The dispatcher after its history step. *)
Lemma respects_run_line (cmdline : cstring) :
  exit_ok ->
  ok (if contains cmdline PIPE
      then execute_pipe_line MAX_ARGS sys cmdline
      else execute_single MAX_ARGS sys cmdline).
Proof.
  intros He. destruct (contains cmdline PIPE);
    [apply respects_execute_pipe_line|now apply respects_execute_single].
Qed.

(** *** The whole program *)

Hypothesis R_hist : forall h s, R s (set_history_da h s).

Lemma respects_record_history (cmdline : cstring) : ok (record_history cmdline).
Proof.
  unfold record_history. frames. apply respects_modify. intros s. apply R_hist.
Qed.

Lemma respects_execute_command (cmdline : cstring) :
  exit_ok -> ok (execute_command MAX_ARGS sys cmdline).
Proof.
  intros He. unfold execute_command.
  apply respects_bind; [apply respects_record_history|]. intros _.
  now apply respects_run_line.
Qed.

Lemma respects_interactive_main (lines : list cstring) :
  exit_ok -> ok (interactive_main MAX_ARGS sys lines).
Proof.
  intros He. induction lines as [|l lines IH]; cbn [interactive_main].
  - frames.
  - apply respects_bind; [apply respects_add_out|]. intros _.
    apply respects_bind; [now apply respects_execute_command|]. intros _.
    exact IH.
Qed.

Lemma respects_batch_loop (lines : list cstring) :
  exit_ok -> forall result, ok (batch_loop MAX_ARGS sys lines result).
Proof.
  intros He. induction lines as [|l lines IH]; intros result; cbn [batch_loop].
  - frames.
  - apply respects_bind; [now apply respects_execute_command|]. intros r.
    apply IH.
Qed.

Lemma respects_main (argv : list cstring) :
  exit_ok -> ok (main MAX_ARGS sys argv).
Proof.
  intros He. unfold main.
  apply respects_bind; [frames|]. intros _.
  destruct (2 <? length argv)%nat eqn:E2; [frames|].
  apply Nat.ltb_ge in E2.
  apply respects_bind; [|intros _; frames].
  destruct (length argv) as [|[|[|n]]] eqn:El; [frames| | |frames].
  - now apply respects_interactive_main.
  - apply respects_bind; [apply respects_arg; lia|]. intros a1.
    apply respects_bind; [|intros r; frames].
    unfold batch_main. destruct (os_fopen sys a1); [|frames].
    now apply respects_batch_loop.
Qed.

End Sys.

End Frame.

End FrameFacts.

(** ** The dispatcher as a whole *)

Module ShellFacts.

Import Cstr CstrFacts Wsh HashMap DynamicArray Spec Props Runs LineFacts FrameFacts.

Lemma chdirs_app (a b : list event) : chdirs (a ++ b) = chdirs a ++ chdirs b.
Proof. apply flat_map_app. Qed.

Lemma child_faults_app (a b : list event) :
  child_faults (a ++ b) = child_faults a ++ child_faults b.
Proof. apply flat_map_app. Qed.

(** X4: a line with a pipe character never makes the shell process exit
    and never changes what the shell itself holds: whatever the segments are
    (builtins such as [exit], [cd], [alias], [path] included, which run in
    child processes on copies of the state), the shell goes on with the
    aliases and the search path it had, and it has not changed its working
    directory.  The line returns to the caller of the dispatcher unless its
    pre-validation performs one of two undefined operations, the use of the
    NULL first token of an alias that expands to no token or a store past
    the argument array; this happens before any pipe or process is
    created. *)
Theorem pipeline_line_spares_the_shell (MAX_ARGS : nat) (sys : os)
        (line : cstring) (st : shell) :
  contains line PIPE = true ->
  match execute_command MAX_ARGS sys line st with
  | Exit _ _ => False
  | Ret _ s =>
      alias_hm s = alias_hm st /\ path_env s = path_env st /\
      chdirs (trace s) = chdirs (trace st)
  | Crash f s =>
      (f = NullDeref \/ f = ArgvOverflow) /\
      alias_hm s = alias_hm st /\ path_env s = path_env st /\
      trace s = trace st
  end.
Proof.
  intros Hp. unfold execute_command, bind. rewrite record_history_eq, Hp.
  set (st1 := recorded line st).
  assert (H1 : alias_hm st1 = alias_hm st /\ path_env st1 = path_env st /\
               trace st1 = trace st)
    by (unfold st1, recorded; destruct (has_text line); repeat split; reflexivity).
  clearbody st1. destruct H1 as [Ha [Hq Ht]].
  unfold execute_pipe_line.
  destruct (split_segments MAX_ARGS line) as [|segments].
  { cbv [bind wsh_warn modify ret]. cbn. rewrite Ha, Hq, Ht. auto. }
  unfold bind.
  pose proof (respects_prevalidate
                (fun f => f = NullDeref \/ f = ArgvOverflow) False
                (fun a b => alias_hm b = alias_hm a /\ path_env b = path_env a /\
                            trace b = trace a)
                (fun s => ltac:(repeat split; reflexivity))
                (fun a b c H H' => ltac:(destruct H as [? [? ?]];
                                         destruct H' as [? [? ?]];
                                         repeat split; congruence))
                (fun v s => ltac:(repeat split; reflexivity))
                (fun o s => ltac:(repeat split; reflexivity))
                (or_introl eq_refl) (or_intror eq_refl)
                MAX_ARGS sys segments [] st1) as Hv.
  destruct (prevalidate MAX_ARGS sys segments [] st1) as [[out|] s|c s|f s].
  - destruct Hv as [Ha1 [Hq1 Ht1]].
    destruct (PipelineFacts.execute_pipeline_run MAX_ARGS sys out s)
      as [r [s' [new [E _]]]].
    assert (Hev : forall e s0,
               chdirs [e] = [] ->
               alias_hm (add_event e s0) = alias_hm s0 /\
               path_env (add_event e s0) = path_env s0 /\
               chdirs (trace (add_event e s0)) = chdirs (trace s0)).
    { intros e s0 He. repeat split; try reflexivity.
      cbn [trace add_event]. rewrite chdirs_app, He. apply app_nil_r. }
    pose proof (respects_execute_pipeline
                  (fun _ => True) False
                  (fun a b => alias_hm b = alias_hm a /\
                              path_env b = path_env a /\
                              chdirs (trace b) = chdirs (trace a))
                  (fun s0 => ltac:(repeat split; reflexivity))
                  (fun a b c H H' => ltac:(destruct H as [? [? ?]];
                                           destruct H' as [? [? ?]];
                                           repeat split; congruence))
                  (fun v s0 => ltac:(repeat split; reflexivity))
                  (fun o s0 => ltac:(repeat split; reflexivity))
                  (fun r0 s0 => Hev (EvPipe r0) s0 eq_refl)
                  (fun pid c s0 _ => Hev (EvFork pid c) s0 eq_refl)
                  (fun s0 => Hev EvForkFailed s0 eq_refl)
                  (fun pid s0 => Hev (EvKill pid) s0 eq_refl)
                  (fun pid w s0 => Hev (EvWait pid w) s0 eq_refl)
                  (fun fd s0 => Hev (EvClose fd) s0 eq_refl)
                  MAX_ARGS sys (fun _ _ _ _ _ _ => I) out (fun _ => I) s) as Hx.
    rewrite E in Hx |- *. destruct Hx as [Ha2 [Hq2 Hc2]].
    repeat split; congruence.
  - destruct Hv as [Ha1 [Hq1 Ht1]]. cbv [ret]. repeat split; congruence.
  - now destruct Hv.
  - destruct Hv as [Hf [Ha1 [Hq1 Ht1]]]. repeat split; congruence.
Qed.

Lemma pipeline_line_spares_the_shell_witness :
  match execute_command bound os_echo (cs "cd /tmp | exit" ++ [NEWLINE]) started with
  | Exit _ _ => False
  | Ret _ s =>
      alias_hm s = alias_hm started /\ path_env s = path_env started /\
      chdirs (trace s) = chdirs (trace started)
  | Crash f s =>
      (f = NullDeref \/ f = ArgvOverflow) /\
      alias_hm s = alias_hm started /\ path_env s = path_env started /\
      trace s = trace started
  end.
Proof.
  apply (pipeline_line_spares_the_shell bound os_echo
           (cs "cd /tmp | exit" ++ [NEWLINE]) started).
  reflexivity.
Defined.

(** X5: every input line that holds a character other than spaces and tabs
    is appended to the history exactly once, as it was read (its newline
    included) and before it is run; nothing else changes the history:
    whatever the command is and however it ends, the history after the line
    is the history before it, followed by the line if it has such a
    character. *)
Theorem line_is_recorded_once (MAX_ARGS : nat) (sys : os) (line : cstring)
        (st : shell) :
  history_da (final_state (execute_command MAX_ARGS sys line st)) =
  if has_text line then history_da st ++ [line] else history_da st.
Proof.
  unfold execute_command, bind. rewrite record_history_eq.
  set (st1 := recorded line st).
  assert (H1 : history_da st1 =
               if has_text line then history_da st ++ [line] else history_da st)
    by (unfold st1, recorded; destruct (has_text line); reflexivity).
  clearbody st1. rewrite <- H1.
  pose proof (respects_run_line
                (fun _ => True) True (fun a b => history_da b = history_da a)
                (fun s => eq_refl)
                (fun a b c H2 H3 => eq_trans H3 H2)
                (fun v s => eq_refl) (fun o s => eq_refl) (fun o s => eq_refl)
                (fun m s => eq_refl) (fun p s => eq_refl) (fun r s => eq_refl)
                (fun pid c s _ => eq_refl) (fun s => eq_refl)
                (fun pid s => eq_refl) (fun pid w s => eq_refl)
                (fun fd s => eq_refl) (fun d b s => eq_refl)
                I I I MAX_ARGS sys (fun _ _ _ _ _ _ => I) (fun _ => I) line I st1)
    as H.
  destruct (contains line PIPE).
  - destruct (execute_pipe_line MAX_ARGS sys line st1) as [a s|c s|f s];
      simpl; [exact H|apply H|apply H].
  - destruct (execute_single MAX_ARGS sys line st1) as [a s|c s|f s];
      simpl; [exact H|apply H|apply H].
Qed.

(** No child of a pipeline fails an assertion or loads an array element
    that was never stored. *)
Lemma child_faults_expected (MAX_ARGS : nat) (sys : os) (seg : cstring)
      (in_fd out_fd : Z) (st : shell) (f : fault) :
  child_of (execute_segment MAX_ARGS sys seg in_fd out_fd st) = CCrash f ->
  expected f = true.
Proof.
  pose proof (respects_execute_segment
                (fun f => expected f = true) True (fun _ _ => True)
                (fun _ => I) (fun _ _ _ _ _ => I)
                (fun _ _ => I) (fun _ _ => I) (fun _ _ => I) (fun _ _ => I)
                (fun _ _ => I) (fun _ _ => I) (fun _ _ _ => I)
                eq_refl eq_refl eq_refl MAX_ARGS sys seg in_fd out_fd I st) as H.
  destruct (execute_segment MAX_ARGS sys seg in_fd out_fd st) as [[p a] s|c s|g s];
    simpl; try discriminate.
  intros E. inversion E; subst. apply H.
Qed.

(** The events of a process keep the children within the expected faults. *)
Lemma event_keeps_children (e : event) (s : shell) :
  forallb expected (child_faults [e]) = true ->
  forallb expected (child_faults (trace s)) = true ->
  forallb expected (child_faults (trace (add_event e s))) = true.
Proof.
  intros He Hs. cbn [trace add_event].
  rewrite child_faults_app, forallb_app, Hs. exact He.
Qed.

(** X6: no run of the shell fails one of its assertions or loads an element
    of an argument or segment array that was never stored, neither in the
    shell process nor in a child of a pipeline, provided the array bound
    [MAX_ARGS] is positive.  The undefined operations left are the use of a
    NULL argument, a store past the argument array and the history listing on
    an empty history. *)
Theorem assertions_never_fail (MAX_ARGS : nat) (sys : os) (argv : list cstring)
        (st : shell) :
  0 < MAX_ARGS ->
  forallb expected (child_faults (trace st)) = true ->
  match main MAX_ARGS sys argv st with
  | Crash f s =>
      expected f = true /\ forallb expected (child_faults (trace s)) = true
  | Ret _ s | Exit _ s => forallb expected (child_faults (trace s)) = true
  end.
Proof.
  intros Hm Hst.
  pose proof (respects_main
                (fun f => expected f = true) True
                (fun a b => forallb expected (child_faults (trace a)) = true ->
                            forallb expected (child_faults (trace b)) = true)
                (fun s H => H)
                (fun a b c H1 H2 H => H2 (H1 H))
                (fun v s H => H) (fun o s H => H) (fun o s H => H)
                (fun m s H => H) (fun p s H => H)
                (fun r s => event_keeps_children (EvPipe r) s eq_refl))
    as H.
  assert (Hfork : forall pid c s,
             (forall f, c = CCrash f -> expected f = true) ->
             forallb expected (child_faults (trace s)) = true ->
             forallb expected (child_faults (trace (add_event (EvFork pid c) s))) = true).
  { intros pid c s Hc. apply event_keeps_children.
    destruct c as [code|path a|f]; try reflexivity.
    simpl. now rewrite (Hc f eq_refl). }
  specialize (H Hfork
                (fun s => event_keeps_children EvForkFailed s eq_refl)
                (fun pid s => event_keeps_children (EvKill pid) s eq_refl)
                (fun pid w s => event_keeps_children (EvWait pid w) s eq_refl)
                (fun fd s => event_keeps_children (EvClose fd) s eq_refl)
                (fun d b s => event_keeps_children (EvChdir d b) s eq_refl)
                eq_refl eq_refl eq_refl MAX_ARGS sys
                (child_faults_expected MAX_ARGS sys)).
  assert (Hbad : MAX_ARGS = 0 -> expected BadRead = true) by lia.
  specialize (H Hbad (fun h s H => H) argv I st).
  destruct (main MAX_ARGS sys argv st) as [a s|c s|f s].
  - now apply H.
  - destruct H as [_ H]. now apply H.
  - destruct H as [Hf H]. split; [exact Hf|now apply H].
Qed.

Lemma assertions_never_fail_witness :
  match main bound os_false [cs "wsh"] boot with
  | Crash f s =>
      expected f = true /\ forallb expected (child_faults (trace s)) = true
  | Ret _ s | Exit _ s => forallb expected (child_faults (trace s)) = true
  end.
Proof.
  apply (assertions_never_fail bound os_false [cs "wsh"] boot);
    [unfold bound; lia|reflexivity].
Defined.

End ShellFacts.

(** ** Builtin commands through the dispatcher *)

Module CommandFacts.

Import Cstr CstrFacts Wsh HashMap DynamicArray Spec Props Runs LineFacts.

Lemma printed_lines (l : list cstring) :
  forall s,
    let s' := fold_left (fun s x => add_out (Text x) s) l s in
    out s' = out s ++ map Text l /\ rc s' = rc s /\ alias_hm s' = alias_hm s /\
    history_da s' = history_da s /\ path_env s' = path_env s /\
    err s' = err s /\ trace s' = trace s.
Proof.
  induction l as [|x l IH]; intros s; simpl.
  - rewrite app_nil_r. repeat split; reflexivity.
  - destruct (IH (add_out (Text x) s)) as [H1 [H2 [H3 [H4 [H5 [H6 H7]]]]]].
    cbv zeta in *. rewrite H1, H2, H3, H4, H5, H6, H7. cbn [out add_out].
    rewrite <- app_assoc. repeat split; reflexivity.
Qed.

(** With one more entry than it lists, the listing is the entries before
    the last one. *)
Lemma da_print_but_last (h : DynamicArray.t) (line : cstring) :
  (Z.of_nat (length h) < 2 ^ 64)%Z -> da_print (da_put h line) = Some h.
Proof.
  intros Hl. unfold da_print, print_bound, da_put.
  rewrite length_app. simpl length.
  replace (Z.of_nat (length h + 1) - 1)%Z with (Z.of_nat (length h)) by lia.
  rewrite Z.mod_small by lia.
  replace (Z.of_nat (length h) <=? Z.of_nat (length h + 1))%Z with true
    by (symmetry; apply Z.leb_le; lia).
  rewrite Nat2Z.id, firstn_app, Nat.sub_diag, firstn_all. simpl.
  now rewrite app_nil_r.
Qed.

Section Sys.

Variable MAX_ARGS : nat.
Variable sys : os.

(** A line with a token that holds a character other than space, tab and
    newline is recorded. *)
Lemma has_text_of_token (line : cstring) (argv : list cstring) (t : cstring)
      (x : ascii) :
  tokenize MAX_ARGS line = Tokens argv ->
  In t argv -> In x t -> blank_char x = false -> x <> NEWLINE ->
  has_text line = true.
Proof.
  intros Ht Hin Hx Hb Hn. unfold has_text. apply negb_true_iff.
  destruct (forallb blank_char (chomp line)) eqn:E; [|reflexivity]. exfalso.
  destruct (HistoryFacts.tokenize_chars MAX_ARGS line argv Ht t x Hin Hx) as [Hl| ->];
    [|discriminate].
  rewrite forallb_forall in E.
  destruct (PipeFacts.chomp_cases line) as [Ec|[l [El Ec]]].
  - rewrite Ec in E. specialize (E x Hl). congruence.
  - rewrite Ec in E. rewrite El in Hl.
    apply in_app_or in Hl as [Hl|[Hl|[]]]; [|congruence].
    specialize (E x Hl). congruence.
Qed.

(** A line without a pipe character whose first token is not an alias is
    dispatched with its tokens, after the history step. *)
Lemma execute_plain_line (line c : cstring) (args : list cstring) (st : shell) :
  contains line PIPE = false ->
  tokenize MAX_ARGS line = Tokens (c :: args) ->
  hm_get (alias_hm st) c = None ->
  execute_command MAX_ARGS sys line st = dispatch sys (c :: args) (recorded line st).
Proof.
  intros Hp Ht Ha. unfold execute_command, bind.
  rewrite record_history_eq, Hp.
  unfold execute_single, parseline_no_subst. rewrite Ht. unfold bind, ret, get.
  replace (alias_hm (recorded line st)) with (alias_hm st)
    by (unfold recorded; destruct (has_text line); reflexivity).
  now rewrite Ha.
Qed.

Lemma recorded_text (line : cstring) (st : shell) :
  has_text line = true ->
  recorded line st = set_history_da (history_da st ++ [line]) st.
Proof. intros H. unfold recorded. now rewrite H. Qed.

(** X7: the [history] command lists the lines entered before it and not
    itself: when a line whose only token is [history] is run, the standard
    output receives the entries the history held before the line, in their
    order and as they were read; the line itself is recorded as the new last
    entry and the command succeeds. *)
Theorem history_lists_earlier_lines (line : cstring) (st : shell) :
  contains line PIPE = false ->
  tokenize MAX_ARGS line = Tokens [cs "history"] ->
  hm_get (alias_hm st) (cs "history") = None ->
  (Z.of_nat (length (history_da st)) < 2 ^ 64)%Z ->
  exists st',
    execute_command MAX_ARGS sys line st = Ret EXIT_SUCCESS st' /\
    out st' = out st ++ map Text (history_da st) /\
    history_da st' = history_da st ++ [line] /\
    rc st' = EXIT_SUCCESS /\ err st' = err st /\ trace st' = trace st.
Proof.
  intros Hp Ht Ha Hl.
  rewrite (execute_plain_line line (cs "history") [] st Hp Ht Ha).
  rewrite recorded_text.
  2:{ apply (has_text_of_token line [cs "history"] (cs "history") "h"%char Ht);
        [now left|now left|reflexivity|discriminate]. }
  unfold dispatch.
  replace (streq (cs "history") (cs "exit")) with false by reflexivity.
  replace (lookup_builtin builtins (cs "history")) with (Some B_history)
    by reflexivity.
  cbn [run_builtin]. unfold wsh_history. cbn [length Nat.ltb Nat.leb Nat.eqb].
  unfold bind at 1. unfold bind at 1. unfold get at 1.
  cbn [history_da set_history_da].
  change (history_da st ++ [line]) with (da_put (history_da st) line).
  rewrite (da_print_but_last (history_da st) line Hl).
  unfold bind at 1. unfold print_lines, modify. unfold ret at 1.
  unfold bind, modify, ret.
  destruct (printed_lines (history_da st)
              (set_history_da (da_put (history_da st) line) st))
    as [H1 [H2 [H3 [H4 [H5 [H6 H7]]]]]].
  cbv zeta in *. eexists. split; [reflexivity|].
  cbn [out rc err trace history_da set_rc].
  rewrite H1, H4, H6, H7. repeat split; reflexivity.
Qed.

(** X8: [history N] prints entry number [N] of the history, counting from
    1, with the line itself as the last entry: when the argument of the
    command is read completely as the number [N], the standard output
    receives the entry at index [N - 1] of the history extended by the line,
    and the command succeeds; when there is no such entry ([N] is 0, negative
    or above the number of entries) nothing is read from the array, the
    invalid-argument diagnostic is printed and the return code is failure. *)
Theorem history_entry_by_number (line a : cstring) (n : Z) (st : shell) :
  contains line PIPE = false ->
  tokenize MAX_ARGS line = Tokens [cs "history"; a] ->
  hm_get (alias_hm st) (cs "history") = None ->
  strtol a = (n, length a) ->
  nonempty a = true ->
  execute_command MAX_ARGS sys line st =
  match (if (1 <=? n)%Z
         then nth_error (history_da st ++ [line]) (Z.to_nat (n - 1))
         else None) with
  | Some e =>
      Ret EXIT_SUCCESS
          (set_rc EXIT_SUCCESS
             (add_out (Text e) (set_history_da (history_da st ++ [line]) st)))
  | None =>
      Ret EXIT_FAILURE
          (set_rc EXIT_FAILURE
             (add_err (Msg HISTORY_INVALID_ARG [])
                (set_history_da (history_da st ++ [line]) st)))
  end.
Proof.
  intros Hp Ht Ha Hn Hne.
  rewrite (execute_plain_line line (cs "history") [a] st Hp Ht Ha).
  rewrite recorded_text.
  2:{ apply (has_text_of_token line [cs "history"; a] (cs "history") "h"%char Ht);
        [now left|now left|reflexivity|discriminate]. }
  unfold dispatch.
  replace (streq (cs "history") (cs "exit")) with false by reflexivity.
  replace (lookup_builtin builtins (cs "history")) with (Some B_history)
    by reflexivity.
  cbn [run_builtin]. unfold wsh_history.
  cbn [length Nat.ltb Nat.leb Nat.eqb arg nth_error].
  unfold bind at 1. unfold bind at 1. unfold ret at 1. rewrite Hn.
  assert (Hlen : (length a =? 0)%nat = false) by (destruct a; [discriminate|reflexivity]).
  rewrite Hlen, Nat.eqb_refl. cbn [negb orb].
  destruct (n <=? 0)%Z eqn:E0.
  - apply Z.leb_le in E0.
    replace (1 <=? n)%Z with false by (symmetry; apply Z.leb_gt; lia).
    reflexivity.
  - apply Z.leb_gt in E0.
    replace (1 <=? n)%Z with true by (symmetry; apply Z.leb_le; lia).
    unfold bind at 1. unfold get at 1. cbn [history_da set_history_da].
    destruct (Z.of_nat (length (history_da st ++ [line])) <? n)%Z eqn:El.
    + apply Z.ltb_lt in El.
      replace (nth_error (history_da st ++ [line]) (Z.to_nat (n - 1)))
        with (@None cstring) by (symmetry; apply nth_error_None; lia).
      reflexivity.
    + apply Z.ltb_ge in El. unfold da_get.
      destruct (nth_error (history_da st ++ [line]) (Z.to_nat (n - 1))) as [e|] eqn:Ee;
        [reflexivity|].
      apply nth_error_None in Ee. lia.
Qed.

(** [wsh_cd] makes at most one [chdir] call and succeeds exactly when that
    call did. *)
Lemma wsh_cd_run (c : cstring) (args : list cstring) (st : shell) :
  exists r st',
    wsh_cd sys (c :: args) st = Ret r st' /\
    alias_hm st' = alias_hm st /\ history_da st' = history_da st /\
    ((r = EXIT_SUCCESS /\
      exists d,
        match args with
        | [] => os_home sys = Some d
        | [a] => a = d
        | _ => False
        end /\
        trace st' = trace st ++ [EvChdir d true] /\ err st' = err st)
     \/
     (r = EXIT_FAILURE /\
      (exists m, err st' = err st ++ [m]) /\
      (trace st' = trace st \/ exists d, trace st' = trace st ++ [EvChdir d false]))).
Proof.
  unfold wsh_cd. destruct args as [|a [|b args]].
  - cbn [length Nat.ltb Nat.leb Nat.eqb]. cbv [bind ret sys_chdir].
    destruct (os_home sys) as [h|].
    + destruct (os_chdir sys (trace st) h) eqn:Ec; do 2 eexists;
        (split; [reflexivity|]); (split; [reflexivity|]); (split; [reflexivity|]).
      * left. split; [reflexivity|]. exists h. auto.
      * right. split; [reflexivity|]. split; [eexists; reflexivity|].
        right. exists h. reflexivity.
    + do 2 eexists. split; [reflexivity|]. split; [reflexivity|].
      split; [reflexivity|]. right.
      split; [reflexivity|]. split; [eexists; reflexivity|]. now left.
  - cbn [length Nat.ltb Nat.leb Nat.eqb arg nth_error]. cbv [bind ret sys_chdir].
    destruct (os_chdir sys (trace st) a) eqn:Ec; do 2 eexists;
      (split; [reflexivity|]); (split; [reflexivity|]); (split; [reflexivity|]).
    + left. split; [reflexivity|]. exists a. auto.
    + right. split; [reflexivity|]. split; [eexists; reflexivity|].
      right. exists a. reflexivity.
  - cbn [length Nat.ltb Nat.leb]. do 2 eexists. split; [reflexivity|].
    split; [reflexivity|]. split; [reflexivity|]. right.
    split; [reflexivity|]. split; [eexists; reflexivity|]. now left.
Qed.

(** X9: a [cd] line succeeds exactly when it made one successful [chdir]
    call.  With one argument the call is for that directory, without
    argument for the value of [HOME]; the line makes no other call.  When the
    call succeeds nothing is printed; otherwise the line returns failure
    after exactly one diagnostic, having made no call (too many arguments, or
    no argument and [HOME] unset) or one call that failed.  In both cases the
    line is recorded in the history and what it returns becomes the return
    code. *)
Theorem cd_line_succeeds_iff_chdir (line : cstring) (args : list cstring)
        (st : shell) :
  contains line PIPE = false ->
  tokenize MAX_ARGS line = Tokens (cs "cd" :: args) ->
  hm_get (alias_hm st) (cs "cd") = None ->
  exists r st',
    execute_command MAX_ARGS sys line st = Ret r st' /\
    rc st' = r /\ history_da st' = history_da st ++ [line] /\
    ((r = EXIT_SUCCESS /\
      exists d,
        match args with
        | [] => os_home sys = Some d
        | [a] => a = d
        | _ => False
        end /\
        trace st' = trace st ++ [EvChdir d true] /\ err st' = err st)
     \/
     (r = EXIT_FAILURE /\
      (exists m, err st' = err st ++ [m]) /\
      (trace st' = trace st \/ exists d, trace st' = trace st ++ [EvChdir d false]))).
Proof.
  intros Hp Ht Ha.
  rewrite (execute_plain_line line (cs "cd") args st Hp Ht Ha).
  rewrite recorded_text.
  2:{ apply (has_text_of_token line (cs "cd" :: args) (cs "cd") "c"%char Ht);
        [now left|now left|reflexivity|discriminate]. }
  unfold dispatch.
  replace (streq (cs "cd") (cs "exit")) with false by reflexivity.
  replace (lookup_builtin builtins (cs "cd")) with (Some B_cd) by reflexivity.
  cbn [run_builtin].
  destruct (wsh_cd_run (cs "cd") args (set_history_da (history_da st ++ [line]) st))
    as [r [st' [E [_ [Hh H]]]]].
  unfold bind at 1. rewrite E. cbv [bind modify ret].
  exists (if (r =? EXIT_SUCCESS)%Z then EXIT_SUCCESS else EXIT_FAILURE), (set_rc r st').
  cbn [rc history_da trace err set_rc set_history_da] in *.
  destruct H as [[-> H]|[-> H]]; cbn [Z.eqb EXIT_SUCCESS EXIT_FAILURE];
    (split; [reflexivity|]); (split; [reflexivity|]); (split; [exact Hh|]);
    [left|right]; (split; [reflexivity|exact H]).
Qed.

(** X10: a line whose first token is [exit] ends the shell only when it has
    no other token, and then with the return code the previous command left
    as exit code; with an argument the line is a usage error: a diagnostic is
    printed, the return code becomes failure and the shell goes on.  In both
    cases the line was recorded in the history first. *)
Theorem exit_line_ends_with_last_code (line : cstring) (args : list cstring)
        (st : shell) :
  contains line PIPE = false ->
  tokenize MAX_ARGS line = Tokens (cs "exit" :: args) ->
  hm_get (alias_hm st) (cs "exit") = None ->
  execute_command MAX_ARGS sys line st =
  match args with
  | [] => Exit (rc st) (set_history_da (history_da st ++ [line]) st)
  | _ :: _ =>
      Ret EXIT_FAILURE
          (set_rc EXIT_FAILURE
             (add_err (Msg INVALID_EXIT_USE [])
                (set_history_da (history_da st ++ [line]) st)))
  end.
Proof.
  intros Hp Ht Ha.
  rewrite (execute_plain_line line (cs "exit") args st Hp Ht Ha).
  rewrite recorded_text.
  2:{ apply (has_text_of_token line (cs "exit" :: args) (cs "exit") "e"%char Ht);
        [now left|now left|reflexivity|discriminate]. }
  unfold dispatch.
  replace (streq (cs "exit") (cs "exit")) with true by reflexivity.
  destruct args as [|a args]; reflexivity.
Qed.

(** X11: the search path set by [path VALUE] is what a later [path] shows: a
    line with the tokens [path] and a value succeeds and makes the value the
    search path, whatever the value is (the empty text included); a line with
    the single token [path] run next prints that value followed by a newline
    and succeeds.  Neither line creates a process. *)
Theorem path_is_set_and_shown (line1 line2 v : cstring) (st : shell) :
  contains line1 PIPE = false ->
  tokenize MAX_ARGS line1 = Tokens [cs "path"; v] ->
  contains line2 PIPE = false ->
  tokenize MAX_ARGS line2 = Tokens [cs "path"] ->
  hm_get (alias_hm st) (cs "path") = None ->
  exists st1 st2,
    execute_command MAX_ARGS sys line1 st = Ret EXIT_SUCCESS st1 /\
    path_env st1 = Some v /\
    execute_command MAX_ARGS sys line2 st1 = Ret EXIT_SUCCESS st2 /\
    out st2 = out st ++ [Text (v ++ [NEWLINE])] /\
    path_env st2 = Some v /\ trace st2 = trace st.
Proof.
  intros Hp1 Ht1 Hp2 Ht2 Ha.
  assert (Hd : forall args s,
             dispatch sys (cs "path" :: args) s =
             (r <- wsh_path (cs "path" :: args) ;;
              modify (set_rc r) ;;;
              ret (if (r =? EXIT_SUCCESS)%Z then EXIT_SUCCESS else EXIT_FAILURE)) s).
  { intros args s. unfold dispatch.
    replace (streq (cs "path") (cs "exit")) with false by reflexivity.
    replace (lookup_builtin builtins (cs "path")) with (Some B_path) by reflexivity.
    reflexivity. }
  assert (H1 : has_text line1 = true).
  { apply (has_text_of_token line1 [cs "path"; v] (cs "path") "p"%char Ht1);
      [now left|now left|reflexivity|discriminate]. }
  assert (H2 : has_text line2 = true).
  { apply (has_text_of_token line2 [cs "path"] (cs "path") "p"%char Ht2);
      [now left|now left|reflexivity|discriminate]. }
  eexists. eexists. split; [|split; [|split]].
  - rewrite (execute_plain_line line1 (cs "path") [v] st Hp1 Ht1 Ha), Hd.
    rewrite (recorded_text line1 st H1). reflexivity.
  - reflexivity.
  - rewrite (execute_plain_line line2 (cs "path") [] _ Hp2 Ht2); [|exact Ha].
    rewrite Hd, (recorded_text line2 _ H2). reflexivity.
  - repeat split; reflexivity.
Qed.

(** X12: an alias defined without a text stands for a single space.  The
    line [alias NAME =] succeeds and records a single space for the name.  A
    later line [NAME ARG ...] is then run as the line of its arguments alone:
    the first argument becomes the command; the line [NAME] by itself does
    nothing and succeeds. *)
Theorem alias_without_text_drops_the_name (line1 line2 name : cstring)
        (args : list cstring) (st : shell) :
  contains line1 PIPE = false ->
  tokenize MAX_ARGS line1 = Tokens [cs "alias"; name; cs "="] ->
  nonempty name = true ->
  hm_get (alias_hm st) (cs "alias") = None ->
  contains line2 PIPE = false ->
  tokenize MAX_ARGS line2 = Tokens (name :: args) ->
  forallb simple_word args = true ->
  exists st1,
    execute_command MAX_ARGS sys line1 st = Ret EXIT_SUCCESS st1 /\
    hm_get (alias_hm st1) name = Some (cs " ") /\
    execute_command MAX_ARGS sys line2 st1 =
    match args with
    | [] => Ret EXIT_SUCCESS (recorded line2 st1)
    | _ :: _ => dispatch sys args (recorded line2 st1)
    end.
Proof.
  intros Hp1 Ht1 Hn Ha Hp2 Ht2 Hw.
  assert (Hl : (length args <=? MAX_ARGS)%nat = true).
  { apply Nat.leb_le.
    pose proof (TokenizerFacts.tokenize_count MAX_ARGS line2 _ Ht2) as H.
    simpl in H. lia. }
  eexists. split; [|split].
  - rewrite (execute_plain_line line1 (cs "alias") [name; cs "="] st Hp1 Ht1 Ha).
    unfold dispatch.
    replace (streq (cs "alias") (cs "exit")) with false by reflexivity.
    replace (lookup_builtin builtins (cs "alias")) with (Some B_alias) by reflexivity.
    cbn [run_builtin]. unfold wsh_alias.
    cbn [length Nat.eqb Nat.ltb Nat.leb arg nth_error].
    replace (streq (cs "=") (cs "=")) with true by reflexivity.
    destruct name as [|c name]; [discriminate|].
    reflexivity.
  - cbn [alias_hm set_rc set_alias_hm]. apply AliasFacts.hm_get_put_same.
  - match goal with |- execute_command _ _ _ ?s = _ => set (st1 := s) end.
    assert (Hst1 : hm_get (alias_hm st1) name = Some (cs " ")).
    { unfold st1. cbn [alias_hm set_rc set_alias_hm].
      apply AliasFacts.hm_get_put_same. }
    clearbody st1.
    unfold execute_command, bind. rewrite record_history_eq, Hp2.
    unfold execute_single, parseline_no_subst. rewrite Ht2.
    unfold bind, ret, get.
    replace (alias_hm (recorded line2 st1)) with (alias_hm st1)
      by (unfold recorded; destruct (has_text line2); reflexivity).
    rewrite Hst1.
    change (alias_subst (cs " ") (name :: args)) with (SPACE :: spaced args).
    rewrite (WordFacts.tokenize_spaced MAX_ARGS args Hw Hl).
    destruct args; reflexivity.
Qed.

End Sys.

Lemma alias_without_text_drops_the_name_witness :
  exists st1,
    execute_command bound os_echo (cs "alias x =" ++ [NEWLINE]) started =
      Ret EXIT_SUCCESS st1 /\
    hm_get (alias_hm st1) (cs "x") = Some (cs " ") /\
    execute_command bound os_echo (cs "x echo a" ++ [NEWLINE]) st1 =
    dispatch os_echo [cs "echo"; cs "a"] (recorded (cs "x echo a" ++ [NEWLINE]) st1).
Proof.
  apply (alias_without_text_drops_the_name bound os_echo
           (cs "alias x =" ++ [NEWLINE]) (cs "x echo a" ++ [NEWLINE]) (cs "x")
           [cs "echo"; cs "a"] started); reflexivity.
Defined.

Lemma history_lists_earlier_lines_witness :
  exists st',
    execute_command bound os_echo (cs " history " ++ [NEWLINE])
                    (set_history_da [cs "ls" ++ [NEWLINE]] started) =
      Ret EXIT_SUCCESS st' /\
    out st' = [] ++ map Text [cs "ls" ++ [NEWLINE]] /\
    history_da st' = [cs "ls" ++ [NEWLINE]] ++ [cs " history " ++ [NEWLINE]] /\
    rc st' = EXIT_SUCCESS /\ err st' = [] /\ trace st' = [].
Proof.
  apply (history_lists_earlier_lines bound os_echo (cs " history " ++ [NEWLINE])
           (set_history_da [cs "ls" ++ [NEWLINE]] started)); reflexivity.
Defined.

Lemma history_entry_by_number_witness :
  execute_command bound os_echo (cs "history 2" ++ [NEWLINE])
                  (set_history_da [cs "ls" ++ [NEWLINE]] started) =
  Ret EXIT_SUCCESS
      (set_rc EXIT_SUCCESS
         (add_out (Text (cs "history 2" ++ [NEWLINE]))
            (set_history_da [cs "ls" ++ [NEWLINE]; cs "history 2" ++ [NEWLINE]]
                            started))).
Proof.
  apply (history_entry_by_number bound os_echo (cs "history 2" ++ [NEWLINE])
           (cs "2") 2 (set_history_da [cs "ls" ++ [NEWLINE]] started));
    reflexivity.
Defined.

Lemma cd_line_succeeds_iff_chdir_witness :
  exists r st',
    execute_command bound os_echo (cs "cd /tmp" ++ [NEWLINE]) started = Ret r st' /\
    rc st' = r /\ history_da st' = history_da started ++ [cs "cd /tmp" ++ [NEWLINE]] /\
    ((r = EXIT_SUCCESS /\
      exists d,
        cs "/tmp" = d /\
        trace st' = trace started ++ [EvChdir d true] /\ err st' = err started)
     \/
     (r = EXIT_FAILURE /\
      (exists m, err st' = err started ++ [m]) /\
      (trace st' = trace started \/
       exists d, trace st' = trace started ++ [EvChdir d false]))).
Proof.
  apply (cd_line_succeeds_iff_chdir bound os_echo (cs "cd /tmp" ++ [NEWLINE])
           [cs "/tmp"] started); reflexivity.
Defined.

Lemma exit_line_ends_with_last_code_witness :
  execute_command bound os_echo (cs "exit 3" ++ [NEWLINE]) started =
  Ret EXIT_FAILURE
      (set_rc EXIT_FAILURE
         (add_err (Msg INVALID_EXIT_USE [])
            (set_history_da [cs "exit 3" ++ [NEWLINE]] started))).
Proof.
  apply (exit_line_ends_with_last_code bound os_echo (cs "exit 3" ++ [NEWLINE])
           [cs "3"] started); reflexivity.
Defined.

Lemma path_is_set_and_shown_witness :
  exists st1 st2,
    execute_command bound os_echo (cs "path /opt/bin" ++ [NEWLINE]) started =
      Ret EXIT_SUCCESS st1 /\
    path_env st1 = Some (cs "/opt/bin") /\
    execute_command bound os_echo (cs "path" ++ [NEWLINE]) st1 = Ret EXIT_SUCCESS st2 /\
    out st2 = out started ++ [Text (cs "/opt/bin" ++ [NEWLINE])] /\
    path_env st2 = Some (cs "/opt/bin") /\ trace st2 = trace started.
Proof.
  apply (path_is_set_and_shown bound os_echo (cs "path /opt/bin" ++ [NEWLINE])
           (cs "path" ++ [NEWLINE]) (cs "/opt/bin") started); reflexivity.
Defined.

End CommandFacts.

(** ** Further properties of command resolution *)

Module ResolveFacts.

Import Cstr CstrFacts Wsh HashMap Spec Props Runs.

Lemma strtok_from_fields (d : ascii) (s : cstring) :
  forall cur, strtok_from d cur s = filter nonempty (fields_from d cur s).
Proof.
  induction s as [|x s IH]; intros cur; simpl.
  - destruct cur; reflexivity.
  - destruct (Ascii.eqb x d); [|apply IH].
    simpl. rewrite IH. destruct cur; reflexivity.
Qed.

Section Sys.

Variable sys : os.

Lemma search_dirs_find (tr : list event) (dirs : list cstring) (name : cstring) :
  search_dirs sys tr dirs name =
  option_map (fun d => d ++ SLASH :: name)
             (find (fun d => os_access sys tr (d ++ SLASH :: name)) dirs).
Proof.
  induction dirs as [|d dirs IH]; simpl; [reflexivity|].
  destruct (os_access sys tr (d ++ SLASH :: name)); [reflexivity|exact IH].
Qed.

(** X13: a command name that is not a path (it does not start with [/]
    or [./]) is looked up in the directories of the search path from left to
    right: the result is [DIR/NAME] for the first directory for which that
    file is executable, and NULL when there is none or the search path is
    unset or empty.  Empty components of the search path (a leading or
    trailing colon, two colons in a row) are skipped: they do not stand for
    the working directory. *)
Theorem resolver_takes_first_match (st : shell) (name : cstring) :
  is_path_name name = false ->
  find_executable_path sys st name =
  match path_env st with
  | None => None
  | Some p =>
      option_map (fun d => d ++ SLASH :: name)
                 (find (fun d => os_access sys (trace st) (d ++ SLASH :: name))
                       (path_dirs p))
  end.
Proof.
  intros Hn. unfold find_executable_path. rewrite Hn.
  destruct (path_env st) as [p|]; [|reflexivity].
  destruct p as [|c p]; [reflexivity|].
  cbn [length Nat.eqb]. rewrite search_dirs_find.
  unfold strtok_all, path_dirs, fields. now rewrite strtok_from_fields.
Qed.

(** X14: running an external command and resolving its name agree: the
    shell tries to create a process for the command exactly when the
    resolver finds a file for its name, although the two functions test path
    names and the search path each in their own code.  When the name does not
    resolve, the command returns failure, the return code is failure, one
    diagnostic is printed and no process is created. *)
Theorem external_command_agrees_with_resolver (c : cstring)
        (args : list cstring) (st : shell) :
  (find_executable_path sys st c = None <->
   trace (final_state (execute_external_command sys (c :: args) st)) = trace st) /\
  (find_executable_path sys st c = None ->
   exists m a,
     execute_external_command sys (c :: args) st =
     Ret EXIT_FAILURE (set_rc EXIT_FAILURE (add_err (Msg m a) st))).
Proof.
  assert (Hf : forall c0 full,
             trace (final_state (fork_and_wait sys c0 full (c :: args) st))
             <> trace st).
  { intros c0 full. unfold fork_and_wait, bind, get, sys_fork.
    generalize (child_of (external_child sys c0 full (c :: args) st)).
    intros child.
    assert (Hgrow : forall (e : event) (l : list event) (tr : list event),
               tr ++ e :: l <> tr).
    { intros e l tr H. apply (f_equal (@length event)) in H.
      rewrite length_app in H. simpl in H. lia. }
    destruct (os_fork sys (trace st)) as [pid|].
    - unfold sys_waitpid.
      cbn [trace add_event].
      destruct (os_waitpid sys (trace st ++ [EvFork pid child]) pid);
        cbn; rewrite <- app_assoc; apply Hgrow.
    - cbn. apply Hgrow. }
  unfold execute_external_command, bind, get, find_executable_path.
  destruct (is_path_name c) eqn:Ep.
  - destruct (os_access sys (trace st) c) eqn:Ea.
    + split; [split; [discriminate|intros H; now apply Hf in H]|discriminate].
    + split; [split; [reflexivity|reflexivity]|].
      intros _. do 2 eexists. reflexivity.
  - fold (find_executable_path sys st c).
    assert (Efind : find_executable_path sys st c =
                    match path_env st with
                    | None => None
                    | Some path_env =>
                        if (length path_env =? 0)%nat then None
                        else search_dirs sys (trace st) (strtok_all path_env COLON) c
                    end)
      by (unfold find_executable_path; now rewrite Ep).
    rewrite <- Efind.
    destruct (find_executable_path sys st c) as [full|].
    + split; [split; [discriminate|intros H; now apply Hf in H]|discriminate].
    + split.
      * split; [|reflexivity]. intros _. destruct (path_is_empty st); reflexivity.
      * intros _. destruct (path_is_empty st); do 2 eexists; reflexivity.
Qed.

(** X15: [which NAME] succeeds exactly for the names that the dispatcher can
    run: it returns success when the name is an alias, a builtin or a name
    for which the resolver finds a file, and failure otherwise, for every
    name on which its own test for path names agrees with the resolver's
    (every name but those that start with a dot not followed by a slash).  In
    both cases it prints one line on the standard output and changes nothing
    else: no diagnostic, and the return code is set by the caller. *)
Theorem which_succeeds_for_runnable_names (w name : cstring) (st : shell) :
  which_is_path_name name = is_path_name name ->
  exists r m a,
    wsh_which sys [w; name] st = Ret r (add_out (Msg m a) st) /\
    (r = EXIT_SUCCESS <->
     hm_get (alias_hm st) name <> None \/
     lookup_builtin builtins name <> None \/
     find_executable_path sys st name <> None).
Proof.
  intros Hn. unfold wsh_which.
  cbn [length Nat.eqb negb arg nth_error]. unfold bind at 1. unfold ret at 1.
  unfold bind at 1. unfold get at 1.
  rewrite (PathFacts.which_agrees sys st name Hn).
  destruct (hm_get (alias_hm st) name) as [e|].
  - do 3 eexists. split; [reflexivity|]. split; [intros _; left; discriminate|reflexivity].
  - destruct (lookup_builtin builtins name) as [b|].
    + do 3 eexists. split; [reflexivity|].
      split; [intros _; right; left; discriminate|reflexivity].
    + destruct (find_executable_path sys st name) as [full|].
      * do 3 eexists. split; [reflexivity|].
        split; [intros _; right; right; discriminate|reflexivity].
      * do 3 eexists. split; [reflexivity|].
        split; [discriminate|]. intros [H|[H|H]]; contradiction.
Qed.

Lemma lookup_none_not_exit (c : cstring) :
  lookup_builtin builtins c = None -> streq c (cs "exit") = false.
Proof.
  unfold builtins. cbn [lookup_builtin].
  destruct (streq c (cs "exit")); [discriminate|reflexivity].
Qed.

(** X16: a line that names an executable file starts it: when the first
    token of a line without pipe character is neither an alias nor a builtin
    and the resolver finds a file for it, and the [fork] call succeeds, the
    shell creates exactly one process.  This process calls [execv] on that
    file with the tokens of the line as its argument vector (the first one as
    typed, not the path of the file); it runs the file when the call
    succeeds, and ends with exit status [EXIT_FAILURE] when the call returns
    (the resolver accepts whatever passes [access], a directory included).
    The shell waits for this process and no other.  The return code becomes
    the exit status of the process, or failure when the process did not exit
    by itself, and stays as it was when the wait fails; the dispatcher
    returns failure only when the wait fails. *)
Theorem external_line_runs_the_file (MAX_ARGS : nat) (line c full : cstring)
        (args : list cstring) (pid : Z) (st : shell) :
  contains line PIPE = false ->
  tokenize MAX_ARGS line = Tokens (c :: args) ->
  hm_get (alias_hm st) c = None ->
  lookup_builtin builtins c = None ->
  find_executable_path sys st c = Some full ->
  os_fork sys (trace st) = Some pid ->
  let started_child :=
    EvFork pid (if os_execv sys (trace st) full (c :: args)
                then CExec full (c :: args) else CExit EXIT_FAILURE) in
  let w := os_waitpid sys (trace st ++ [started_child]) pid in
  exists st',
    execute_command MAX_ARGS sys line st =
      Ret (match w with WaitError => EXIT_FAILURE | _ => EXIT_SUCCESS end) st' /\
    trace st' = trace st ++ [started_child; EvWait pid w] /\
    rc st' = match w with
             | WaitError => rc st
             | WaitExited code => code
             | WaitSignaled => EXIT_FAILURE
             end.
Proof.
  intros Hp Ht Ha Hb Hf Hk started_child w.
  unfold execute_command, bind. rewrite LineFacts.record_history_eq, Hp.
  set (st1 := recorded line st).
  assert (H1 : alias_hm st1 = alias_hm st /\ path_env st1 = path_env st /\
               trace st1 = trace st /\ rc st1 = rc st)
    by (unfold st1, recorded; destruct (has_text line); repeat split; reflexivity).
  destruct H1 as [Ea [Eq [Et Er]]]. clearbody st1.
  unfold execute_single, parseline_no_subst. rewrite Ht.
  unfold bind, ret, get. rewrite Ea, Ha.
  unfold dispatch. rewrite (lookup_none_not_exit c Hb), Hb.
  assert (Hf1 : find_executable_path sys st1 c = Some full)
    by (unfold find_executable_path in *; rewrite Eq, Et; exact Hf).
  assert (Hrun : execute_external_command sys (c :: args) st1 =
                 fork_and_wait sys c full (c :: args) st1).
  { unfold execute_external_command, bind, get.
    destruct (is_path_name c) eqn:Ep.
    - unfold find_executable_path in Hf1. rewrite Ep in Hf1.
      destruct (os_access sys (trace st1) c); [|discriminate].
      now inversion Hf1.
    - now rewrite Hf1. }
  rewrite Hrun. unfold fork_and_wait, bind, get, sys_fork.
  rewrite ExitFacts.external_child_ends, Et, Hk.
  unfold sys_waitpid. cbn [trace add_event]. rewrite Et.
  fold started_child. fold w.
  destruct w; eexists; (split; [reflexivity|]);
    cbn [trace rc add_event add_err set_rc]; rewrite ?Et, ?Er, <- ?app_assoc;
    split; reflexivity.
Qed.

End Sys.

Lemma external_line_runs_the_file_witness :
  exists st',
    execute_command bound os_echo (cs "echo hi" ++ [NEWLINE]) started =
      Ret EXIT_SUCCESS st' /\
    trace st' = [EvFork 100 (CExec (cs "/bin/echo") [cs "echo"; cs "hi"]);
                 EvWait 100 (WaitExited 0)] /\
    rc st' = 0%Z.
Proof.
  apply (external_line_runs_the_file os_echo bound (cs "echo hi" ++ [NEWLINE])
           (cs "echo") (cs "/bin/echo") [cs "hi"] 100 started); reflexivity.
Defined.

Lemma which_succeeds_for_runnable_names_witness :
  exists r m a,
    wsh_which os_echo [cs "which"; cs "ls"] started =
      Ret r (add_out (Msg m a) started) /\
    (r = EXIT_SUCCESS <->
     hm_get (alias_hm started) (cs "ls") <> None \/
     lookup_builtin builtins (cs "ls") <> None \/
     find_executable_path os_echo started (cs "ls") <> None).
Proof.
  apply (which_succeeds_for_runnable_names os_echo (cs "which") (cs "ls") started).
  reflexivity.
Defined.

Lemma resolver_takes_first_match_witness :
  find_executable_path os_echo (set_path_env (Some (cs ":/opt::/bin")) started)
                       (cs "ls") = Some (cs "/bin/ls").
Proof.
  apply (resolver_takes_first_match os_echo
           (set_path_env (Some (cs ":/opt::/bin")) started) (cs "ls")).
  reflexivity.
Defined.

End ResolveFacts.

(** ** Batch mode *)

Module BatchFacts.

Import Cstr Wsh Spec Props Runs Inputs.

Section Sys.

Variable MAX_ARGS : nat.
Variable sys : os.

(** Reading a script in two parts. *)
Lemma batch_loop_app (l1 l2 : list cstring) :
  forall (result : Z) (st : shell),
    batch_loop MAX_ARGS sys (l1 ++ l2) result st =
    (r <- batch_loop MAX_ARGS sys l1 result ;; batch_loop MAX_ARGS sys l2 r) st.
Proof.
  induction l1 as [|l l1 IH]; intros result st; [reflexivity|].
  cbn [app batch_loop]. unfold bind.
  destruct (execute_command MAX_ARGS sys l st) as [r s|c s|f s];
    [|reflexivity|reflexivity].
  rewrite IH. reflexivity.
Qed.

(** X17: what batch mode returns for a script, which [main] makes the exit
    code of the shell, is what the dispatcher returned for the last line of
    the script alone: the results of the earlier lines are not kept.  (When an
    earlier line ends the shell, the script is not read to its end.) *)
Theorem batch_result_is_last_line (script_file : cstring)
        (lines : list cstring) (last : cstring) (st st' : shell) (r : Z) :
  os_fopen sys script_file = Some (lines ++ [last]) ->
  batch_loop MAX_ARGS sys lines EXIT_SUCCESS st = Ret r st' ->
  batch_main MAX_ARGS sys script_file st = execute_command MAX_ARGS sys last st'.
Proof.
  intros Hf Hl. unfold batch_main. rewrite Hf, batch_loop_app.
  unfold bind at 1. rewrite Hl. cbn [batch_loop]. unfold bind.
  destruct (execute_command MAX_ARGS sys last st'); reflexivity.
Qed.

End Sys.

(** A script whose first line fails and whose last line is empty returns
    success. *)
Lemma batch_result_is_last_line_witness :
  batch_main bound os_script (cs "script.wsh") started =
  Ret EXIT_SUCCESS
      (set_rc EXIT_FAILURE
         (add_err (Msg CMD_NOT_FOUND [cs "nosuch"])
            (set_history_da [cs "nosuch" ++ [NEWLINE]] started))).
Proof.
  apply (batch_result_is_last_line bound os_script (cs "script.wsh")
           [cs "nosuch" ++ [NEWLINE]] [NEWLINE] started
           (set_rc EXIT_FAILURE
              (add_err (Msg CMD_NOT_FOUND [cs "nosuch"])
                 (set_history_da [cs "nosuch" ++ [NEWLINE]] started)))
           EXIT_FAILURE); reflexivity.
Defined.

End BatchFacts.

(** ** The descriptors of a pipeline *)

Module DescriptorFacts.

Import Cstr Wsh Spec Props Runs PipelineFacts.

Lemma opened_app (a b : list event) : opened (a ++ b) = opened a ++ opened b.
Proof. apply flat_map_app. Qed.

Lemma closed_app (a b : list event) : closed (a ++ b) = closed a ++ closed b.
Proof. apply flat_map_app. Qed.

Lemma kills_no_descriptor (pids : list Z) :
  opened (map EvKill pids) = [] /\ closed (map EvKill pids) = [].
Proof. induction pids as [|p pids [H1 H2]]; simpl; auto. Qed.

(** Moving the descriptors of one turn of the loop to their places. *)
Lemma turn_balance (wfd rfd prev x : Z) (cl op : list Z) :
  Permutation (cl ++ held x) (rfd :: op) ->
  Permutation ((wfd :: held prev ++ cl) ++ held x)
              (held prev ++ rfd :: wfd :: op).
Proof.
  intros H. simpl. rewrite <- app_assoc.
  apply Permutation_trans with (wfd :: held prev ++ rfd :: op).
  - apply perm_skip, Permutation_app_head, H.
  - unfold held. destruct (prev =? STDIN_FILENO)%Z; simpl.
    + apply perm_swap.
    + apply Permutation_trans with (prev :: wfd :: rfd :: op);
        [apply perm_swap|apply perm_skip, perm_swap].
Qed.

Section Sys.

Variable MAX_ARGS : nat.
Variable sys : os.

(** No pipe is created with the standard input as its read end. *)
Hypothesis pipe_not_stdin :
  forall tr r w, os_pipe sys tr = Some (r, w) -> r <> STDIN_FILENO.

(** The first loop: what it closed, together with the read end it still
    holds, is what it held at its start together with what it opened. *)
Lemma spawn_loop_descriptors (segs : list cstring) :
  forall (prev : Z) (pids : list Z) (st : shell),
  exists res st1 ev x,
    spawn_loop MAX_ARGS sys segs prev pids st = Ret res st1 /\
    trace st1 = trace st ++ ev /\
    Permutation (closed ev ++ held x) (held prev ++ opened ev) /\
    match res with
    | None => creation_failed ev = true
    | Some (prev', _) =>
        x = prev' /\ creation_failed ev = false /\
        length (opened ev) = 2 * length segs /\
        length (spawned ev) = length segs
    end.
Proof.
  induction segs as [|seg rest IH]; intros prev pids st.
  - exists (Some (prev, pids)), st, [], prev. simpl. rewrite !app_nil_r.
    repeat split; auto.
  - cbn [spawn_loop].
    cbv [bind sys_pipe get sys_fork perror modify sys_close close_unless_stdin ret].
    destruct (os_pipe sys (trace st)) as [[rfd wfd]|] eqn:Ep.
    + pose proof (pipe_not_stdin _ _ _ Ep) as Hr.
      assert (Hh : held rfd = [rfd])
        by (unfold held; apply Z.eqb_neq in Hr; now rewrite Hr).
      cbn [trace add_event].
      match goal with |- context [EvFork _ ?c] => generalize c; intros child end.
      destruct (os_fork sys (trace st ++ [EvPipe (Some (rfd, wfd))])) as [pid|] eqn:Ef.
      * assert (Hgen : forall s evc,
                   trace s = trace st ++
                             [EvPipe (Some (rfd, wfd)); EvFork pid child; EvClose wfd]
                             ++ evc ->
                   closed evc = held prev -> opened evc = [] -> spawned evc = [] ->
                   creation_failed evc = false ->
                   exists res st1 ev x,
                     spawn_loop MAX_ARGS sys rest rfd (pids ++ [pid]) s = Ret res st1 /\
                     trace st1 = trace st ++ ev /\
                     Permutation (closed ev ++ held x) (held prev ++ opened ev) /\
                     match res with
                     | None => creation_failed ev = true
                     | Some (prev', _) =>
                         x = prev' /\ creation_failed ev = false /\
                         length (opened ev) = 2 * length (seg :: rest) /\
                         length (spawned ev) = length (seg :: rest)
                     end).
        { intros s evc Hs Hc Ho Hsp Hcf.
          destruct (IH rfd (pids ++ [pid]) s) as [res [st1 [ev [x [E [Ht [Hp Hres]]]]]]].
          exists res, st1,
            ([EvPipe (Some (rfd, wfd)); EvFork pid child; EvClose wfd] ++ evc ++ ev), x.
          split; [exact E|]. split; [rewrite Ht, Hs; now rewrite <- !app_assoc|].
          rewrite Hh in Hp.
          split.
          - rewrite !closed_app, !opened_app, Hc, Ho. cbn [closed opened flat_map app].
            now apply turn_balance.
          - destruct res as [[prev' pids']|].
            + destruct Hres as [Hx [H1 [H2 H3]]].
              rewrite !creation_failed_app, !opened_app, !spawned_app, Ho, Hsp, Hcf, H1.
              cbn. rewrite H2, H3. repeat split; auto. lia.
            + rewrite !creation_failed_app, Hres. cbn. now rewrite orb_true_r. }
        destruct (prev =? STDIN_FILENO)%Z eqn:Eprev.
        -- apply (Hgen _ []); auto; [|unfold held; now rewrite Eprev].
           cbn [trace add_event]. now rewrite <- !app_assoc.
        -- apply (Hgen _ [EvClose prev]); auto; [|unfold held; now rewrite Eprev].
           cbn [trace add_event]. now rewrite <- !app_assoc.
      * match goal with |- context [kill_all _ ?s] =>
          destruct (kill_all_run pids s) as [st1 [E [Ht _]]]
        end.
        destruct (kills_no_descriptor pids) as [K1 K2].
        exists None, st1,
          ([EvPipe (Some (rfd, wfd)); EvForkFailed; EvClose rfd; EvClose wfd]
             ++ map EvKill pids), prev.
        rewrite E, Ht. cbn [trace add_event add_err]. rewrite <- !app_assoc.
        split; [reflexivity|]. split; [reflexivity|].
        rewrite closed_app, opened_app, K1, K2. cbn. split; [|reflexivity].
        apply (Permutation_app_comm [rfd; wfd] (held prev)).
    + match goal with |- context [kill_all _ ?s] =>
        destruct (kill_all_run pids s) as [st1 [E [Ht _]]]
      end.
      destruct (kills_no_descriptor pids) as [K1 K2].
      exists None, st1, ([EvPipe None] ++ map EvKill pids), prev.
      rewrite E, Ht. cbn [trace add_event add_err]. rewrite <- !app_assoc.
      split; [reflexivity|]. split; [reflexivity|].
      rewrite closed_app, opened_app, K1, K2. cbn. rewrite app_nil_r.
      split; [apply Permutation_refl|reflexivity].
Qed.

(** The waiting code opens and closes nothing. *)
Lemma wait_rest_descriptors (pids : list Z) :
  forall (all_success : Z) (st : shell),
  exists r st' ev,
    wait_rest sys pids all_success st = Ret r st' /\
    trace st' = trace st ++ ev /\
    closed ev = [] /\ opened ev = [] /\ spawned ev = [] /\
    creation_failed ev = false.
Proof.
  induction pids as [|pid rest IH]; intros all_success st.
  - exists all_success, st, []. simpl. rewrite app_nil_r. auto 10.
  - cbn [wait_rest]. cbv [bind sys_waitpid perror modify].
    destruct (os_waitpid sys (trace st) pid) eqn:Ew;
      match goal with |- context [wait_rest _ _ ?a ?s] =>
        destruct (IH a s) as [r [st' [ev [E [Ht [Hc [Ho [Hs Hf]]]]]]]]
      end;
      match goal with |- context [EvWait pid ?w] =>
        exists r, st', ([EvWait pid w] ++ ev)
      end;
      rewrite E, Ht; cbn [trace add_event add_err]; rewrite <- app_assoc;
      rewrite closed_app, opened_app, spawned_app, creation_failed_app,
        Hc, Ho, Hs, Hf; cbn; auto 10.
Qed.

Lemma collect_descriptors (pid_last : Z) (pids : list Z) (st : shell) :
  exists r st' ev,
    collect sys pid_last pids st = Ret r st' /\
    trace st' = trace st ++ ev /\
    closed ev = [] /\ opened ev = [] /\ spawned ev = [] /\
    creation_failed ev = false.
Proof.
  unfold collect. cbv [bind sys_waitpid perror modify ret].
  destruct (os_waitpid sys (trace st) pid_last) eqn:Ew;
    match goal with |- context [wait_rest _ _ ?a ?s] =>
      destruct (wait_rest_descriptors pids a s)
        as [r [st' [ev [E [Ht [Hc [Ho [Hs Hf]]]]]]]]
    end;
    match goal with |- context [EvWait pid_last ?w] =>
      exists r, st', ([EvWait pid_last w] ++ ev)
    end;
    rewrite E, Ht; cbn [trace add_event add_err set_rc]; rewrite <- app_assoc;
    rewrite closed_app, opened_app, spawned_app, creation_failed_app,
      Hc, Ho, Hs, Hf; cbn; auto 10.
Qed.

Lemma removelast_length (A : Type) (l : list A) :
  length (removelast l) = length l - 1.
Proof.
  induction l as [|a l IH]; [reflexivity|].
  destruct l as [|b l]; [reflexivity|].
  change (removelast (a :: b :: l)) with (a :: removelast (b :: l)).
  simpl length in *. lia.
Qed.

(** X18: a pipeline that is set up completely leaves no pipe descriptor
    open in the shell: the shell closes both ends of every pipe it created,
    each exactly once; it creates one pipe less than there are segments and
    one process per segment.  When a [pipe] or [fork] call fails, all
    descriptors are closed but at most one, the read end of the pipe created
    last before the failure, which stays open.  This needs that no pipe has
    the standard input's number as its read end. *)
Theorem pipeline_closes_its_pipes (segments : list cstring) (st : shell) :
  exists r st' new leak,
    execute_pipeline MAX_ARGS sys segments st = Ret r st' /\
    trace st' = trace st ++ new /\
    Permutation (closed new ++ leak) (opened new) /\
    length leak <= 1 /\
    (creation_failed new = false ->
     leak = [] /\
     length (opened new) = 2 * (length segments - 1) /\
     length (spawned new) = S (length segments - 1)).
Proof.
  unfold execute_pipeline. unfold bind at 1.
  destruct (spawn_loop_descriptors (removelast segments) STDIN_FILENO [] st)
    as [res [st1 [ev [x [E [Ht [Hp Hres]]]]]]].
  rewrite E. change (held STDIN_FILENO) with (@nil Z) in Hp. simpl in Hp.
  assert (Hleak : length (held x) <= 1)
    by (unfold held; destruct (x =? STDIN_FILENO)%Z; simpl; lia).
  destruct res as [[prev pids]|].
  - destruct Hres as [Hx [Hc [Ho Hs]]]. subst x.
    rewrite removelast_length in Ho, Hs.
    cbv [bind get sys_fork perror modify ret close_unless_stdin sys_close].
    match goal with |- context [EvFork _ ?c] => generalize c; intros child end.
    destruct (os_fork sys (trace st1)) as [pid_last|] eqn:Ef.
    + assert (Hgen : forall s evc,
                 trace s = trace st1 ++ EvFork pid_last child :: evc ->
                 closed evc = held prev -> opened evc = [] -> spawned evc = [] ->
                 creation_failed evc = false ->
                 exists r st' new leak,
                   collect sys pid_last pids s = Ret r st' /\
                   trace st' = trace st ++ new /\
                   Permutation (closed new ++ leak) (opened new) /\
                   length leak <= 1 /\
                   (creation_failed new = false ->
                    leak = [] /\
                    length (opened new) = 2 * (length segments - 1) /\
                    length (spawned new) = S (length segments - 1))).
      { intros s evc Hts Hcl Hop Hsp Hcf.
        destruct (collect_descriptors pid_last pids s)
          as [r [st' [evw [Ec [Htw [Hcw [How [Hsw Hfw]]]]]]]].
        exists r, st', (ev ++ EvFork pid_last child :: evc ++ evw), [].
        split; [exact Ec|].
        split; [rewrite Htw, Hts, Ht; rewrite <- !app_assoc; reflexivity|].
        change (EvFork pid_last child :: evc ++ evw)
          with ([EvFork pid_last child] ++ evc ++ evw).
        rewrite !closed_app, !opened_app, !spawned_app, !creation_failed_app.
        rewrite Hcl, Hop, Hsp, Hcf, Hcw, How, Hsw, Hfw, Hc.
        cbn [closed opened spawned creation_failed flat_map existsb app orb].
        rewrite !app_nil_r. split; [exact Hp|]. split; [simpl; lia|].
        intros _. rewrite length_app, Hs, Ho. simpl. repeat split; lia. }
      destruct (prev =? STDIN_FILENO)%Z eqn:Eprev.
      * apply (Hgen _ []); auto. unfold held. now rewrite Eprev.
      * apply (Hgen _ [EvClose prev]); auto; [|unfold held; now rewrite Eprev].
        cbn [trace add_event]. now rewrite <- app_assoc.
    + match goal with |- context [kill_all _ ?s] =>
        destruct (kill_all_run pids s) as [st2 [E2 [Ht2 _]]]
      end.
      destruct (kills_no_descriptor pids) as [K1 K2].
      exists EXIT_FAILURE, st2, (ev ++ [EvForkFailed] ++ map EvKill pids), (held prev).
      rewrite E2, Ht2. cbn [trace add_event add_err]. rewrite Ht.
      split; [reflexivity|]. split; [now rewrite <- !app_assoc|].
      rewrite !closed_app, !opened_app, !creation_failed_app, K1, K2.
      cbn. rewrite !app_nil_r. split; [exact Hp|]. split; [exact Hleak|].
      rewrite orb_true_r. discriminate.
  - exists EXIT_FAILURE, st1, ev, (held x). cbv [ret].
    split; [reflexivity|]. split; [exact Ht|]. split; [exact Hp|].
    split; [exact Hleak|]. rewrite Hres. discriminate.
Qed.

End Sys.

Lemma pipeline_closes_its_pipes_witness :
  exists r st' new leak,
    execute_pipeline bound os_echo [cs "ls "; cs " echo a "; cs " ls"] started =
      Ret r st' /\
    trace st' = trace started ++ new /\
    Permutation (closed new ++ leak) (opened new) /\
    length leak <= 1 /\
    (creation_failed new = false ->
     leak = [] /\
     length (opened new) = 2 * (3 - 1) /\
     length (spawned new) = S (3 - 1)).
Proof.
  apply (pipeline_closes_its_pipes bound os_echo).
  intros tr r w H.
  change (Some ((3 + 2 * Z.of_nat (length tr))%Z, (4 + 2 * Z.of_nat (length tr))%Z) =
          Some (r, w)) in H.
  assert (Hr : (3 + 2 * Z.of_nat (length tr))%Z = r) by congruence.
  unfold STDIN_FILENO. lia.
Defined.

End DescriptorFacts.

(** ** The segments of a pipeline line *)

Module SegmentFacts.

Import Cstr CstrFacts Wsh HashMap Spec Props Runs QuoteFacts AliasFacts PipeFacts
       LineFacts.

Lemma joined_fields_from (s : cstring) :
  forall cur, joined PIPE (pipe_fields_from cur s) = cur ++ s.
Proof.
  induction s as [|c s IH]; intros cur; simpl.
  - now rewrite app_nil_r.
  - destruct (Ascii.eqb c PIPE) eqn:E.
    + apply Ascii.eqb_eq in E. subst c.
      specialize (IH []). simpl in IH.
      destruct (pipe_fields_from [] s) as [|a l] eqn:El.
      * pose proof (pipe_fields_length s) as Hl. unfold pipe_fields in Hl.
        rewrite El in Hl. simpl in Hl. lia.
      * cbn [joined]. cbn [joined] in IH. now rewrite IH.
    + rewrite IH, <- app_assoc. reflexivity.
Qed.

Lemma blank_last_blank (seg : cstring) : blank_last seg = false -> blank seg = false.
Proof. unfold blank_last, blank. destruct (skip SPACE seg); [discriminate|reflexivity]. Qed.

Section Sys.

Variable MAX_ARGS : nat.
Variable sys : os.

(** The splitting loop takes the fields of the text in their order until
    the array is full. *)
Lemma split_loop_fields (f : nat) :
  forall (s : cstring) (segs out : list cstring),
    split_loop MAX_ARGS f s segs = Some (SplitOk out) ->
    length segs <= MAX_ARGS ->
    Forall (fun seg => blank seg = false) segs ->
    out = segs ++ firstn (MAX_ARGS - length segs) (pipe_fields s) /\
    Forall (fun seg => blank seg = false) out.
Proof.
  induction f as [|f IH]; intros s segs out H Hl Hb; [discriminate|].
  rewrite split_loop_S in H. rewrite pipe_fields_unfold.
  destruct (strchr s PIPE) as [[seg rest]|].
  - destruct (length segs <? MAX_ARGS)%nat eqn:El.
    + apply Nat.ltb_lt in El. destruct (blank seg) eqn:Eb; [discriminate|].
      apply IH in H.
      * destruct H as [H1 H2]. split; [|exact H2].
        rewrite H1, length_app, <- app_assoc. simpl.
        replace (MAX_ARGS - length segs) with (S (MAX_ARGS - (length segs + 1))) by lia.
        reflexivity.
      * rewrite length_app. simpl. lia.
      * apply Forall_app. split; [exact Hb|]. constructor; [exact Eb|constructor].
    + apply Nat.ltb_ge in El. inversion H; subst.
      replace (MAX_ARGS - length out) with 0 by lia. simpl.
      rewrite app_nil_r. auto.
  - destruct (length segs <? MAX_ARGS)%nat eqn:El.
    + apply Nat.ltb_lt in El. destruct (blank_last s) eqn:Eb; [discriminate|].
      inversion H; subst.
      replace (MAX_ARGS - length segs) with (S (MAX_ARGS - length segs - 1)) by lia.
      simpl. rewrite firstn_nil. split; [reflexivity|].
      apply Forall_app. split; [exact Hb|].
      constructor; [now apply blank_last_blank|constructor].
    + apply Nat.ltb_ge in El. inversion H; subst.
      replace (MAX_ARGS - length out) with 0 by lia. simpl.
      rewrite app_nil_r. auto.
Qed.

(** X19: when a line is split into segments, the segments are the texts
    between its pipe characters, in their order and unchanged (spaces and the
    newline that ends the line stay), as many as the segment array holds;
    each of them has a character other than the space; and when the line has
    no more segments than the array holds, joining the segments with pipe
    characters gives the line back. *)
Theorem split_keeps_the_text (line : cstring) (segs : list cstring) :
  split_segments MAX_ARGS line = SplitOk segs ->
  segs = firstn MAX_ARGS (pipe_fields line) /\
  Forall (fun seg => blank seg = false) segs /\
  (length (pipe_fields line) <= MAX_ARGS -> joined PIPE segs = line).
Proof.
  intros H.
  destruct (split_loop_fields (S (length line)) line [] segs) as [H1 H2].
  - rewrite split_segments_eq. now f_equal.
  - simpl. lia.
  - constructor.
  - simpl in H1. rewrite Nat.sub_0_r in H1. split; [exact H1|]. split; [exact H2|].
    intros Hl. rewrite H1, firstn_all2 by exact Hl.
    unfold pipe_fields. apply joined_fields_from.
Qed.

(** X20: single quotes do not protect a pipe character.  A line in which a
    quoted text opens at a token boundary and the first pipe character of the
    line stands inside it, before any closing quote, is cut at that pipe
    character like any other line: the first segment then lacks its closing
    quote, so the line is given up as a pipeline with an empty segment.  The
    dispatcher returns failure with the return code at failure, the
    empty-segment diagnostic is printed and no process is created. *)
Theorem quoted_pipe_still_splits (pre a rest : cstring) (toks : list cstring)
        (st : shell) :
  0 < MAX_ARGS ->
  tokenize MAX_ARGS pre = Tokens toks ->
  ends_at_boundary pre = true ->
  contains pre PIPE = false ->
  contains a PIPE = false ->
  contains a QUOTE = false ->
  exists st' msgs,
    execute_command MAX_ARGS sys (pre ++ QUOTE :: a ++ PIPE :: rest) st =
      Ret EXIT_FAILURE st' /\
    rc st' = EXIT_FAILURE /\
    trace st' = trace st /\
    err st' = err st ++ msgs /\
    In (Msg EMPTY_PIPE_SEGMENT []) msgs.
Proof.
  intros Hm Ht Hb Hp Ha Hq.
  set (line := pre ++ QUOTE :: a ++ PIPE :: rest).
  assert (Hseg : ~ In PIPE (pre ++ QUOTE :: a)).
  { apply contains_false in Hp, Ha. intros H.
    apply in_app_or in H as [H|[H|H]]; [auto|discriminate|auto]. }
  assert (Hline : line = (pre ++ QUOTE :: a) ++ PIPE :: rest)
    by (unfold line; now rewrite <- app_assoc).
  assert (Hc : contains line PIPE = true).
  { rewrite Hline. unfold contains. now rewrite (strchr_first _ rest PIPE Hseg). }
  unfold execute_command, bind. rewrite record_history_eq, Hc.
  set (st1 := recorded line st).
  assert (H1 : err st1 = err st /\ trace st1 = trace st)
    by (unfold st1, recorded; destruct (has_text line); split; reflexivity).
  destruct H1 as [He1 Ht1]. clearbody st1.
  unfold execute_pipe_line.
  destruct (split_segments MAX_ARGS line) as [|segs] eqn:Es.
  - exists (set_rc EXIT_FAILURE (add_err (Msg EMPTY_PIPE_SEGMENT []) st1)),
      [Msg EMPTY_PIPE_SEGMENT []].
    cbn. rewrite He1, Ht1. repeat split; auto.
  - destruct (split_loop_fields (S (length line)) line [] segs) as [Hs _].
    + rewrite split_segments_eq. now f_equal.
    + simpl. lia.
    + constructor.
    + simpl in Hs. rewrite Nat.sub_0_r in Hs.
      rewrite pipe_fields_unfold, Hline, (strchr_first _ rest PIPE Hseg) in Hs.
      destruct MAX_ARGS as [|n] eqn:En; [lia|]. rewrite <- En in *.
      rewrite En in Hs. cbn [firstn] in Hs. rewrite Hs.
      cbn [prevalidate]. unfold bind, validate_segment, parseline_no_subst.
      rewrite (tokenize_missing_quote MAX_ARGS pre a toks Ht Hb Hq).
      exists (set_rc EXIT_FAILURE
                (add_err (Msg EMPTY_PIPE_SEGMENT [])
                   (set_rc EXIT_FAILURE
                      (add_err (Msg MISSING_CLOSING_QUOTE []) st1)))),
        [Msg MISSING_CLOSING_QUOTE []; Msg EMPTY_PIPE_SEGMENT []].
      cbn. rewrite He1, Ht1, <- app_assoc. repeat split; auto.
Qed.

Lemma validate_segment_passes (seg seg' : cstring) (st st' : shell) :
  validate_segment MAX_ARGS sys seg st = Ret (Some seg') st' ->
  st' = st /\ seg' = expansion_of MAX_ARGS st seg /\
  runnable MAX_ARGS sys st seg' = true.
Proof.
  unfold validate_segment, parseline_no_subst. intros H.
  destruct (tokenize MAX_ARGS seg) as [[|c args]| |] eqn:Et;
    cbv [bind ret get wsh_warn modify crash] in H; try discriminate.
  destruct (hm_get (alias_hm st) c) as [e|] eqn:Ea.
  - destruct (tokenize MAX_ARGS (alias_subst e (c :: args))) as [[|c' args']| |] eqn:Et2;
      cbv [bind ret get wsh_warn modify crash] in H; try discriminate.
    destruct (lookup_builtin builtins c') eqn:Eb.
    + inversion H; subst. unfold expansion_of, runnable.
      rewrite Et, Ea, Et2, Eb. auto.
    + destruct (find_executable_path sys st c') eqn:Ef; [|discriminate].
      inversion H; subst. unfold expansion_of, runnable.
      rewrite Et, Ea, Et2, Eb, Ef. auto.
  - destruct (lookup_builtin builtins c) eqn:Eb.
    + inversion H; subst. unfold expansion_of, runnable.
      rewrite Et, Ea, Eb. auto.
    + destruct (find_executable_path sys st c) eqn:Ef; [|discriminate].
      inversion H; subst. unfold expansion_of, runnable.
      rewrite Et, Ea, Eb, Ef. auto.
Qed.

Lemma prevalidate_passes (todo : list cstring) :
  forall (done out : list cstring) (st st' : shell),
    prevalidate MAX_ARGS sys todo done st = Ret (Some out) st' ->
    st' = st /\ out = done ++ map (expansion_of MAX_ARGS st) todo /\
    forallb (runnable MAX_ARGS sys st) (map (expansion_of MAX_ARGS st) todo) = true.
Proof.
  induction todo as [|seg rest IH]; intros done out st st' H; cbn [prevalidate] in H.
  - inversion H; subst. simpl. now rewrite app_nil_r.
  - unfold bind in H.
    destruct (validate_segment MAX_ARGS sys seg st) as [[seg'|] s| |] eqn:Ev;
      try discriminate.
    apply validate_segment_passes in Ev as [-> [-> Hr]].
    apply IH in H as [-> [-> Hf]]. simpl. rewrite Hr, Hf, <- app_assoc. auto.
Qed.

(** X21: when the pre-validation of a pipeline lets the segments pass, it
    has changed nothing in the state of the shell; the segments it hands to
    the pipeline are the segments of the line, each one whose first token is
    an alias replaced by the text of the alias followed by its other tokens
    (one replacement, the result is not looked up again); and the first token
    of every segment handed on names a builtin or an executable file that the
    resolver finds. *)
Theorem prevalidation_passes_runnable_segments (segs segs' : list cstring)
        (st st' : shell) :
  prevalidate MAX_ARGS sys segs [] st = Ret (Some segs') st' ->
  st' = st /\
  segs' = map (expansion_of MAX_ARGS st) segs /\
  forallb (runnable MAX_ARGS sys st) segs' = true.
Proof.
  intros H. apply prevalidate_passes in H as [H1 [H2 H3]]. simpl in H2.
  subst segs'. auto.
Qed.

End Sys.

Lemma quoted_pipe_still_splits_witness :
  exists st' msgs,
    execute_command bound os_echo
      (cs "echo " ++ QUOTE :: cs "a" ++ PIPE :: cs "b'" ++ [NEWLINE]) started =
      Ret EXIT_FAILURE st' /\
    rc st' = EXIT_FAILURE /\
    trace st' = trace started /\
    err st' = err started ++ msgs /\
    In (Msg EMPTY_PIPE_SEGMENT []) msgs.
Proof.
  apply (quoted_pipe_still_splits bound os_echo (cs "echo ") (cs "a")
           (cs "b'" ++ [NEWLINE]) [cs "echo"] started);
    [unfold bound; lia|reflexivity..].
Defined.

Lemma prevalidation_passes_runnable_segments_witness :
  started = started /\
  [cs "ls "; cs " echo a"] = map (expansion_of bound started) [cs "ls "; cs " echo a"] /\
  forallb (runnable bound os_echo started) [cs "ls "; cs " echo a"] = true.
Proof.
  apply (prevalidation_passes_runnable_segments bound os_echo
           [cs "ls "; cs " echo a"] [cs "ls "; cs " echo a"] started started).
  reflexivity.
Defined.

Lemma split_keeps_the_text_witness :
  [cs "ls -l "; cs " wc" ++ [NEWLINE]] =
    firstn 4 (pipe_fields (cs "ls -l | wc" ++ [NEWLINE])) /\
  Forall (fun seg => blank seg = false) [cs "ls -l "; cs " wc" ++ [NEWLINE]] /\
  (length (pipe_fields (cs "ls -l | wc" ++ [NEWLINE])) <= 4 ->
   joined PIPE [cs "ls -l "; cs " wc" ++ [NEWLINE]] = cs "ls -l | wc" ++ [NEWLINE]).
Proof.
  apply (split_keeps_the_text 4 (cs "ls -l | wc" ++ [NEWLINE])
           [cs "ls -l "; cs " wc" ++ [NEWLINE]]).
  reflexivity.
Defined.

End SegmentFacts.

(** ** The array in memory *)

Module ArrayFacts.

Import ArrayMem.

Local Open Scope Z_scope.

Lemma size_t_small (x : Z) : 0 <= x < 2 ^ 64 -> size_t x = x.
Proof. intros H. unfold size_t. now apply Z.mod_small. Qed.

Lemma holds_bounds (da : DynamicArray) (l : list cstring) :
  holds da l ->
  (length l <= length (data da))%nat /\ size da <= capacity da /\
  capacity da < 2 ^ 61.
Proof.
  intros [Hs [Hf [Hl [Hc Hb]]]].
  assert (Hn : (length l <= length (data da))%nat).
  { apply (f_equal (@length slot)) in Hf.
    rewrite length_firstn, length_map in Hf. lia. }
  unfold PTR_BYTES in Hb. split; [exact Hn|]. split; lia.
Qed.

Lemma store_in (block : list slot) (i : nat) (v : slot) :
  (i < length block)%nat ->
  store block (Z.of_nat i) v =
  Some (firstn i block ++ v :: skipn (S i) block).
Proof.
  intros H. unfold store.
  replace (0 <=? Z.of_nat i) with true by (symmetry; apply Z.leb_le; lia).
  replace (Z.of_nat i <? Z.of_nat (length block)) with true
    by (symmetry; apply Z.ltb_lt; lia).
  now rewrite Nat2Z.id.
Qed.

Lemma load_in (block : list slot) (i : nat) :
  load block (Z.of_nat i) = nth_error block i.
Proof.
  unfold load.
  replace (Z.of_nat i <? 0) with false by (symmetry; apply Z.ltb_ge; lia).
  now rewrite Nat2Z.id.
Qed.

Lemma stored_length (block : list slot) (i : nat) (v : slot) :
  (i < length block)%nat ->
  length (firstn i block ++ v :: skipn (S i) block) = length block.
Proof.
  intros H. rewrite length_app, length_firstn. cbn [length].
  rewrite length_skipn. lia.
Qed.

(** A store in the slot after the strings held adds one string. *)
Lemma store_after (block : list slot) (l : list cstring) (v : cstring) :
  firstn (length l) block = map Some l ->
  (length l < length block)%nat ->
  firstn (length (l ++ [v]))
         (firstn (length l) block ++ Some v :: skipn (S (length l)) block) =
  map Some (l ++ [v]).
Proof.
  intros Hf Hl. rewrite Hf, length_app, map_app. simpl.
  rewrite firstn_app, length_map.
  replace (length l + 1 - length l)%nat with 1%nat by lia.
  rewrite firstn_all2 by (rewrite length_map; lia). reflexivity.
Qed.

(** One call of [da_put]. *)
Lemma da_put_step (da : DynamicArray) (l : list cstring) (val : cstring) :
  holds da l ->
  size da < capacity da \/ capacity da * 2 * PTR_BYTES < 2 ^ 64 ->
  exists da',
    da_put da val = Done da' /\
    holds da' (l ++ [val]) /\
    capacity da' = if size da <? capacity da then capacity da else capacity da * 2.
Proof.
  intros H Hroom. pose proof (holds_bounds da l H) as [Hn [Hsc Hc61]].
  destruct H as [Hs [Hf [Hl [Hc Hb]]]]. unfold da_put.
  destruct (capacity da <=? size da) eqn:Efull.
  - apply Z.leb_le in Efull.
    destruct Hroom as [Hroom|Hroom]; [lia|].
    replace (size da <? capacity da) with false by (symmetry; apply Z.ltb_ge; lia).
    unfold PTR_BYTES in *. unfold da_resize.
    rewrite (size_t_small (capacity da * 2)) by lia.
    replace (capacity da * 2 <? capacity da) with false
      by (symmetry; apply Z.ltb_ge; lia).
    rewrite (size_t_small (capacity da * 2 * PTR_BYTES)) by (unfold PTR_BYTES; lia).
    unfold realloc, PTR_BYTES.
    replace (capacity da * 2 * 8 =? 0) with false
      by (symmetry; apply Z.eqb_neq; lia).
    rewrite Z.div_mul by lia. cbv zeta.
    rewrite firstn_all2 by lia. cbn [data size capacity].
    set (block := data da ++ repeat None (Z.to_nat (capacity da * 2) - length (data da))).
    assert (Hbl : Z.of_nat (length block) = capacity da * 2).
    { unfold block. rewrite length_app, repeat_length. lia. }
    assert (Hfb : firstn (length l) block = map Some l).
    { unfold block. rewrite firstn_app.
      replace (length l - length (data da))%nat with 0%nat by lia.
      simpl. now rewrite app_nil_r. }
    rewrite Hs, store_in by lia.
    eexists. split; [reflexivity|]. split; [|reflexivity].
    unfold holds. cbn [data size capacity].
    rewrite size_t_small by lia.
    split; [rewrite length_app; simpl; lia|].
    split; [apply store_after; [exact Hfb|lia]|].
    split; [rewrite stored_length by lia; exact Hbl|].
    unfold PTR_BYTES. lia.
  - apply Z.leb_gt in Efull.
    replace (size da <? capacity da) with true by (symmetry; apply Z.ltb_lt; lia).
    rewrite Hs, store_in by lia.
    eexists. split; [reflexivity|]. split; [|reflexivity].
    unfold holds. cbn [data size capacity].
    rewrite size_t_small by lia.
    split; [rewrite length_app; simpl; lia|].
    split; [apply store_after; [exact Hf|lia]|].
    split; [rewrite stored_length by lia; exact Hl|].
    split; assumption.
Qed.

(** [da_get] on an array that holds [l]. *)
Lemma da_get_holds (da : DynamicArray) (l : list cstring) (ind : Z) :
  holds da l -> 0 <= ind ->
  da_get da ind = Done (nth_error l (Z.to_nat ind)).
Proof.
  intros [Hs [Hf [Hl [Hc Hb]]]] Hi. unfold da_get.
  destruct (size da <=? ind) eqn:E.
  - apply Z.leb_le in E.
    replace (nth_error l (Z.to_nat ind)) with (@None cstring); [reflexivity|].
    symmetry. apply nth_error_None. lia.
  - apply Z.leb_gt in E.
    rewrite <- (Z2Nat.id ind Hi), load_in.
    assert (Hlt : (Z.to_nat ind < length l)%nat) by lia.
    assert (Hnth : nth_error (data da) (Z.to_nat ind) =
                   nth_error (map Some l) (Z.to_nat ind)).
    { rewrite <- Hf, nth_error_firstn.
      now replace (Z.to_nat ind <? length l)%nat with true
        by (symmetry; apply Nat.ltb_lt; lia). }
    rewrite Hnth, nth_error_map, Nat2Z.id.
    destruct (nth_error l (Z.to_nat ind)) as [s|] eqn:En; [reflexivity|].
    apply nth_error_None in En. lia.
Qed.

Lemma skipn_nth (A : Type) (l : list A) :
  forall (k : nat) (v : A), nth_error l k = Some v -> skipn k l = v :: skipn (S k) l.
Proof.
  induction l as [|a l IH]; intros [|k] v H; simpl in H; try discriminate.
  - now inversion H.
  - change (skipn (S k) (a :: l)) with (skipn k l).
    change (skipn (S (S k)) (a :: l)) with (skipn (S k) l). now apply IH.
Qed.

(** The loop of [da_delete] moves [n] slots down by one. *)
Lemma shift_spec (n : nat) :
  forall (i : nat) (block : list slot),
    (i + n < length block)%nat ->
    shift n (Z.of_nat i) block =
    Some (firstn i block ++ firstn n (skipn (S i) block) ++ skipn (i + n) block).
Proof.
  induction n as [|n IH]; intros i block H.
  - cbn [shift firstn app]. now rewrite Nat.add_0_r, firstn_skipn.
  - cbn [shift].
    replace (Z.of_nat i + 1) with (Z.of_nat (S i)) by lia.
    rewrite load_in.
    destruct (nth_error block (S i)) as [v|] eqn:Ev;
      [|apply nth_error_None in Ev; lia].
    rewrite store_in by lia.
    set (b1 := firstn i block ++ v :: skipn (S i) block).
    assert (Hl1 : length (firstn i block) = i) by (rewrite length_firstn; lia).
    rewrite IH by (unfold b1; rewrite stored_length; lia).
    f_equal.
    assert (H1 : firstn (S i) b1 = firstn i block ++ [v]).
    { unfold b1. rewrite firstn_app, Hl1.
      replace (S i - i)%nat with 1%nat by lia.
      rewrite firstn_all2 by lia. reflexivity. }
    assert (H2 : forall k, skipn (S i + k) b1 = skipn (S i + k) block).
    { intros k. unfold b1. rewrite skipn_app, Hl1.
      rewrite skipn_all2 by lia.
      replace (S i + k - i)%nat with (S k) by lia.
      cbn [app]. change (skipn (S k) (v :: skipn (S i) block))
        with (skipn k (skipn (S i) block)).
      rewrite skipn_skipn. f_equal. lia. }
    rewrite H1.
    replace (S (S i)) with (S i + 1)%nat by lia. rewrite H2.
    replace (S i + 1)%nat with (S (S i)) by lia.
    rewrite H2, (skipn_nth _ block (S i) v Ev).
    replace (i + S n)%nat with (S i + n)%nat by lia.
    cbn [firstn]. rewrite <- app_assoc. reflexivity.
Qed.

(** The printing loop inside the strings held, and past the block. *)
Lemma print_loop_stored (block : list slot) (l : list cstring) :
  firstn (length l) block = map Some l ->
  forall (cnt i : nat),
    (i + cnt <= length l)%nat ->
    print_loop cnt (Z.of_nat i) block = Some (firstn cnt (skipn i l)).
Proof.
  intros Hf. induction cnt as [|cnt IH]; intros i H; [reflexivity|].
  cbn [print_loop]. rewrite load_in.
  assert (Hn : nth_error block i = nth_error (map Some l) i).
  { rewrite <- Hf, nth_error_firstn.
    now replace (i <? length l)%nat with true by (symmetry; apply Nat.ltb_lt; lia). }
  rewrite Hn, nth_error_map.
  destruct (nth_error l i) as [s|] eqn:Es; [|apply nth_error_None in Es; lia].
  cbn [option_map].
  replace (Z.of_nat i + 1) with (Z.of_nat (S i)) by lia.
  rewrite IH by lia. rewrite (skipn_nth _ l i s Es). reflexivity.
Qed.

Lemma print_loop_overrun (block : list slot) :
  forall (cnt i : nat),
    (i <= length block)%nat -> (length block < i + cnt)%nat ->
    print_loop cnt (Z.of_nat i) block = None.
Proof.
  induction cnt as [|cnt IH]; intros i H1 H2; [lia|].
  cbn [print_loop]. rewrite load_in.
  destruct (nth_error block i) as [[s|]|] eqn:E; [|reflexivity|reflexivity].
  assert (Hi : (i < length block)%nat)
    by (apply nth_error_Some; rewrite E; discriminate).
  replace (Z.of_nat i + 1) with (Z.of_nat (S i)) by lia.
  now rewrite IH by lia.
Qed.

Lemma da_create_holds (init_capacity : Z) :
  0 <= init_capacity ->
  (if init_capacity =? 0 then INIT_CAPACITY else init_capacity) * PTR_BYTES < 2 ^ 64 ->
  exists da,
    da_create init_capacity = Done da /\ holds da [] /\
    capacity da = if init_capacity =? 0 then INIT_CAPACITY else init_capacity.
Proof.
  intros H0 Hb. unfold da_create.
  set (c := if init_capacity =? 0 then INIT_CAPACITY else init_capacity) in *.
  assert (Hc : 0 < c).
  { unfold c. destruct (init_capacity =? 0) eqn:E; [reflexivity|].
    apply Z.eqb_neq in E. lia. }
  unfold PTR_BYTES in *. rewrite size_t_small by lia.
  unfold malloc, PTR_BYTES.
  replace (c * 8 =? 0) with false by (symmetry; apply Z.eqb_neq; lia).
  rewrite Z.div_mul by lia.
  eexists. split; [reflexivity|]. split; [|reflexivity].
  unfold holds. cbn [data size capacity length firstn map].
  rewrite repeat_length. unfold PTR_BYTES. repeat split; lia.
Qed.

(** A run of [da_put] calls. *)
Lemma put_all_grows (vals : list cstring) :
  forall (da : DynamicArray) (l : list cstring),
    holds da l ->
    Z.of_nat (length l + length vals) <= 2 ^ 60 ->
    capacity da = INIT_CAPACITY \/ capacity da < 2 * Z.of_nat (length l) ->
    exists da',
      put_all da vals = Done da' /\ holds da' (l ++ vals) /\
      (capacity da' = INIT_CAPACITY \/
       capacity da' < 2 * Z.of_nat (length (l ++ vals))).
Proof.
  induction vals as [|v vals IH]; intros da l H Hn Hc.
  - exists da. rewrite app_nil_r. auto.
  - cbn [put_all]. cbn [length] in Hn.
    pose proof (holds_bounds da l H) as [_ [Hsc _]].
    assert (Hsize : size da = Z.of_nat (length l)) by (now destruct H).
    destruct (da_put_step da l v H) as [da1 [E [H1 Hc1]]].
    { unfold PTR_BYTES, INIT_CAPACITY in *.
      destruct (Z.lt_ge_cases (size da) (capacity da)); [now left|right; lia]. }
    rewrite E.
    destruct (IH da1 (l ++ [v]) H1) as [da' [E' [H' Hc']]].
    + rewrite length_app. cbn [length]. lia.
    + rewrite Hc1, length_app. cbn [length].
      destruct (size da <? capacity da) eqn:El.
      * destruct Hc as [Hc|Hc]; [now left|right; lia].
      * apply Z.ltb_ge in El. right. lia.
    + exists da'. rewrite <- app_assoc in H', Hc'. auto.
Qed.

(** X22: [da_put] appends, and [da_get] reads back what was put: on an
    array that holds the strings of a list, [da_put] returns with an array
    that holds the list with the new string at its end, the store staying
    inside the block; [da_get] at the former size then returns the new string
    and at every smaller index what it returned before.  The block is kept
    when it has a free slot and is doubled when it is full; this needs that
    the doubled block still has a byte count that fits [size_t]. *)
Theorem da_put_appends (da : DynamicArray) (l : list cstring) (val : cstring) :
  holds da l ->
  size da < capacity da \/ capacity da * 2 * PTR_BYTES < 2 ^ 64 ->
  exists da',
    da_put da val = Done da' /\
    holds da' (DynamicArray.da_put l val) /\
    capacity da' = (if size da <? capacity da then capacity da else capacity da * 2) /\
    da_get da' (size da) = Done (Some val) /\
    (forall ind, 0 <= ind < size da -> da_get da' ind = da_get da ind).
Proof.
  intros H Hroom.
  destruct (da_put_step da l val H Hroom) as [da' [E [H' Hc]]].
  assert (Hs : size da = Z.of_nat (length l)) by (now destruct H).
  exists da'. split; [exact E|]. split; [exact H'|]. split; [exact Hc|]. split.
  - rewrite (da_get_holds da' (l ++ [val]) (size da) H') by lia.
    rewrite Hs, Nat2Z.id, nth_error_app2, Nat.sub_diag by lia. reflexivity.
  - intros ind Hi.
    rewrite (da_get_holds da' (l ++ [val]) ind H'), (da_get_holds da l ind H) by lia.
    rewrite nth_error_app1 by lia. reflexivity.
Qed.

Lemma da_put_appends_witness :
  exists da',
    da_put (mkDa [Some (cs "a")] 1 1) (cs "b") = Done da' /\
    holds da' [cs "a"; cs "b"] /\
    capacity da' = 2 /\
    da_get da' 1 = Done (Some (cs "b")) /\
    (forall ind, 0 <= ind < 1 ->
     da_get da' ind = da_get (mkDa [Some (cs "a")] 1 1) ind).
Proof.
  apply (da_put_appends (mkDa [Some (cs "a")] 1 1) [cs "a"] (cs "b")).
  - unfold holds. cbn. repeat split; reflexivity.
  - right. reflexivity.
Defined.

(** X23: [da_get] returns the string stored at the index, and NULL, without
    any access to the block, for an index from the number of strings held on:
    on an array that holds the strings of a list it agrees with the lookup in
    the list. *)
Theorem da_get_returns_entry_or_null (da : DynamicArray) (l : list cstring)
        (ind : Z) :
  holds da l -> 0 <= ind ->
  da_get da ind = Done (DynamicArray.da_get l (Z.to_nat ind)) /\
  (da_get da ind = Done None <-> Z.of_nat (length l) <= ind).
Proof.
  intros H Hi. rewrite (da_get_holds da l ind H Hi). split; [reflexivity|].
  unfold DynamicArray.da_get. split.
  - intros E. inversion E as [En]. apply nth_error_None in En. lia.
  - intros E. f_equal. apply nth_error_None. lia.
Qed.

Lemma da_get_returns_entry_or_null_witness :
  da_get (mkDa [Some (cs "a"); Some (cs "b"); None; None] 2 4) 1 =
    Done (Some (cs "b")) /\
  (da_get (mkDa [Some (cs "a"); Some (cs "b"); None; None] 2 4) 1 = Done None <->
   Z.of_nat 2 <= 1).
Proof.
  apply (da_get_returns_entry_or_null
           (mkDa [Some (cs "a"); Some (cs "b"); None; None] 2 4)
           [cs "a"; cs "b"] 1).
  - unfold holds. cbn. repeat split; reflexivity.
  - lia.
Defined.

(** X24: [da_delete] removes the string at the index and closes the gap: on
    an array that holds the strings of a list, the array afterwards holds the
    strings before the index followed by the strings after it, in their
    order, in the same block; with an index from the number of strings held
    on, nothing changes. *)
Theorem da_delete_closes_the_gap (da : DynamicArray) (l : list cstring)
        (ind : Z) :
  holds da l -> 0 <= ind ->
  exists da',
    da_delete da ind = Done da' /\
    holds da' (firstn (Z.to_nat ind) l ++ skipn (S (Z.to_nat ind)) l) /\
    capacity da' = capacity da /\
    (Z.of_nat (length l) <= ind -> da' = da).
Proof.
  intros H Hi. pose proof (holds_bounds da l H) as [Hn [Hsc Hc61]].
  destruct H as [Hs [Hf [Hl [Hc Hb]]]]. unfold da_delete.
  destruct (size da <=? ind) eqn:E.
  - apply Z.leb_le in E. exists da.
    rewrite firstn_all2, skipn_all2, app_nil_r by lia.
    repeat split; auto.
  - apply Z.leb_gt in E.
    remember (Z.to_nat ind) as i eqn:Hdef.
    assert (Hil : (i < length l)%nat) by lia.
    assert (Ei : ind = Z.of_nat i) by lia.
    clear Hdef. subst ind. rewrite load_in.
    assert (Hnth : nth_error (data da) i = nth_error (map Some l) i).
    { rewrite <- Hf, nth_error_firstn.
      now replace (i <? length l)%nat with true by (symmetry; apply Nat.ltb_lt; lia). }
    rewrite Hnth, nth_error_map.
    destruct (nth_error l i) as [s|] eqn:Es; [|apply nth_error_None in Es; lia].
    cbn [option_map]. cbv zeta.
    rewrite size_t_small by lia.
    replace (Z.to_nat (size da - 1 - Z.of_nat i)) with (length l - 1 - i)%nat by lia.
    rewrite shift_spec by lia.
    eexists. split; [reflexivity|].
    split; [|split; [reflexivity|intros; lia]].
    unfold holds. cbn [data size capacity].
    assert (Hlen : length (firstn i l ++ skipn (S i) l) = (length l - 1)%nat).
    { rewrite length_app, length_firstn, length_skipn. lia. }
    rewrite Hlen.
    split; [lia|]. split; [|split; [|split; assumption]].
    + rewrite firstn_app, length_firstn.
      replace (Nat.min i (length (data da))) with i by lia.
      rewrite (firstn_all2 (n := length l - 1) (firstn i (data da)))
        by (rewrite length_firstn; lia).
      rewrite firstn_app, length_firstn, length_skipn.
      replace (length l - 1 - i - Nat.min (length l - 1 - i) (length (data da) - S i))%nat
        with 0%nat by lia.
      cbn [firstn]. rewrite app_nil_r.
      rewrite (firstn_all2 (n := (length l - 1 - i)%nat)
                           (firstn (length l - 1 - i) (skipn (S i) (data da))))
        by (rewrite length_firstn; lia).
      rewrite map_app.
      assert (H1 : firstn i (data da) = map Some (firstn i l)).
      { rewrite <- firstn_map, <- Hf, firstn_firstn.
        now replace (Nat.min i (length l)) with i by lia. }
      assert (H2 : firstn (length l - 1 - i) (skipn (S i) (data da)) =
                   map Some (skipn (S i) l)).
      { rewrite <- skipn_map, <- Hf, skipn_firstn_comm. f_equal. lia. }
      now rewrite H1, H2.
    + rewrite !length_app, !length_firstn, !length_skipn. lia.
Qed.

Lemma da_delete_closes_the_gap_witness :
  exists da',
    da_delete (mkDa [Some (cs "a"); Some (cs "b"); Some (cs "c"); None] 3 4) 0 =
      Done da' /\
    holds da' [cs "b"; cs "c"] /\
    capacity da' = 4 /\
    (Z.of_nat 3 <= 0 ->
     da' = mkDa [Some (cs "a"); Some (cs "b"); Some (cs "c"); None] 3 4).
Proof.
  apply (da_delete_closes_the_gap
           (mkDa [Some (cs "a"); Some (cs "b"); Some (cs "c"); None] 3 4)
           [cs "a"; cs "b"; cs "c"] 0).
  - unfold holds. cbn. repeat split; reflexivity.
  - lia.
Defined.

(** X25: [da_print] prints the strings held but the last one, in their
    order, and on an array that holds no string its loop bound [size - 1]
    wraps around, so that the loop leaves the block: it agrees with the
    listing on the list of the strings held that the history command is
    modelled with. *)
Theorem da_print_skips_last_entry (da : DynamicArray) (l : list cstring) :
  holds da l ->
  da_print da =
  match DynamicArray.da_print l with
  | Some lines => Done lines
  | None => Undefined
  end /\
  (l <> [] -> da_print da = Done (removelast l)).
Proof.
  intros H. pose proof (holds_bounds da l H) as [Hn [Hsc Hc61]].
  destruct H as [Hs [Hf [Hl [Hc Hb]]]].
  unfold da_print, DynamicArray.da_print, DynamicArray.print_bound.
  destruct l as [|a l'].
  - split; [|contradiction]. rewrite Hs. cbn [length].
    replace (size_t (Z.of_nat 0 - 1)) with (2 ^ 64 - 1) by reflexivity.
    replace ((Z.of_nat 0 - 1) mod 2 ^ 64 <=? Z.of_nat 0) with false by reflexivity.
    change 0 with (Z.of_nat 0) at 1.
    rewrite print_loop_overrun; [reflexivity|lia|lia].
  - set (l := a :: l') in *.
    assert (Hpos : (0 < length l)%nat) by (unfold l; simpl; lia).
    rewrite Hs, size_t_small by lia.
    rewrite Z.mod_small by lia.
    replace (Z.of_nat (length l) - 1 <=? Z.of_nat (length l)) with true
      by (symmetry; apply Z.leb_le; lia).
    change 0 with (Z.of_nat 0).
    rewrite (print_loop_stored (data da) l Hf) by lia.
    cbn [skipn]. split; [reflexivity|]. intros _. f_equal.
    replace (Z.to_nat (Z.of_nat (length l) - 1)) with (length l - 1)%nat by lia.
    now rewrite removelast_firstn_len, <- Nat.sub_1_r.
Qed.

Lemma da_print_skips_last_entry_witness :
  da_print (mkDa [Some (cs "a"); Some (cs "b"); None; None] 2 4) =
    Done [cs "a"] /\
  ([cs "a"; cs "b"] <> [] ->
   da_print (mkDa [Some (cs "a"); Some (cs "b"); None; None] 2 4) =
     Done (removelast [cs "a"; cs "b"])).
Proof.
  apply (da_print_skips_last_entry
           (mkDa [Some (cs "a"); Some (cs "b"); None; None] 2 4) [cs "a"; cs "b"]).
  unfold holds. cbn. repeat split; reflexivity.
Defined.

(** X26: the array that [da_create(0)] returns, filled by [da_put] calls
    alone as the history of the shell is, holds the strings put, in their
    order, after every call: no call stores outside the block, none ends the
    process, and the block has the initial 16 slots or fewer than twice as
    many slots as strings held.  This is so up to 2^60 strings, the point
    where the byte count of the doubled block no longer fits [size_t]. *)
Theorem history_array_grows_by_doubling (vals : list cstring) :
  Z.of_nat (length vals) <= 2 ^ 60 ->
  exists da0 da,
    da_create 0 = Done da0 /\
    put_all da0 vals = Done da /\
    holds da vals /\
    (capacity da = INIT_CAPACITY \/ capacity da < 2 * Z.of_nat (length vals)).
Proof.
  intros Hn.
  destruct (da_create_holds 0) as [da0 [E0 [H0 Hc0]]]; [lia|reflexivity|].
  destruct (put_all_grows vals da0 [] H0) as [da [E [H Hc]]].
  - simpl. exact Hn.
  - left. exact Hc0.
  - exists da0, da. auto.
Qed.

Lemma history_array_grows_by_doubling_witness :
  exists da0 da,
    da_create 0 = Done da0 /\
    put_all da0 (repeat (cs "ls") 17) = Done da /\
    holds da (repeat (cs "ls") 17) /\
    (capacity da = INIT_CAPACITY \/
     capacity da < 2 * Z.of_nat (length (repeat (cs "ls") 17))).
Proof.
  apply (history_array_grows_by_doubling (repeat (cs "ls") 17)).
  simpl. lia.
Defined.

End ArrayFacts.
